(** * Configurable MLM system: commission, hierarchy and fraud engines

    A shallow embedding of the three business-rule engines
    ([commission-calculator.ts], [hierarchy-manager.ts],
    [fraud-detection.ts]) and the properties their specification states.

    Conventions of the embedding:
    - a JavaScript [number] is a rational ([Q]). The commission amounts and
      the hierarchy counters are computed exactly; where a decision sits on
      a rounding boundary (the velocity thresholds of the fraud engine, the
      commission percentage) every multiplication and division is rounded
      to double precision by [JS.binary64];
    - an optional field is an [option]; JavaScript truthiness of a number
      ([x && ...], [x || d]) is "present and non-zero", of a string "present
      and non-empty";
    - a [Date] is the record of the three observations the engines make of it
      ([getTime], [getFullYear], [getMonth]); the clock ([new Date()],
      [Date.now()]) is an explicit argument [now] of every operation that
      reads it;
    - the partner store, whose four accessors are left to the database layer,
      is a table of rows threaded through a state-and-error monad. *)

From Stdlib Require Import ZArith QArith Qround Qabs Qpower List String Ascii.
From Stdlib Require Import Bool Lia.
From Stdlib Require Import DecimalString Sorted Permutation Lqa.
Import ListNotations.

Local Open Scope Q_scope.

(** ** JavaScript primitives used by the engines *)

Module JS.

Definition Qlt_bool (a b : Q) : bool := negb (Qle_bool b a).

(** [Math.min], [Math.max] *)
Definition Math_min (a b : Q) : Q := if Qle_bool a b then a else b.
Definition Math_max (a b : Q) : Q := if Qle_bool a b then b else a.

(** [Math.round]: nearest integer, a tie goes up. *)
Definition Math_round (x : Q) : Q := inject_Z (Qfloor (x + (1 # 2))).

(** [Math.round(x * 100) / 100] *)
Definition round2 (x : Q) : Q := Math_round (x * 100) / 100.

(** Truthiness of an optional number: [undefined], [0] are falsy. *)
Definition truthy_num (o : option Q) : option Q :=
  match o with
  | Some v => if Qeq_bool v 0 then None else Some v
  | None => None
  end.

(** [o || d] on an optional number. *)
Definition num_or (o : option Q) (d : Q) : Q :=
  match truthy_num o with Some v => v | None => d end.

(** Truthiness of an optional string: [undefined], [''] are falsy. *)
Definition truthy_str (o : option string) : option string :=
  match o with
  | Some "" => None
  | Some s => Some s
  | None => None
  end%string.

(** [s.includes(sub)] *)
Fixpoint includes (s sub : string) : bool :=
  if prefix sub s then true
  else match s with
       | EmptyString => false
       | String _ s' => includes s' sub
       end.

(** [s.split('/')] *)
Fixpoint split_from (cur : string) (s : string) : list string :=
  match s with
  | EmptyString => [cur]
  | String c s' =>
      if Ascii.eqb c "/"%char then cur :: split_from EmptyString s'
      else split_from (cur ++ String c EmptyString)%string s'
  end.

Definition split_slash (s : string) : list string := split_from EmptyString s.

(** [arr.includes(x)] on strings and on integers *)
Definition arr_includes (l : list string) (x : string) : bool :=
  existsb (String.eqb x) l.

Definition arr_includes_Z (l : list Z) (x : Z) : bool :=
  existsb (Z.eqb x) l.

(** Template-literal rendering of an integer. *)
Definition string_of_Z (z : Z) : string := NilZero.string_of_int (Z.to_int z).

(** *** Double precision *)

(** The integer part of the binary logarithm of a positive rational. *)
Definition ilog2 (x : Q) : Z :=
  let k := (Z.log2 (Qnum x) - Z.log2 (Zpos (Qden x)))%Z in
  if Qle_bool (2 ^ k) x then k else (k - 1)%Z.

(** The nearest integer, a tie going to the even one. *)
Definition roundEven (m : Q) : Z :=
  let f := Qfloor m in
  match Qcompare (m - inject_Z f) (1 # 2) with
  | Lt => f
  | Gt => (f + 1)%Z
  | Eq => if Z.even f then f else (f + 1)%Z
  end.

(** The exponent of the unit in the last place of [x]: 53 significant
    bits, and no exponent below that of the subnormal numbers. *)
Definition ulpExp (x : Q) : Z := Z.max (ilog2 (Qabs x) - 52) (-1074).

(** The IEEE 754 binary64 number nearest to [x], a tie going to the even
    significand: the value a JavaScript arithmetic operation returns for
    the exact result [x], as long as it stays below [2^1024] in
    magnitude. *)
Definition binary64 (x : Q) : Q :=
  if Qeq_bool x 0 then 0
  else inject_Z (roundEven (x / 2 ^ ulpExp x)) * 2 ^ ulpExp x.

(** [a * b] and [a / b] on numbers. *)
Definition num_mul (a b : Q) : Q := binary64 (a * b).
Definition num_div (a b : Q) : Q := binary64 (a / b).

End JS.

(** A [Date], as observed by the engines. *)
Record Date := mkDate {
  getTime : Z;       (* milliseconds since the epoch *)
  getFullYear : Z;
  getMonth : Z
}.

(** Failures raised by the engines. *)
Inductive Error :=
| InvalidAmount        (* 'Transaction amount must be positive' *)
| PartnerNotFound      (* 'Partner not found' *)
| NewSponsorNotFound   (* 'New sponsor not found' *)
| SelfCycle            (* 'Cannot move partner to their own downline' *)
| DepthExceeded.       (* 'Move would exceed maximum hierarchy level' *)

(** ** Commission calculation engine (commission-calculator.ts) *)

Module Commission.

Import JS.

Inductive CommissionType := percentage | fixed.

Record QualificationCriteria := mkCriteria {
  qc_personalVolume : option Q;
  qc_teamVolume : option Q;
  qc_activeDownline : option Q;
  qc_timeInBusiness : option Q;
  qc_certificationRequired : option (list string)
}.

Record CommissionTier := mkTier {
  tier_level : Z;
  tier_name : string;
  qualificationCriteria : QualificationCriteria;
  commissionRate : Q;
  commissionType : CommissionType;
  minimumVolume : option Q;
  maximumEarnings : option Q
}.

(** [trigger.value] is a number, or a range for ['between']. *)
Inductive TriggerValue :=
| TVnumber (v : Q)
| TVrange (r : list Q).

Record BonusTrigger := mkTrigger {
  trigger_metric : string;
  trigger_operator : string;
  trigger_value : TriggerValue
}.

Record BonusReward := mkReward {
  reward_type : string;
  reward_value : Q;
  reward_currency : option string
}.

Record BonusRule := mkBonusRule {
  bonus_id : string;
  bonus_name : string;
  eligibilityCriteria : QualificationCriteria;
  trigger : BonusTrigger;
  reward : BonusReward
}.

Record CommissionCap := mkCap {
  cap_id : string;
  maxAmount : Q;
  applicableLevels : option (list Z);
  applicableToAll : option bool
}.

Record ProductConfig := mkProduct {
  product_id : string;
  commissionEligible : bool;
  commissionRates : option (list (Z * Q))
}.

(** The part of [MLMSystemConfig] the engine reads. *)
Record Config := mkConfig {
  products : list ProductConfig;
  maxHierarchyLevels : Z;
  tiers : list CommissionTier;
  bonuses : list BonusRule;
  caps : option (list CommissionCap);
  residualEnabled : bool;
  residualPeriod : Z
}.

Record Transaction := mkTransaction {
  tx_id : string;
  tx_partnerId : string;
  tx_customerEmail : string;
  amount : Q;
  tx_currency : string;
  productId : string;
  tx_timestamp : Date;
  tx_metadata : list (string * string)
}.

Record PartnerHierarchyNode := mkNode {
  node_id : string;
  node_sponsorId : option string;
  node_level : Z;
  personalVolume : Q;
  teamVolume : Q;
  monthlyVolume : Q;
  activeDownline : Q;
  joinDate : Date;
  node_status : string;
  currentMonthEarnings : option Q;
  consecutiveActiveMonths : option Q;
  certifications : option (list string)
}.

Record CommissionResult := mkCommissionResult {
  cr_partnerId : string;
  cr_level : Z;
  cr_tierName : string;
  cr_baseAmount : Q;
  cr_commissionRate : Q;
  commissionAmount : Q;
  cr_commissionType : CommissionType;
  cr_currency : string
}.

Record BonusResult := mkBonusResult {
  br_partnerId : string;
  br_bonusId : string;
  br_bonusName : string;
  bonus_amount : Q;
  br_currency : string;
  br_triggerMetric : string;
  br_triggerValue : TriggerValue
}.

Record CommissionDistribution := mkDistribution {
  transactionId : string;
  totalCommissionPaid : Q;
  commissions : list CommissionResult;
  bonuses_of : list BonusResult;
  processingTimestamp : Date
}.

Record Subscription := mkSubscription {
  sub_id : string;
  sub_partnerId : string;
  sub_customerEmail : string;
  sub_productId : string;
  monthlyAmount : Q;
  sub_currency : string;
  startDate : Date;
  sub_status : string
}.

Section Engine.

Variable config : Config.
(** The clock reading of the invocation. *)
Variable now : Date.

Definition calculateMonthsInBusiness (joinDate : Date) : Z :=
  ((getFullYear now - getFullYear joinDate) * 12
   + (getMonth now - getMonth joinDate))%Z.

Definition isPartnerQualified (partner : PartnerHierarchyNode)
           (tier : CommissionTier) : bool :=
  let criteria := qualificationCriteria tier in
  if match truthy_num (qc_personalVolume criteria) with
     | Some v => Qlt_bool (personalVolume partner) v
     | None => false
     end then false
  else if match truthy_num (qc_teamVolume criteria) with
          | Some v => Qlt_bool (teamVolume partner) v
          | None => false
          end then false
  else if match truthy_num (qc_activeDownline criteria) with
          | Some v => Qlt_bool (activeDownline partner) v
          | None => false
          end then false
  else if match truthy_num (qc_timeInBusiness criteria) with
          | Some v =>
              Qlt_bool (inject_Z (calculateMonthsInBusiness (joinDate partner))) v
          | None => false
          end then false
  else match qc_certificationRequired criteria with
       | Some (c :: cs) =>
           forallb (fun cert =>
                      match certifications partner with
                      | Some have => arr_includes have cert
                      | None => false
                      end) (c :: cs)
       | _ => true
       end.

(** The [reduce] callback of [findApplicableTier]. *)
Definition pickBest (best : option CommissionTier) (current : CommissionTier)
  : option CommissionTier :=
  match best with
  | None => Some current
  | Some b =>
      if Qlt_bool (commissionRate b) (commissionRate current)
      then Some current else Some b
  end.

Definition applicableTiers (partner : PartnerHierarchyNode) (level : Z)
  : list CommissionTier :=
  filter (fun tier => Z.eqb (tier_level tier) level
                      && isPartnerQualified partner tier)
         (tiers config).

Definition findApplicableTier (partner : PartnerHierarchyNode) (level : Z)
  : option CommissionTier :=
  fold_left pickBest (applicableTiers partner level) None.

Definition isCapApplicable (cap : CommissionCap)
           (partner : PartnerHierarchyNode) (level : Z) : bool :=
  match applicableLevels cap with
  | Some ls => arr_includes_Z ls level
  | None => false
  end
  || match applicableToAll cap with Some b => b | None => false end.

(** [product.commissionRates?.[level]] *)
Definition productRate (product : ProductConfig) (level : Z) : option Q :=
  match commissionRates product with
  | Some rates =>
      option_map snd (find (fun kv => Z.eqb (fst kv) level) rates)
  | None => None
  end.

Definition calculateTierCommission (transaction : Transaction)
           (partner : PartnerHierarchyNode) (tier : CommissionTier)
           (level : Z) (product : ProductConfig) : option CommissionResult :=
  let rate := num_or (productRate product level) (commissionRate tier) in
  let commissionAmount0 :=
    match commissionType tier with
    | percentage => amount transaction * rate
    | fixed => rate
    end in
  if match truthy_num (minimumVolume tier) with
     | Some mv => Qlt_bool (amount transaction) mv
     | None => false
     end
  then None
  else
    let commissionAmount1 :=
      match truthy_num (maximumEarnings tier) with
      | Some maxE =>
          let currentMonth := num_or (currentMonthEarnings partner) 0 in
          let availableEarnings := maxE - currentMonth in
          Math_min commissionAmount0 availableEarnings
      | None => commissionAmount0
      end in
    let commissionAmount2 :=
      fold_left (fun acc cap =>
                   if isCapApplicable cap partner level
                   then Math_min acc (maxAmount cap) else acc)
                (match caps config with Some cs => cs | None => [] end)
                commissionAmount1 in
    Some {| cr_partnerId := node_id partner;
            cr_level := level;
            cr_tierName := tier_name tier;
            cr_baseAmount := amount transaction;
            cr_commissionRate := rate;
            commissionAmount := round2 commissionAmount2;
            cr_commissionType := commissionType tier;
            cr_currency := tx_currency transaction |}.

(** Coercion of [trigger.value] where the comparison operators use it as
    a number: an array coerces through its string form. *)
Definition triggerNumber (v : TriggerValue) : option Q :=
  match v with
  | TVnumber q => Some q
  | TVrange [] => Some 0
  | TVrange [q] => Some q
  | TVrange _ => None
  end.

Definition isBonusTriggerMet (partner : PartnerHierarchyNode)
           (bonusRule : BonusRule) (transaction : Transaction) : bool :=
  let trigger := trigger bonusRule in
  let metric := trigger_metric trigger in
  match (if String.eqb metric "monthly_volume" then Some (monthlyVolume partner)
         else if String.eqb metric "team_size" then Some (activeDownline partner)
         else if String.eqb metric "personal_sales" then Some (personalVolume partner)
         else if String.eqb metric "consecutive_months"
              then Some (num_or (consecutiveActiveMonths partner) 0)
         else None) with
  | None => false
  | Some actualValue =>
      let op := trigger_operator trigger in
      if String.eqb op "equals" then
        match trigger_value trigger with
        | TVnumber v => Qeq_bool actualValue v
        | TVrange _ => false
        end
      else if String.eqb op "greater_than" then
        match triggerNumber (trigger_value trigger) with
        | Some v => Qlt_bool v actualValue
        | None => false
        end
      else if String.eqb op "less_than" then
        match triggerNumber (trigger_value trigger) with
        | Some v => Qlt_bool actualValue v
        | None => false
        end
      else if String.eqb op "between" then
        match trigger_value trigger with
        | TVrange (lo :: hi :: _) =>
            Qle_bool lo actualValue && Qle_bool actualValue hi
        | _ => false
        end
      else false
  end.

Definition withCriteria (tier : CommissionTier) (c : QualificationCriteria)
  : CommissionTier :=
  {| tier_level := tier_level tier;
     tier_name := tier_name tier;
     qualificationCriteria := c;
     commissionRate := commissionRate tier;
     commissionType := commissionType tier;
     minimumVolume := minimumVolume tier;
     maximumEarnings := maximumEarnings tier |}.

(** One iteration of the loop of [calculateBonuses]. *)
Definition bonusFor (partner : PartnerHierarchyNode)
           (transaction : Transaction) (tier : CommissionTier)
           (bonusRule : BonusRule) : list BonusResult :=
  if negb (isPartnerQualified partner
             (withCriteria tier (eligibilityCriteria bonusRule)))
  then []
  else if negb (isBonusTriggerMet partner bonusRule transaction) then []
  else
    let ty := reward_type (reward bonusRule) in
    let bonusAmount :=
      if String.eqb ty "fixed_amount" then reward_value (reward bonusRule)
      else if String.eqb ty "percentage"
           then amount transaction * (reward_value (reward bonusRule) / 100)
      else 0 in
    if Qlt_bool 0 bonusAmount then
      [ {| br_partnerId := node_id partner;
           br_bonusId := bonus_id bonusRule;
           br_bonusName := bonus_name bonusRule;
           bonus_amount := round2 bonusAmount;
           br_currency :=
             match truthy_str (reward_currency (reward bonusRule)) with
             | Some c => c
             | None => tx_currency transaction
             end;
           br_triggerMetric := trigger_metric (trigger bonusRule);
           br_triggerValue := trigger_value (trigger bonusRule) |} ]
    else [].

Definition calculateBonuses (partner : PartnerHierarchyNode)
           (transaction : Transaction) (tier : CommissionTier)
  : list BonusResult :=
  flat_map (bonusFor partner transaction tier) (bonuses config).

(** [xs.reduce((sum, x) => sum + f(x), 0)] *)
Definition sumOf {A} (f : A -> Q) (xs : list A) : Q :=
  fold_left (fun sum x => sum + f x) xs 0.

(** The accumulators of the main loop. *)
Record LoopState := mkLoop {
  ls_commissions : list CommissionResult;
  ls_bonuses : list BonusResult;
  ls_total : Q
}.

(** Body of the [for] loop of [calculateCommissions] at index [i]. *)
Definition levelStep (transaction : Transaction) (product : ProductConfig)
           (i : nat) (partner : PartnerHierarchyNode) (st : LoopState)
  : LoopState :=
  let level := (Z.of_nat i + 1)%Z in
  match findApplicableTier partner level with
  | None => st
  | Some tier =>
      match calculateTierCommission transaction partner tier level product with
      | Some commissionResult =>
          if Qlt_bool 0 (commissionAmount commissionResult) then
            let partnerBonuses := calculateBonuses partner transaction tier in
            {| ls_commissions := ls_commissions st ++ [commissionResult];
               ls_bonuses := ls_bonuses st ++ partnerBonuses;
               ls_total := (ls_total st + commissionAmount commissionResult)
                           + sumOf bonus_amount partnerBonuses |}
          else st
      | None => st
      end
  end.

Fixpoint levelLoop (transaction : Transaction) (product : ProductConfig)
         (i : nat) (hierarchy : list PartnerHierarchyNode) (st : LoopState)
  : LoopState :=
  match hierarchy with
  | [] => st
  | partner :: rest =>
      if (Z.of_nat i <? maxHierarchyLevels config)%Z
      then levelLoop transaction product (S i) rest
                     (levelStep transaction product i partner st)
      else st
  end.

Definition findProduct (transaction : Transaction) : option ProductConfig :=
  find (fun p => String.eqb (product_id p) (productId transaction))
       (products config).

Definition calculateCommissions (transaction : Transaction)
           (partnerHierarchy : list PartnerHierarchyNode)
  : Error + CommissionDistribution :=
  if Qle_bool (amount transaction) 0 then inl InvalidAmount
  else
    match findProduct transaction with
    | Some product =>
        if commissionEligible product then
          let st := levelLoop transaction product 0 partnerHierarchy
                              (mkLoop [] [] 0) in
          inr {| transactionId := tx_id transaction;
                 totalCommissionPaid := ls_total st;
                 commissions := ls_commissions st;
                 bonuses_of := ls_bonuses st;
                 processingTimestamp := now |}
        else
          inr {| transactionId := tx_id transaction;
                 totalCommissionPaid := 0;
                 commissions := [];
                 bonuses_of := [];
                 processingTimestamp := now |}
    | None =>
        inr {| transactionId := tx_id transaction;
               totalCommissionPaid := 0;
               commissions := [];
               bonuses_of := [];
               processingTimestamp := now |}
    end.

Definition residualFactor : Q := 1 # 2.

Definition residualTransaction (subscription : Subscription) : Transaction :=
  {| tx_id := ("residual_" ++ sub_id subscription ++ "_"
               ++ string_of_Z (getTime now))%string;
     tx_partnerId := sub_partnerId subscription;
     tx_customerEmail := sub_customerEmail subscription;
     amount := monthlyAmount subscription;
     tx_currency := sub_currency subscription;
     productId := sub_productId subscription;
     tx_timestamp := now;
     tx_metadata := [("type", "residual");
                     ("subscriptionId", sub_id subscription)]%string |}.

Definition scaleCommission (comm : CommissionResult) : CommissionResult :=
  {| cr_partnerId := cr_partnerId comm;
     cr_level := cr_level comm;
     cr_tierName := cr_tierName comm;
     cr_baseAmount := cr_baseAmount comm;
     cr_commissionRate := cr_commissionRate comm;
     commissionAmount := commissionAmount comm * residualFactor;
     cr_commissionType := cr_commissionType comm;
     cr_currency := cr_currency comm |}.

(** The loop of [calculateResidualCommissions]; a throw of
    [calculateCommissions] rejects the whole call. *)
Fixpoint residualLoop (subscriptions : list Subscription)
         (partnerHierarchy : list PartnerHierarchyNode)
         (results : list CommissionDistribution)
  : Error + list CommissionDistribution :=
  match subscriptions with
  | [] => inr results
  | subscription :: rest =>
      let monthsActive := calculateMonthsInBusiness (startDate subscription) in
      if (residualPeriod config <? monthsActive)%Z
      then residualLoop rest partnerHierarchy results
      else
        match calculateCommissions (residualTransaction subscription)
                                   partnerHierarchy with
        | inl e => inl e
        | inr distribution =>
            let scaled := map scaleCommission (commissions distribution) in
            let distribution' :=
              {| transactionId := transactionId distribution;
                 totalCommissionPaid := sumOf commissionAmount scaled;
                 commissions := scaled;
                 bonuses_of := bonuses_of distribution;
                 processingTimestamp := processingTimestamp distribution |} in
            residualLoop rest partnerHierarchy (results ++ [distribution'])
        end
  end.

Definition calculateResidualCommissions (subscriptions : list Subscription)
           (partnerHierarchy : list PartnerHierarchyNode)
  : Error + list CommissionDistribution :=
  if negb (residualEnabled config) then inr []
  else residualLoop subscriptions partnerHierarchy [].

End Engine.

(** [CommissionUtils.validateCommissionDistribution] *)
Definition validateCommissionDistribution (distribution : CommissionDistribution)
  : bool :=
  let calculatedTotal :=
    sumOf commissionAmount (commissions distribution)
    + sumOf bonus_amount (bonuses_of distribution) in
  Qlt_bool (Qabs (calculatedTotal - totalCommissionPaid distribution)) (1 # 100).

(** *** Predicates used by the statements *)

(** The filter predicate of [findApplicableTier]. *)
Definition applicable (now : Date) (partner : PartnerHierarchyNode) (level : Z)
           (tier : CommissionTier) : bool :=
  Z.eqb (tier_level tier) level && isPartnerQualified now partner tier.

(** The zero-value distribution returned for an unknown or ineligible
    product. *)
Definition zeroDistribution (now : Date) (transaction : Transaction)
  : CommissionDistribution :=
  {| transactionId := tx_id transaction;
     totalCommissionPaid := 0;
     commissions := [];
     bonuses_of := [];
     processingTimestamp := now |}.

(** No configured product carries the transaction's product id. *)
Definition productUnknown (config : Config) (transaction : Transaction) : Prop :=
  forall p, In p (products config) -> product_id p <> productId transaction.

(** The product the lookup resolves to is not commission-eligible. *)
Definition productIneligible (config : Config) (transaction : Transaction) : Prop :=
  exists p, findProduct config transaction = Some p
            /\ commissionEligible p = false.

(** The running total is the sum of what has been emitted so far. *)
Definition totalInv (st : LoopState) : Prop :=
  ls_total st
  == sumOf commissionAmount (ls_commissions st)
     + sumOf bonus_amount (ls_bonuses st).

(** Every emitted commission is strictly positive. *)
Definition positiveInv (st : LoopState) : Prop :=
  Forall (fun c => 0 < commissionAmount c) (ls_commissions st).

(** Two clock readings in the same calendar month. *)
Definition sameMonth (a b : Date) : Prop :=
  getFullYear a = getFullYear b /\ getMonth a = getMonth b.

(** Two outcomes that agree on everything but [processingTimestamp]. *)
Definition agreeUpToTimestamp (r1 r2 : Error + CommissionDistribution) : Prop :=
  match r1, r2 with
  | inl e1, inl e2 => e1 = e2
  | inr d1, inr d2 =>
      transactionId d1 = transactionId d2
      /\ totalCommissionPaid d1 = totalCommissionPaid d2
      /\ commissions d1 = commissions d2
      /\ bonuses_of d1 = bonuses_of d2
  | _, _ => False
  end.

(** Where the entries of the accumulators come from: each commission is the
    result of [calculateTierCommission] for some upline position and its
    selected tier; each bonus was computed for a partner who has just been
    given a commission. *)
Definition commissionOrigin (config : Config) (now : Date)
           (transaction : Transaction) (product : ProductConfig)
           (h : list PartnerHierarchyNode) (c : CommissionResult) : Prop :=
  exists (n : nat) (partner : PartnerHierarchyNode) (tier : CommissionTier),
    nth_error h n = Some partner
    /\ (Z.of_nat n < maxHierarchyLevels config)%Z
    /\ findApplicableTier config now partner (Z.of_nat n + 1) = Some tier
    /\ calculateTierCommission config transaction partner tier
                               (Z.of_nat n + 1) product = Some c
    /\ 0 < commissionAmount c.

Definition bonusOrigin (config : Config) (now : Date)
           (transaction : Transaction) (h : list PartnerHierarchyNode)
           (cs : list CommissionResult) (b : BonusResult) : Prop :=
  exists (partner : PartnerHierarchyNode) (tier : CommissionTier)
         (c : CommissionResult),
    In partner h /\ In c cs /\ cr_partnerId c = node_id partner
    /\ In b (calculateBonuses config now partner transaction tier).

(** A subscription still within the residual period at the clock reading. *)
Definition inResidualWindow (config : Config) (now : Date)
           (subscription : Subscription) : bool :=
  negb (residualPeriod config
        <? calculateMonthsInBusiness now (startDate subscription))%Z.

(** A residual distribution [d] against the distribution [base] that
    [calculateCommissions] gives for the same payment. *)
Definition residualOf (base d : CommissionDistribution) : Prop :=
  transactionId d = transactionId base
  /\ commissions d = map scaleCommission (commissions base)
  /\ bonuses_of d = bonuses_of base
  /\ processingTimestamp d = processingTimestamp base
  /\ totalCommissionPaid d
     == (1 # 2) * sumOf commissionAmount (commissions base).

(** *** Concrete inputs *)

Section Examples.

Local Open Scope string_scope.

Definition ex_now : Date := mkDate 1700000000000 2023 10.
Definition ex_later : Date := mkDate 1700000000001 2023 10.
Definition ex_previous_month : Date := mkDate 1697000000000 2023 9.
Definition ex_joined : Date := mkDate 1600000000000 2020 8.

Definition noCriteria : QualificationCriteria :=
  mkCriteria None None None None None.

Definition ex_tier : CommissionTier :=
  mkTier 1 "Bronze" noCriteria (1 # 10) percentage None None.

(** A tier open to partners with at least 38 months in business. *)
Definition ex_tier_tenure : CommissionTier :=
  mkTier 1 "Veteran" (mkCriteria None None None (Some 38) None)
         (1 # 10) percentage None None.

Definition ex_trigger : BonusTrigger :=
  mkTrigger "monthly_volume" "greater_than" (TVnumber 0).

(** A fixed bonus of 0.004 currency units. *)
Definition ex_bonus_tiny : BonusRule :=
  mkBonusRule "b1" "Tiny" noCriteria ex_trigger
              (mkReward "fixed_amount" (4 # 1000) None).

(** A fixed bonus of 10 currency units. *)
Definition ex_bonus_ten : BonusRule :=
  mkBonusRule "b2" "Ten" noCriteria ex_trigger
              (mkReward "fixed_amount" 10 None).

Definition ex_product : ProductConfig := mkProduct "p1" true None.
Definition ex_product_ineligible : ProductConfig := mkProduct "p2" false None.

Definition ex_config (ts : list CommissionTier) (bs : list BonusRule)
  : Config :=
  mkConfig [ex_product; ex_product_ineligible] 5 ts bs None true 12.

Definition ex_sponsor : PartnerHierarchyNode :=
  mkNode "s1" None 1 500 500 100 3 ex_joined "active" None None None.

Definition ex_transaction : Transaction :=
  mkTransaction "t1" "c1" "customer@example.org" 1000 "GBP" "p1" ex_now [].

Definition ex_transaction_ineligible : Transaction :=
  mkTransaction "t2" "c1" "customer@example.org" 1000 "GBP" "p2" ex_now [].

Definition ex_subscription : Subscription :=
  mkSubscription "sub1" "c1" "customer@example.org" "p1" 1000 "GBP"
                 (mkDate 1690000000000 2023 6) "active".

(** Three level-1 tiers, the last two sharing the highest rate. *)
Definition ex_tiers_tied : list CommissionTier :=
  [ mkTier 1 "Low" noCriteria (5 # 100) percentage None None;
    mkTier 1 "HighA" noCriteria (1 # 10) percentage None None;
    mkTier 1 "HighB" noCriteria (1 # 10) percentage None None ].

End Examples.

(** *** More concrete inputs *)

Section MoreExamples.

Local Open Scope string_scope.

(** Scenario E: a level-2 tier of 70%, a cap of 500 on level 2. *)
Definition ex_tier_level2 : CommissionTier :=
  mkTier 2 "Silver" noCriteria (7 # 10) percentage None None.

Definition ex_cap_level2 : CommissionCap :=
  mkCap "cap1" 500 (Some [2%Z]) None.


Definition ex_config_capped : Config :=
  mkConfig [ex_product] 5 [ex_tier; ex_tier_level2] [] (Some [ex_cap_level2])
           true 12.


Definition ex_grand_sponsor : PartnerHierarchyNode :=
  mkNode "s2" None 1 900 2000 300 7 ex_joined "active" (Some 400) None None.

(** A subscription whose monthly amount is zero. *)
Definition ex_subscription_free : Subscription :=
  mkSubscription "sub2" "c1" "customer@example.org" "p1" 0 "GBP"
                 (mkDate 1690000000000 2023 6) "active".

(** A subscription started three years before [ex_now]. *)
Definition ex_subscription_old : Subscription :=
  mkSubscription "sub3" "c1" "customer@example.org" "p1" 1000 "GBP"
                 (mkDate 1600000000000 2020 8) "active".

End MoreExamples.

(** [CommissionUtils.calculateCommissionPercentage], each quotient and
    product rounded to double precision; [None] where the quotient is not
    a finite number, the transaction being zero. *)
Definition calculateCommissionPercentage (commission transaction : Q)
  : option Q :=
  if Qeq_bool transaction 0 then None
  else Some (num_div (Math_round (num_mul (num_div commission transaction)
                                          10000)) 100).

End Commission.

(** ** Partner hierarchy manager (hierarchy-manager.ts) *)

Module Hierarchy.

Import JS.
Local Open Scope string_scope.
Local Open Scope list_scope.
Local Open Scope Z_scope.

Inductive Status := pending | active | inactive | suspended | terminated.

Definition Status_eqb (a b : Status) : bool :=
  match a, b with
  | pending, pending | active, active | inactive, inactive
  | suspended, suspended | terminated, terminated => true
  | _, _ => false
  end.

(** A metadata value: a string, or a date kept in place of its ISO
    rendering. *)
Inductive MetaValue := MString (s : string) | MIsoDate (d : Date).

Record Partner := mkPartner {
  id : string;
  userId : string;
  partnerCode : string;
  sponsorId : option string;
  sponsorPath : string;
  level : Z;
  status : Status;
  joinDate : Date;
  activationDate : option Date;
  personalVolume : Q;
  teamVolume : Q;
  monthlyVolume : Q;
  quarterlyVolume : Q;
  annualVolume : Q;
  directReferrals : Z;
  totalDownline : Z;
  activeDownline : Z;
  lastActivityDate : option Date;
  complianceScore : Q;
  riskScore : Q;
  metadata : list (string * MetaValue);
  created_at : Date;
  updated_at : Date
}.

(** [Partial<Partner>]: the fields an update carries. *)
Record PartialPartner := mkPartial {
  u_sponsorId : option (option string);
  u_sponsorPath : option string;
  u_level : option Z;
  u_status : option Status;
  u_personalVolume : option Q;
  u_teamVolume : option Q;
  u_monthlyVolume : option Q;
  u_quarterlyVolume : option Q;
  u_annualVolume : option Q;
  u_directReferrals : option Z;
  u_totalDownline : option Z;
  u_activeDownline : option Z;
  u_lastActivityDate : option Date;
  u_complianceScore : option Q;
  u_riskScore : option Q;
  u_metadata : option (list (string * MetaValue));
  u_updated_at : option Date
}.

(** Setting a key of a metadata object. *)
Fixpoint metaSet (key : string) (v : MetaValue)
         (m : list (string * MetaValue)) : list (string * MetaValue) :=
  match m with
  | [] => [(key, v)]
  | (k, w) :: rest =>
      if String.eqb k key then (k, v) :: rest
      else (k, w) :: metaSet key v rest
  end.

Definition orElse {A} (o : option A) (d : A) : A :=
  match o with Some v => v | None => d end.

(** [{ ...partner, ...updates }] *)
Definition spread (partner : Partner) (updates : PartialPartner) : Partner :=
  {| id := id partner;
     userId := userId partner;
     partnerCode := partnerCode partner;
     sponsorId := orElse (u_sponsorId updates) (sponsorId partner);
     sponsorPath := orElse (u_sponsorPath updates) (sponsorPath partner);
     level := orElse (u_level updates) (level partner);
     status := orElse (u_status updates) (status partner);
     joinDate := joinDate partner;
     activationDate := activationDate partner;
     personalVolume := orElse (u_personalVolume updates) (personalVolume partner);
     teamVolume := orElse (u_teamVolume updates) (teamVolume partner);
     monthlyVolume := orElse (u_monthlyVolume updates) (monthlyVolume partner);
     quarterlyVolume := orElse (u_quarterlyVolume updates) (quarterlyVolume partner);
     annualVolume := orElse (u_annualVolume updates) (annualVolume partner);
     directReferrals := orElse (u_directReferrals updates) (directReferrals partner);
     totalDownline := orElse (u_totalDownline updates) (totalDownline partner);
     activeDownline := orElse (u_activeDownline updates) (activeDownline partner);
     lastActivityDate :=
       match u_lastActivityDate updates with
       | Some d => Some d
       | None => lastActivityDate partner
       end;
     complianceScore := orElse (u_complianceScore updates) (complianceScore partner);
     riskScore := orElse (u_riskScore updates) (riskScore partner);
     metadata := orElse (u_metadata updates) (metadata partner);
     created_at := created_at partner;
     updated_at := orElse (u_updated_at updates) (updated_at partner) |}.

(** *** The partner store *)

(** Modelled from the spec: the partner store of section 6 ([get],
    [listAll], [listDirectChildren], [update]); in the source the four
    accessors [getPartner], [getAllPartners], [getDirectDownline] and
    [updatePartner] are left to the database layer. The store is the
    table of partner rows, in the order [listAll] returns them. *)
Definition Store := list Partner.

(** Modelled from the spec: [get(id)], the row with that id, if any. *)
Definition store_get (st : Store) (partnerId : string) : option Partner :=
  find (fun p => String.eqb (id p) partnerId) st.

(** Modelled from the spec: [listDirectChildren(id)], the rows whose sponsor
    is that id. *)
Definition store_children (st : Store) (partnerId : string) : list Partner :=
  filter (fun p => match sponsorId p with
                   | Some s => String.eqb s partnerId
                   | None => false
                   end) st.

(** Modelled from the spec: [update(id, partialFields)], the given fields
    overwritten on the row with that id, all else unchanged. *)
Definition store_update (st : Store) (partnerId : string)
           (updates : PartialPartner) : Store :=
  map (fun p => if String.eqb (id p) partnerId then spread p updates else p) st.

(** *** State, failure and fuel *)

(** Outcome of a store operation: a value, a thrown error, or exhaustion
    of the recursion budget; each with the store as it then stands. *)
Inductive Outcome (A : Type) :=
| Ok (a : A) (st : Store)
| Throw (e : Error) (st : Store)
| Timeout (st : Store).
Arguments Ok {A}.
Arguments Throw {A}.
Arguments Timeout {A}.

Definition M (A : Type) := Store -> Outcome A.

Definition ret {A} (a : A) : M A := fun st => Ok a st.

Definition bind {A B} (m : M A) (k : A -> M B) : M B :=
  fun st => match m st with
            | Ok a st' => k a st'
            | Throw e st' => Throw e st'
            | Timeout st' => Timeout st'
            end.

Definition throw {A} (e : Error) : M A := fun st => Throw e st.
Definition timeout {A} : M A := fun st => Timeout st.

Notation "x <- m ;; k" := (bind m (fun x => k))
  (at level 61, m at next level, right associativity).
Notation "m ;;; k" := (bind m (fun _ => k))
  (at level 61, right associativity).

Definition getPartner (partnerId : string) : M (option Partner) :=
  fun st => Ok (store_get st partnerId) st.

Definition getAllPartners : M (list Partner) := fun st => Ok st st.

Definition getDirectDownline (partnerId : string) : M (list Partner) :=
  fun st => Ok (store_children st partnerId) st.

Definition updatePartner (partnerId : string) (updates : PartialPartner)
  : M unit :=
  fun st => Ok tt (store_update st partnerId updates).

(** [for (const x of xs) { body }] *)
Fixpoint forEach {A} (xs : list A) (body : A -> M unit) : M unit :=
  match xs with
  | [] => ret tt
  | x :: rest => body x ;;; forEach rest body
  end.

(** *** Reading the hierarchy *)

(** [path.split('/').filter(id => id.length > 0)] *)
Definition decodePath (path : string) : list string :=
  filter (fun s => negb (String.eqb s "")) (split_slash path).

Definition getUplineHierarchy (partnerId : string) : M (list Partner) :=
  partner <- getPartner partnerId ;;
  match partner with
  | None => ret []
  | Some partner =>
      if String.eqb (sponsorPath partner) "" then ret []
      else
        let sponsorIds := decodePath (sponsorPath partner) in
        fun st =>
          let upline :=
            fold_left (fun upline sponsorId =>
                         match store_get st sponsorId with
                         | Some sponsor => upline ++ [sponsor]
                         | None => upline
                         end) sponsorIds [] in
          Ok (rev upline) st
  end.

(** Stable insertion sort by a comparator, as [Array.prototype.sort]. *)
Fixpoint insertBy {A} (cmp : A -> A -> Z) (x : A) (l : list A) : list A :=
  match l with
  | [] => [x]
  | y :: r => if cmp x y <=? 0 then x :: l else y :: insertBy cmp x r
  end.

Definition sortBy {A} (cmp : A -> A -> Z) (l : list A) : list A :=
  fold_right (insertBy cmp) [] l.

Definition byLevelThenJoinDate (a b : Partner) : Z :=
  if negb (level a =? level b) then level a - level b
  else getTime (joinDate a) - getTime (joinDate b).

Definition getDownlineHierarchy (partnerId : string) (maxLevels : Z)
           (activeOnly : bool) : M (list Partner) :=
  partner <- getPartner partnerId ;;
  match partner with
  | None => ret []
  | Some partner =>
      allPartners <- getAllPartners ;;
      let downline :=
        filter (fun p =>
                  (includes (sponsorPath p) partnerId
                   && negb (String.eqb (id p) partnerId))
                  && ((level p - level partner <=? maxLevels)
                      && (negb activeOnly || Status_eqb (status p) active)))
               allPartners in
      ret (sortBy byLevelThenJoinDate downline)
  end.

(** Default arguments of [getDownlineHierarchy]. *)
Definition default_maxLevels : Z := 5.
Definition default_activeOnly : bool := true.

(** *** Mutating the hierarchy *)

Definition buildSponsorPath (sponsorId : string) : M string :=
  sponsor <- getPartner sponsorId ;;
  match sponsor with
  | None => ret ""
  | Some sponsor =>
      if String.eqb (sponsorPath sponsor) "" then ret sponsorId
      else ret (sponsorPath sponsor ++ "/" ++ sponsorId)%string
  end.

Definition setTeamVolume (v : Q) : PartialPartner :=
  {| u_sponsorId := None; u_sponsorPath := None; u_level := None;
     u_status := None; u_personalVolume := None;
     u_teamVolume := Some v;
     u_monthlyVolume := None; u_quarterlyVolume := None;
     u_annualVolume := None; u_directReferrals := None;
     u_totalDownline := None; u_activeDownline := None;
     u_lastActivityDate := None; u_complianceScore := None;
     u_riskScore := None; u_metadata := None;
     u_updated_at := None |}.

Definition setUpdatedAt (d : Date) : PartialPartner :=
  {| u_sponsorId := None; u_sponsorPath := None; u_level := None;
     u_status := None; u_personalVolume := None; u_teamVolume := None;
     u_monthlyVolume := None; u_quarterlyVolume := None;
     u_annualVolume := None; u_directReferrals := None;
     u_totalDownline := None; u_activeDownline := None;
     u_lastActivityDate := None; u_complianceScore := None;
     u_riskScore := None; u_metadata := None; u_updated_at := Some d |}.

Fixpoint propagateVolumeUpdate (fuel : nat) (sponsorId_ : option string)
         (volumeDelta : Q) : M unit :=
  match fuel with
  | O => timeout
  | S fuel' =>
      match truthy_str sponsorId_ with
      | None => ret tt
      | Some sid =>
          sponsor <- getPartner sid ;;
          match sponsor with
          | None => ret tt
          | Some sponsor =>
              updatePartner sid
                (setTeamVolume (teamVolume sponsor + volumeDelta)%Q) ;;;
              propagateVolumeUpdate fuel' (sponsorId sponsor) volumeDelta
          end
      end
  end.

Definition setTotalDownline (n : Z) : PartialPartner :=
  {| u_sponsorId := None; u_sponsorPath := None; u_level := None;
     u_status := None; u_personalVolume := None; u_teamVolume := None;
     u_monthlyVolume := None; u_quarterlyVolume := None;
     u_annualVolume := None; u_directReferrals := None;
     u_totalDownline := Some n; u_activeDownline := None;
     u_lastActivityDate := None; u_complianceScore := None;
     u_riskScore := None; u_metadata := None; u_updated_at := None |}.

Fixpoint updateUplineTotalDownline (fuel : nat) (sponsorId_ : string)
         (delta : Z) : M unit :=
  match fuel with
  | O => timeout
  | S fuel' =>
      sponsor <- getPartner sponsorId_ ;;
      match sponsor with
      | None => ret tt
      | Some sponsor =>
          updatePartner sponsorId_
            (setTotalDownline (Z.max 0 (totalDownline sponsor + delta))) ;;;
          match truthy_str (sponsorId sponsor) with
          | Some up => updateUplineTotalDownline fuel' up delta
          | None => ret tt
          end
      end
  end.

Definition updateSponsorDownlineCounts (fuel : nat) (sponsorId_ : string)
           (delta : Z) : M unit :=
  sponsor <- getPartner sponsorId_ ;;
  match sponsor with
  | None => ret tt
  | Some sponsor =>
      updatePartner sponsorId_
        {| u_sponsorId := None; u_sponsorPath := None; u_level := None;
           u_status := None; u_personalVolume := None; u_teamVolume := None;
           u_monthlyVolume := None; u_quarterlyVolume := None;
           u_annualVolume := None;
           u_directReferrals := Some (Z.max 0 (directReferrals sponsor + delta));
           u_totalDownline := Some (Z.max 0 (totalDownline sponsor + delta));
           u_activeDownline := None; u_lastActivityDate := None;
           u_complianceScore := None; u_riskScore := None;
           u_metadata := None; u_updated_at := None |} ;;;
      match truthy_str (sponsorId sponsor) with
      | Some up => updateUplineTotalDownline fuel up delta
      | None => ret tt
      end
  end.

Definition setLevelAndPath (l : Z) (path : string) : PartialPartner :=
  {| u_sponsorId := None; u_sponsorPath := Some path; u_level := Some l;
     u_status := None; u_personalVolume := None; u_teamVolume := None;
     u_monthlyVolume := None; u_quarterlyVolume := None;
     u_annualVolume := None; u_directReferrals := None;
     u_totalDownline := None; u_activeDownline := None;
     u_lastActivityDate := None; u_complianceScore := None;
     u_riskScore := None; u_metadata := None; u_updated_at := None |}.

Fixpoint updateDownlineLevelsAndPaths (fuel : nat) (partnerId : string)
         (newLevel : Z) (newPath : string) : M unit :=
  match fuel with
  | O => timeout
  | S fuel' =>
      directDownline <- getDirectDownline partnerId ;;
      forEach directDownline (fun child =>
        let childNewLevel := newLevel + 1 in
        let childNewPath := (newPath ++ "/" ++ id child)%string in
        updatePartner (id child) (setLevelAndPath childNewLevel childNewPath) ;;;
        updateDownlineLevelsAndPaths fuel' (id child) childNewLevel childNewPath)
  end.

Definition setSponsor (s : option string) (path : string) (l : Z)
  : PartialPartner :=
  {| u_sponsorId := Some s; u_sponsorPath := Some path; u_level := Some l;
     u_status := None; u_personalVolume := None; u_teamVolume := None;
     u_monthlyVolume := None; u_quarterlyVolume := None;
     u_annualVolume := None; u_directReferrals := None;
     u_totalDownline := None; u_activeDownline := None;
     u_lastActivityDate := None; u_complianceScore := None;
     u_riskScore := None; u_metadata := None; u_updated_at := None |}.

Section Mutations.

(** [config.partner.maxHierarchyLevels] *)
Variable maxHierarchyLevels : Z.

Definition movePartner (fuel : nat) (partnerId newSponsorId : string)
  : M unit :=
  partner <- getPartner partnerId ;;
  newSponsor <- getPartner newSponsorId ;;
  match partner, newSponsor with
  | None, _ => throw PartnerNotFound
  | Some _, None => throw NewSponsorNotFound
  | Some partner, Some newSponsor =>
      downline <- getDownlineHierarchy partnerId default_maxLevels
                                       default_activeOnly ;;
      if existsb (fun p => String.eqb (id p) newSponsorId) downline
      then throw SelfCycle
      else
        let oldSponsorId := sponsorId partner in
        let newLevel := level newSponsor + 1 in
        if maxHierarchyLevels <? newLevel then throw DepthExceeded
        else
          newSponsorPath <- buildSponsorPath newSponsorId ;;
          updatePartner partnerId
            (setSponsor (Some newSponsorId) newSponsorPath newLevel) ;;;
          match truthy_str oldSponsorId with
          | Some old => updateSponsorDownlineCounts fuel old (-1)
          | None => ret tt
          end ;;;
          updateSponsorDownlineCounts fuel newSponsorId 1 ;;;
          updateDownlineLevelsAndPaths fuel partnerId newLevel
            (newSponsorPath ++ "/" ++ partnerId)%string
  end.

Definition deactivatePartner (fuel : nat) (now : Date) (partnerId : string)
           (reason : string) (redistributeDownline : bool) : M unit :=
  partner <- getPartner partnerId ;;
  match partner with
  | None => throw PartnerNotFound
  | Some partner =>
      updatePartner partnerId
        {| u_sponsorId := None; u_sponsorPath := None; u_level := None;
           u_status := Some inactive;
           u_personalVolume := None; u_teamVolume := None;
           u_monthlyVolume := None; u_quarterlyVolume := None;
           u_annualVolume := None; u_directReferrals := None;
           u_totalDownline := None; u_activeDownline := None;
           u_lastActivityDate := None; u_complianceScore := None;
           u_riskScore := None;
           u_metadata :=
             Some (metaSet "deactivationDate" (MIsoDate now)
                     (metaSet "deactivationReason" (MString reason)
                              (metadata partner)));
           u_updated_at := None |} ;;;
      (if redistributeDownline then
         directDownline <- getDirectDownline partnerId ;;
         forEach directDownline (fun downlinePartner =>
           match truthy_str (sponsorId partner) with
           | Some s => movePartner fuel (id downlinePartner) s
           | None =>
               updatePartner (id downlinePartner) (setSponsor None "" 1)
           end)
       else ret tt) ;;;
      match truthy_str (sponsorId partner) with
      | Some s => updateSponsorDownlineCounts fuel s (-1)
      | None => ret tt
      end
  end.

End Mutations.

(** [updatePartnerMetrics]: the merged record is returned. *)
Definition updatePartnerMetrics (fuel : nat) (now : Date) (partnerId : string)
           (metrics : PartialPartner) : M Partner :=
  partner <- getPartner partnerId ;;
  match partner with
  | None => throw PartnerNotFound
  | Some partner =>
      let updatedPartner :=
        spread (spread partner metrics) (setUpdatedAt now) in
      match u_teamVolume metrics with
      | Some newVolume =>
          if negb (Qeq_bool newVolume (teamVolume partner)) then
            let volumeDelta := (newVolume - teamVolume partner)%Q in
            propagateVolumeUpdate fuel (sponsorId partner) volumeDelta
          else ret tt
      | None => ret tt
      end ;;;
      ret updatedPartner
  end.

(** *** The hierarchy invariants *)

(** The sponsor chain of a partner, immediate sponsor first, followed for
    at most [fuel] hops. *)
Fixpoint sponsorChain (fuel : nat) (st : Store) (sponsorId_ : option string)
  : list string :=
  match fuel with
  | O => []
  | S fuel' =>
      match truthy_str sponsorId_ with
      | None => []
      | Some s =>
          s :: match store_get st s with
               | Some sponsor => sponsorChain fuel' st (sponsorId sponsor)
               | None => []
               end
      end
  end.

Definition ancestorsRootFirst (st : Store) (p : Partner) : list string :=
  rev (sponsorChain (List.length st) st (sponsorId p)).

Definition list_eqb (a b : list string) : bool :=
  if list_eq_dec string_dec a b then true else false.

(** The path's element count equals [level - 1]. *)
Definition pathLengthOk (p : Partner) : bool :=
  Z.of_nat (List.length (decodePath (sponsorPath p))) =? level p - 1.

(** [level(child) = level(parent) + 1] when there is a sponsor. *)
Definition levelOk (st : Store) (p : Partner) : bool :=
  match truthy_str (sponsorId p) with
  | None => true
  | Some s =>
      match store_get st s with
      | Some sponsor => level p =? level sponsor + 1
      | None => false
      end
  end.

(** The path is the ancestor chain, root first. *)
Definition pathIsChain (st : Store) (p : Partner) : bool :=
  list_eqb (decodePath (sponsorPath p)) (ancestorsRootFirst st p).

(** The partner's own id is not on its path. *)
Definition pathAcyclic (p : Partner) : bool :=
  negb (arr_includes (decodePath (sponsorPath p)) (id p)).

Definition partnerConsistent (st : Store) (p : Partner) : bool :=
  pathLengthOk p && levelOk st p && pathIsChain st p && pathAcyclic p.

Definition consistent (st : Store) : bool :=
  forallb (partnerConsistent st) st.

(** The path check of [validateHierarchy]: a warning is recorded when the
    decoded path length differs from [level - 1]. *)
Definition validatePathWarning (p : Partner) : bool :=
  if String.eqb (sponsorPath p) "" then false
  else negb (Z.of_nat (List.length (decodePath (sponsorPath p))) =? level p - 1).

(** *** Concrete hierarchies *)

Definition ex_date : Date := mkDate 1700000000000 2023 10.

Definition row (i : string) (s : option string) (path : string) (l : Z)
           (stt : Status) (direct total : Z) : Partner :=
  mkPartner i ("user_" ++ i) ("MLM" ++ i) s path l stt ex_date None
            0 0 0 0 0 direct total 0 None 1 0 [] ex_date ex_date.

(** R sponsors C, C sponsors G. *)
Definition ex_tree : Store :=
  [ row "R" None "" 1 active 1 2;
    row "C" (Some "R") "R" 2 active 1 1;
    row "G" (Some "C") "R/C" 3 active 0 0 ].

(** Two roots; R1 sponsors C, C sponsors G. *)
Definition ex_forest : Store :=
  [ row "R1" None "" 1 active 1 2;
    row "R2" None "" 1 active 0 0;
    row "C" (Some "R1") "R1" 2 active 1 1;
    row "G" (Some "C") "R1/C" 3 active 0 0 ].

(** R sponsors P; the stored team volume of R is 500, that of P 100. *)
Definition ex_volumes : Store :=
  [ spread (row "R" None "" 1 active 1 1) (setTeamVolume 500);
    spread (row "P" (Some "R") "R" 2 active 0 0) (setTeamVolume 100) ].

(** An active root P with a direct referral S still pending activation. *)
Definition ex_pair : Store :=
  [ row "P" None "" 1 active 1 1;
    row "S" (Some "P") "P" 2 pending 0 0 ].

(** *** Notions used by the statements *)

(** The partners a list of ids resolves to, in order. *)
Definition resolve (st : Store) (ids : list string) : list Partner :=
  flat_map (fun i => match store_get st i with
                     | Some p => [p]
                     | None => []
                     end) ids.

(** [Chain st o l]: starting from the sponsor reference [o], the sponsor
    links of [st] pass through exactly the partners [l], nearest first,
    and end at a partner without sponsor (or at a dangling reference). *)
Inductive Chain (st : Store) : option string -> list string -> Prop :=
| chain_root : forall o, truthy_str o = None -> Chain st o []
| chain_dangling : forall o s,
    truthy_str o = Some s -> store_get st s = None -> Chain st o []
| chain_step : forall o s sponsor l,
    truthy_str o = Some s -> store_get st s = Some sponsor ->
    Chain st (sponsorId sponsor) l -> Chain st o (s :: l).

(** Two stores with the same sponsor links. *)
Definition sameLinks (st st' : Store) : Prop :=
  forall q, option_map sponsorId (store_get st q)
            = option_map sponsorId (store_get st' q).

(** A row with [delta] added to its team volume and nothing else changed. *)
Definition addTeamVolume (delta : Q) (p : Partner) : Partner :=
  {| id := id p; userId := userId p; partnerCode := partnerCode p;
     sponsorId := sponsorId p; sponsorPath := sponsorPath p;
     level := level p; status := status p; joinDate := joinDate p;
     activationDate := activationDate p;
     personalVolume := personalVolume p;
     teamVolume := (teamVolume p + delta)%Q;
     monthlyVolume := monthlyVolume p;
     quarterlyVolume := quarterlyVolume p;
     annualVolume := annualVolume p;
     directReferrals := directReferrals p;
     totalDownline := totalDownline p;
     activeDownline := activeDownline p;
     lastActivityDate := lastActivityDate p;
     complianceScore := complianceScore p;
     riskScore := riskScore p;
     metadata := metadata p;
     created_at := created_at p;
     updated_at := updated_at p |}.

(** P and S sponsor each other. *)
Definition cyclePS (st : Store) : Prop :=
  exists p s,
    store_get st "P" = Some p /\ store_get st "S" = Some s
    /\ sponsorId p = Some "S" /\ sponsorId s = Some "P".

(** The store after [movePartner "P" "S"] on [ex_pair] has rewritten P and
    bumped the counters of S. *)
Definition ex_pair_moved : Store :=
  [ row "P" (Some "S") "P/S" 3 active 1 1;
    row "S" (Some "P") "P" 2 pending 1 1 ].

(** *** Notions used by the further statements *)

(** The store an outcome ends with, whatever the outcome. *)
Definition finalStore {A} (o : Outcome A) : Store :=
  match o with
  | Ok _ st => st
  | Throw _ st => st
  | Timeout st => st
  end.

(** The rows of [st'] show the same [f] as the rows of [st], row by row. *)
Definition unchanged {X} (f : Partner -> X) (st st' : Store) : Prop :=
  map f st' = map f st.

(** A computation that leaves [f] of every row as it was, in every
    outcome. *)
Definition keeps {X A} (f : Partner -> X) (m : M A) : Prop :=
  forall st, unchanged f st (finalStore (m st)).

(** An update of row [k] that does not show through [f]. *)
Definition harmless {X} (f : Partner -> X) (k : string) (u : PartialPartner)
  : Prop :=
  forall p, id p = k -> f (spread p u) = f p.

(** A computation that never throws. *)
Definition noThrow {A} (m : M A) : Prop :=
  forall st e st', m st <> Throw e st'.

(** The counters update of [updateSponsorDownlineCounts]. *)
Definition setCounts (direct total : Z) : PartialPartner :=
  {| u_sponsorId := None; u_sponsorPath := None; u_level := None;
     u_status := None; u_personalVolume := None; u_teamVolume := None;
     u_monthlyVolume := None; u_quarterlyVolume := None;
     u_annualVolume := None;
     u_directReferrals := Some direct;
     u_totalDownline := Some total;
     u_activeDownline := None; u_lastActivityDate := None;
     u_complianceScore := None; u_riskScore := None;
     u_metadata := None; u_updated_at := None |}.

(** The status update of [deactivatePartner]. *)
Definition setInactive (m : list (string * MetaValue)) : PartialPartner :=
  {| u_sponsorId := None; u_sponsorPath := None; u_level := None;
     u_status := Some inactive;
     u_personalVolume := None; u_teamVolume := None;
     u_monthlyVolume := None; u_quarterlyVolume := None;
     u_annualVolume := None; u_directReferrals := None;
     u_totalDownline := None; u_activeDownline := None;
     u_lastActivityDate := None; u_complianceScore := None;
     u_riskScore := None; u_metadata := Some m; u_updated_at := None |}.

(** Where a row sits in the hierarchy: its sponsor, path and level. *)
Definition placement (p : Partner) : option string * string * Z :=
  (sponsorId p, sponsorPath p, level p).

(** The volumes and the status of a row. *)
Definition volumesAndStatus (p : Partner) : Status * (Q * Q * Q * Q * Q) :=
  (status p, (personalVolume p, teamVolume p, monthlyVolume p,
              quarterlyVolume p, annualVolume p)).

(** The sponsor link of a row, hidden for the rows of partner [k]. *)
Definition sponsorUnless (k : string) (p : Partner) : option (option string) :=
  if String.eqb (id p) k then None else Some (sponsorId p).

(** A string without the path delimiter. *)
Fixpoint noSlash (s : string) : bool :=
  match s with
  | EmptyString => true
  | String c s' => negb (Ascii.eqb c "/"%char) && noSlash s'
  end.

(** The order [getDownlineHierarchy] sorts by: level first, join date
    second. *)
Definition levelThenJoinDate (a b : Partner) : Prop :=
  level a < level b
  \/ (level a = level b /\ getTime (joinDate a) <= getTime (joinDate b)).

(** A row after [delta] has been added to its total-downline counter,
    clamped at zero. *)
Definition bumpTotalDownline (delta : Z) (p : Partner) : Partner :=
  spread p (setTotalDownline (Z.max 0 (totalDownline p + delta))).

(** A row after [delta] has been added to both its direct-referral and its
    total-downline counters, each clamped at zero. *)
Definition bumpCounts (delta : Z) (p : Partner) : Partner :=
  spread p (setCounts (Z.max 0 (directReferrals p + delta))
                      (Z.max 0 (totalDownline p + delta))).

(** *** Validating the hierarchy *)

(** The [while] loop of [hasCircularReference], with its visited set. *)
Fixpoint circularWalk (fuel : nat) (partner : Partner) (visited : list string)
         (current : Partner) : M bool :=
  match fuel with
  | O => timeout
  | S fuel' =>
      match truthy_str (sponsorId current) with
      | None => ret false
      | Some s =>
          if arr_includes visited (id current) then ret false
          else
            sponsor <- getPartner s ;;
            match sponsor with
            | None => ret false
            | Some sponsor =>
                if String.eqb (id sponsor) (id partner) then ret true
                else circularWalk fuel' partner (id current :: visited) sponsor
            end
      end
  end.

Definition hasCircularReference (fuel : nat) (partner : Partner) : M bool :=
  circularWalk fuel partner [] partner.

(** The messages of [validateHierarchy], each kept as the values its
    template interpolates. *)
Inductive ValidationError :=
| InvalidSponsorId (partnerCode_ sponsorId_ : string)
| LevelNotAboveSponsor (partnerCode_ : string) (level_ sponsorLevel : Z)
| ExceedsMaximumLevel (partnerCode_ : string) (maxLevels : Z)
| CircularReference (partnerCode_ : string).

Inductive ValidationWarning :=
| PathLengthMismatch (partnerCode_ : string) (pathLevels level_ : Z).

Record HierarchyValidationResult := mkValidation {
  isValid : bool;
  errors : list ValidationError;
  warnings : list ValidationWarning
}.

Section Validation.

Variable maxHierarchyLevels : Z.

(** The sponsor check of one partner. *)
Definition sponsorErrors (partner : Partner) : M (list ValidationError) :=
  match truthy_str (sponsorId partner) with
  | Some s =>
      sponsor <- getPartner s ;;
      match sponsor with
      | None => ret [InvalidSponsorId (partnerCode partner) s]
      | Some sponsor =>
          if level partner <=? level sponsor
          then ret [LevelNotAboveSponsor (partnerCode partner) (level partner)
                                         (level sponsor)]
          else ret []
      end
  | None => ret []
  end.

(** The path check of one partner. *)
Definition pathWarnings (partner : Partner) : list ValidationWarning :=
  if String.eqb (sponsorPath partner) "" then []
  else
    let pathLevels := Z.of_nat (List.length (decodePath (sponsorPath partner))) in
    if negb (pathLevels =? level partner - 1)
    then [PathLengthMismatch (partnerCode partner) pathLevels (level partner)]
    else [].

(** The depth check of one partner. *)
Definition depthErrors (partner : Partner) : list ValidationError :=
  if maxHierarchyLevels <? level partner
  then [ExceedsMaximumLevel (partnerCode partner) maxHierarchyLevels]
  else [].

(** The body of the loop of [validateHierarchy] over all partners. *)
Fixpoint validateLoop (fuel : nat) (partners : list Partner)
         (errs : list ValidationError) (warns : list ValidationWarning)
  : M (list ValidationError * list ValidationWarning) :=
  match partners with
  | [] => ret (errs, warns)
  | partner :: rest =>
      es <- sponsorErrors partner ;;
      circular <- hasCircularReference fuel partner ;;
      validateLoop fuel rest
        (errs ++ es ++ depthErrors partner
              ++ (if circular then [CircularReference (partnerCode partner)]
                  else []))
        (warns ++ pathWarnings partner)
  end.

Definition validateHierarchy (fuel : nat) : M HierarchyValidationResult :=
  allPartners <- getAllPartners ;;
  r <- validateLoop fuel allPartners [] [] ;;
  ret {| isValid := match fst r with [] => true | _ => false end;
         errors := fst r;
         warnings := snd r |}.

End Validation.

(** [Reaches st a b]: following sponsor links from [a] one or more times
    leads to the stored partner [b]. *)
Inductive Reaches (st : Store) : Partner -> Partner -> Prop :=
| reaches_sponsor : forall a s b,
    truthy_str (sponsorId a) = Some s -> store_get st s = Some b ->
    Reaches st a b
| reaches_further : forall a s b c,
    truthy_str (sponsorId a) = Some s -> store_get st s = Some b ->
    Reaches st b c -> Reaches st a c.

(** What [validateHierarchy] finds nothing to say about: the sponsor, if
    any, exists one or more levels above; the level is within the maximum;
    a non-empty path has [level - 1] elements. *)
Definition wellPlaced (maxLevels : Z) (st : Store) (p : Partner) : Prop :=
  level p <= maxLevels
  /\ match truthy_str (sponsorId p) with
     | Some s => exists sponsor,
                   store_get st s = Some sponsor /\ level sponsor < level p
     | None => True
     end.

(** Following sponsor links from [p] comes back to a partner with [p]'s
    id. *)
Definition returnsToSelf (st : Store) (p : Partner) : Prop :=
  exists q, Reaches st p q /\ id q = id p.

(** The path is empty or has [level - 1] elements. *)
Definition pathCountOk (p : Partner) : Prop :=
  sponsorPath p = "" \/ pathLengthOk p = true.

(** *** Adding a partner *)

(** The failures of [addPartner]. *)
Inductive AddPartnerFailure :=
| InvalidSponsorIdFailure      (* 'Invalid sponsor ID' *)
| SponsorNotActive             (* 'Sponsor must be active to sponsor new partners' *)
| MaximumLevelExceeded.        (* 'Maximum hierarchy level (...) exceeded' *)

(** The [partnerData] argument of [addPartner]: a [Partial<Partner>], the
    fields [PartialPartner] lacks added. *)
Record PartnerData := mkPartnerData {
  d_id : option string;
  d_userId : option string;
  d_partnerCode : option string;
  d_joinDate : option Date;
  d_activationDate : option (option Date);
  d_created_at : option Date;
  d_fields : PartialPartner
}.

(** [{ ...partner, ...partnerData }] *)
Definition spreadData (partner : Partner) (data : PartnerData) : Partner :=
  let p := spread partner (d_fields data) in
  {| id := orElse (d_id data) (id p);
     userId := orElse (d_userId data) (userId p);
     partnerCode := orElse (d_partnerCode data) (partnerCode p);
     sponsorId := sponsorId p;
     sponsorPath := sponsorPath p;
     level := level p;
     status := status p;
     joinDate := orElse (d_joinDate data) (joinDate p);
     activationDate := orElse (d_activationDate data) (activationDate p);
     personalVolume := personalVolume p;
     teamVolume := teamVolume p;
     monthlyVolume := monthlyVolume p;
     quarterlyVolume := quarterlyVolume p;
     annualVolume := annualVolume p;
     directReferrals := directReferrals p;
     totalDownline := totalDownline p;
     activeDownline := activeDownline p;
     lastActivityDate := lastActivityDate p;
     complianceScore := complianceScore p;
     riskScore := riskScore p;
     metadata := metadata p;
     created_at := orElse (d_created_at data) (created_at p);
     updated_at := updated_at p |}.

Definition getPartnerLevel (partnerId : string) : M Z :=
  partner <- getPartner partnerId ;;
  ret (match partner with Some p => level p | None => 0 end).

Section AddPartner.

(** [config.partner.maxHierarchyLevels], [config.partner.autoActivation] *)
Variable maxHierarchyLevels : Z.
Variable autoActivation : bool.
(** The clock reading and the values drawn by [generateId] and
    [generatePartnerCode]. *)
Variable now : Date.
Variable generateId : string.
Variable generatePartnerCode : string.

(** The record built before [...partnerData] is spread over it; an absent
    [userId] is kept as the empty string. *)
Definition freshPartner (data : PartnerData) (sponsorId_ : option string)
           (path : string) (l : Z) : Partner :=
  {| id := generateId;
     userId := orElse (d_userId data) "";
     partnerCode := generatePartnerCode;
     sponsorId := sponsorId_;
     sponsorPath := path;
     level := l;
     status := if autoActivation then active else pending;
     joinDate := now;
     activationDate := if autoActivation then Some now else None;
     personalVolume := 0;
     teamVolume := 0;
     monthlyVolume := 0;
     quarterlyVolume := 0;
     annualVolume := 0;
     directReferrals := 0;
     totalDownline := 0;
     activeDownline := 0;
     lastActivityDate := None;
     complianceScore := 1;
     riskScore := 0;
     metadata := orElse (u_metadata (d_fields data)) [];
     created_at := now;
     updated_at := now |}.

Definition addPartner (fuel : nat) (partnerData : PartnerData)
           (sponsorId_ : option string) : M (AddPartnerFailure + Partner) :=
  checked <-
    match truthy_str sponsorId_ with
    | Some s =>
        sponsor <- getPartner s ;;
        match sponsor with
        | None => ret (Some InvalidSponsorIdFailure)
        | Some sponsor =>
            if negb (Status_eqb (status sponsor) active)
            then ret (Some SponsorNotActive)
            else ret None
        end
    | None => ret None
    end ;;
  match checked with
  | Some failure => ret (inl failure)
  | None =>
      l <- match truthy_str sponsorId_ with
           | Some s => sl <- getPartnerLevel s ;; ret (sl + 1)
           | None => ret 1
           end ;;
      path <- match truthy_str sponsorId_ with
              | Some s => buildSponsorPath s
              | None => ret ""
              end ;;
      if maxHierarchyLevels <? l then ret (inl MaximumLevelExceeded)
      else
        let newPartner :=
          spreadData (freshPartner partnerData sponsorId_ path l) partnerData in
        match truthy_str sponsorId_ with
        | Some s => updateSponsorDownlineCounts fuel s 1
        | None => ret tt
        end ;;;
        ret (inr newPartner)
  end.

End AddPartner.

(** *** The hierarchy as a tree *)

Local Unset Elimination Schemes.

(** [PartnerHierarchyNode] with its [children]. *)
Inductive PartnerHierarchyNode := mkNode {
  node_id : string;
  node_sponsorId : option string;
  node_level : Z;
  node_personalVolume : Q;
  node_teamVolume : Q;
  node_monthlyVolume : Q;
  node_activeDownline : Z;
  node_joinDate : Date;
  node_status : Status;
  children : list PartnerHierarchyNode
}.

Local Set Elimination Schemes.

(** The node [buildHierarchyRecursive] makes of a partner, with the
    children its loop has collected. *)
Definition nodeOf (partner : Partner) (kids : list PartnerHierarchyNode)
  : PartnerHierarchyNode :=
  {| node_id := id partner;
     node_sponsorId := sponsorId partner;
     node_level := level partner;
     node_personalVolume := personalVolume partner;
     node_teamVolume := teamVolume partner;
     node_monthlyVolume := monthlyVolume partner;
     node_activeDownline := activeDownline partner;
     node_joinDate := joinDate partner;
     node_status := status partner;
     children := kids |}.

(** The loop of [buildHierarchyRecursive] over the direct downline:
    [recur] is the recursive call on one child, which pushes onto the
    children collected so far. *)
Definition childrenLoop
           (recur : Partner -> list PartnerHierarchyNode -> list string
                    -> M (list PartnerHierarchyNode * list string))
  : list Partner -> list PartnerHierarchyNode -> list string
    -> M (list PartnerHierarchyNode * list string) :=
  fix loop (downline : list Partner) (kids : list PartnerHierarchyNode)
      (visited : list string) :=
    match downline with
    | [] => ret (kids, visited)
    | child :: rest =>
        r <- recur child kids visited ;;
        loop rest (fst r) (snd r)
    end.

(** [buildHierarchyRecursive]. The array [hierarchy] it pushes onto and
    the set [visited] it adds to are passed in and handed back; [visited]
    is kept in insertion order. The node is pushed before its children
    are collected into [node.children], the array holding a reference to
    it: the array ends as if the finished node had been pushed. [fuel]
    bounds the depth of the recursion. *)
Fixpoint buildHierarchyRecursive (fuel : nat) (partner : Partner)
         (hierarchy : list PartnerHierarchyNode) (visited : list string)
         (currentDepth maxDepth : Z) (includeInactive : bool)
  : M (list PartnerHierarchyNode * list string) :=
  match fuel with
  | O => timeout
  | S fuel' =>
      if (currentDepth >=? maxDepth) || arr_includes visited (id partner)
      then ret (hierarchy, visited)
      else if negb includeInactive && negb (Status_eqb (status partner) active)
      then ret (hierarchy, visited)
      else
        let visited := visited ++ [id partner] in
        directDownline <- getDirectDownline (id partner) ;;
        r <- childrenLoop
               (fun child kids visited =>
                  buildHierarchyRecursive fuel' child kids visited
                    (currentDepth + 1) maxDepth includeInactive)
               directDownline [] visited ;;
        ret (hierarchy ++ [nodeOf partner (fst r)], snd r)
  end.

Definition default_maxDepth : Z := 10.
Definition default_includeInactive : bool := false.

(** [getPartnerHierarchy], for a whole number [maxDepth]. *)
Definition getPartnerHierarchy (partnerId : string) (maxDepth : Z)
           (includeInactive : bool) : M (list PartnerHierarchyNode) :=
  partner <- getPartner partnerId ;;
  match partner with
  | None => throw PartnerNotFound
  | Some partner =>
      r <- buildHierarchyRecursive (S (Z.to_nat maxDepth)) partner [] []
             0 maxDepth includeInactive ;;
      ret (fst r)
  end.

(** A node and the nodes below it, parents before children. *)
Fixpoint nodesOf (n : PartnerHierarchyNode) : list PartnerHierarchyNode :=
  match n with
  | mkNode _ _ _ _ _ _ _ _ _ kids => n :: flat_map nodesOf kids
  end.

(** The number of levels of a tree: 1 for a node without children. *)
Fixpoint levelsOf (n : PartnerHierarchyNode) : nat :=
  match n with
  | mkNode _ _ _ _ _ _ _ _ _ kids => S (list_max (map levelsOf kids))
  end.

(** A node copies a row of the store and its children are sponsored by
    it. *)
Definition nodeFrom (st : Store) (n : PartnerHierarchyNode) : Prop :=
  (exists p, In p st /\ n = nodeOf p (children n))
  /\ Forall (fun c => node_sponsorId c = Some (node_id n)) (children n).

(** The ids of the nodes of a forest, parents before children. *)
Definition idsOf (nodes : list PartnerHierarchyNode) : list string :=
  map node_id (flat_map nodesOf nodes).

(** What holds of the nodes pushed by a run that started with the set
    [visited]: at most [bound] levels each, copies of store rows, active
    unless inactive partners are included, ids new and distinct. *)
Definition grown (st : Store) (includeInactive : bool) (bound : nat)
           (visited : list string) (added : list PartnerHierarchyNode)
  : Prop :=
  Forall (fun n => (levelsOf n <= bound)%nat) added
  /\ Forall (nodeFrom st) (flat_map nodesOf added)
  /\ (includeInactive = false
      -> Forall (fun n => node_status n = active) (flat_map nodesOf added))
  /\ (NoDup visited -> NoDup (visited ++ idsOf added)).

(** *** Statistics *)

Record VolumeDistribution := mkVolumeDistribution {
  vd_level : Z;
  partnerCount : Z;
  totalVolume : Q;
  averageVolume : Q
}.

(** [levels] is [None] where [Math.max] of no argument gives
    [-Infinity]. *)
Record HierarchyStats := mkHierarchyStats {
  totalPartners : Z;
  activePartners : Z;
  levels : option Z;
  averageDownlineSize : Q;
  topPerformers : list Partner;
  volumeDistribution : list VolumeDistribution
}.

(** [Math.max(...allPartners.map(p => p.level))] *)
Definition maxLevel (allPartners : list Partner) : option Z :=
  match allPartners with
  | [] => None
  | p :: rest => Some (fold_left Z.max (map level rest) (level p))
  end.

(** The levels the loop [for (let level = 1; level <= levels; level++)]
    runs through. *)
Definition levelsFromOne (levels_ : option Z) : list Z :=
  match levels_ with
  | Some l => map Z.of_nat (seq 1 (Z.to_nat l))
  | None => []
  end.

(** The body of that loop: the entry pushed for one level. *)
Definition levelEntry (allPartners : list Partner) (level_ : Z)
  : VolumeDistribution :=
  let levelPartners := filter (fun p => level p =? level_) allPartners in
  let totalVolume_ :=
    fold_left (fun sum p => (sum + personalVolume p)%Q) levelPartners 0%Q in
  {| vd_level := level_;
     partnerCount := Z.of_nat (List.length levelPartners);
     totalVolume := totalVolume_;
     averageVolume :=
       if 0 <? Z.of_nat (List.length levelPartners)
       then (totalVolume_ / inject_Z (Z.of_nat (List.length levelPartners)))%Q
       else 0%Q |}.

(** The comparator [(a, b) => b.personalVolume - a.personalVolume], as
    the sign of the difference, which is all the sort looks at. *)
Definition byPersonalVolumeDescending (a b : Partner) : Z :=
  Z.sgn (Qnum (personalVolume b - personalVolume a)%Q).

(** The part of [calculateHierarchyStats] after the partners are read. *)
Definition statsOf (allPartners : list Partner) : HierarchyStats :=
  let activePartners_ :=
    filter (fun p => Status_eqb (status p) active) allPartners in
  let levels_ := maxLevel allPartners in
  let volumeDistribution_ :=
    map (levelEntry allPartners) (levelsFromOne levels_) in
  let topPerformers_ :=
    firstn 10 (sortBy byPersonalVolumeDescending activePartners_) in
  {| totalPartners := Z.of_nat (List.length allPartners);
     activePartners := Z.of_nat (List.length activePartners_);
     levels := levels_;
     averageDownlineSize :=
       if 0 <? Z.of_nat (List.length allPartners)
       then (inject_Z (fold_left (fun sum p => (sum + totalDownline p)%Z)
                                 allPartners 0%Z)
             / inject_Z (Z.of_nat (List.length allPartners)))%Q
       else 0%Q;
     topPerformers := topPerformers_;
     volumeDistribution := volumeDistribution_ |}.

Definition calculateHierarchyStats (rootPartnerId : option string)
  : M HierarchyStats :=
  allPartners <-
    match truthy_str rootPartnerId with
    | Some root => getDownlineHierarchy root 99 false
    | None => getAllPartners
    end ;;
  ret (statsOf allPartners).

(** The partners counted in the distribution by level. *)
Definition countedByLevel (stats : HierarchyStats) : Z :=
  fold_right Z.add 0 (map partnerCount (volumeDistribution stats)).

(** Larger personal volume first. *)
Definition volumeDescending (a b : Partner) : Prop :=
  (personalVolume b <= personalVolume a)%Q.

End Hierarchy.

(** ** Fraud detection engine (fraud-detection.ts): referral velocity *)

Module Fraud.

Import JS.
Local Open Scope string_scope.
Local Open Scope list_scope.
Local Open Scope Q_scope.

Inductive Severity := low | medium | high | critical.

Inductive AlertStatus := open | investigating | resolved | false_positive.

(** The fields of a partner record the velocity detector reads. *)
Record PartnerData := mkPartnerData {
  id : string;
  joinDate : Z;          (* [new Date(partner.joinDate).getTime()] *)
  totalReferrals : Q
}.

Record Referral := mkReferral {
  createdAt : Z;         (* [new Date(r.createdAt).getTime()] *)
  ipAddress : option string   (* [r.metadata?.ipAddress] *)
}.

(** The [value] payload of an evidence item. *)
Inductive EvidenceValue :=
| VelocityValue (current : Q) (normal : Q)
| IpValue (uniqueIPs : Q) (totalReferrals : Q).

(** An evidence item; its description is the template instantiated with
    the numbers of [ev_value]. *)
Record FraudEvidence := mkEvidence {
  ev_type : string;
  ev_value : EvidenceValue;
  ev_weight : Q;
  ev_timestamp : Date
}.

Record FraudAlert := mkAlert {
  alert_id : string;
  partnerId : string;
  alertType : string;
  severity : Severity;
  riskScore : Q;
  dailyVelocityReported : Q;   (* the number quoted in [description] *)
  evidence : list FraudEvidence;
  status : AlertStatus;
  alert_createdAt : Date;
  actions : list string;
  velocityRatio : Q;           (* [metadata.velocityRatio] *)
  timeWindow : string          (* [metadata.timeWindow] *)
}.

Definition msPerDay : Z := 24 * 60 * 60 * 1000.
Definition msPerWeek : Z := 7 * 24 * 60 * 60 * 1000.

Section Detector.

(** The clock reading, and the identifier drawn for a new alert. *)
Variable now : Date.
Variable generateAlertId : string.

(** [partner.totalReferrals / weeksActive / 7], the partner's average
    number of referrals per day since joining (at least a week), each
    quotient rounded to double precision. *)
Definition historicalDailyAverage (partner : PartnerData) : Q :=
  let weeksActive :=
    Math_max 1 (num_div (inject_Z (getTime now - joinDate partner))
                        (inject_Z msPerWeek)) in
  num_div (num_div (totalReferrals partner) weeksActive) 7.

Definition calculateNormalReferralVelocity (partner : PartnerData) : Q :=
  Math_max 1 (historicalDailyAverage partner).

Definition recentReferrals (referrals : list Referral) : list Referral :=
  filter (fun r => (getTime now - createdAt r <? msPerDay)%Z) referrals.

Definition dailyVelocity (referrals : list Referral) : Q :=
  inject_Z (Z.of_nat (List.length (recentReferrals referrals))).

(** Size of [new Set(recent.map(r => r.metadata?.ipAddress).filter(Boolean))] *)
Definition uniqueIpCount (recent : list Referral) : Q :=
  inject_Z (Z.of_nat (List.length
    (nodup string_dec
       (flat_map (fun r => match truthy_str (ipAddress r) with
                           | Some ip => [ip]
                           | None => []
                           end) recent)))).

Definition detectReferralVelocityAnomalies (partner : PartnerData)
           (referrals : list Referral) : list FraudAlert :=
  let recent := recentReferrals referrals in
  let dailyVelocity := dailyVelocity referrals in
  let normalVelocity := calculateNormalReferralVelocity partner in
  if Qlt_bool (num_mul normalVelocity 5) dailyVelocity then
    let evidence0 :=
      [ {| ev_type := "velocity_metric";
           ev_value := VelocityValue dailyVelocity normalVelocity;
           ev_weight := binary64 (8 # 10);
           ev_timestamp := now |} ] in
    let ipAddresses := uniqueIpCount recent in
    let evidence1 :=
      if Qlt_bool ipAddresses (num_mul dailyVelocity (binary64 (3 # 10))) then
        evidence0 ++
        [ {| ev_type := "ip_concentration";
             ev_value := IpValue ipAddresses dailyVelocity;
             ev_weight := binary64 (9 # 10);
             ev_timestamp := now |} ]
      else evidence0 in
    [ {| alert_id := generateAlertId;
         partnerId := id partner;
         alertType := "referral_velocity";
         severity := if Qlt_bool (num_mul normalVelocity 10) dailyVelocity
                     then critical else high;
         riskScore :=
           Math_min (num_div (num_div dailyVelocity normalVelocity) 10) 1;
         dailyVelocityReported := dailyVelocity;
         evidence := evidence1;
         status := open;
         alert_createdAt := now;
         actions := [];
         velocityRatio := num_div dailyVelocity normalVelocity;
         timeWindow := "24h" |} ]
  else [].

End Detector.

(** *** Concrete inputs *)

Definition ex_reading : Date := mkDate 1700000000000 2023 10.

(** [n] referrals spread over the last [n] minutes, each from its own
    address. *)
Definition referralsInLastMinutes (n : nat) : list Referral :=
  map (fun k => mkReferral (getTime ex_reading - Z.of_nat k * 60000)
                           (Some (string_of_Z (Z.of_nat k))))
      (seq 1 n).

(** Joined ten weeks ago, 50 referrals since: 5 a week, 5/7 a day. *)
Definition ex_partner_five_a_week : PartnerData :=
  mkPartnerData "p1" (getTime ex_reading - 10 * msPerWeek) 50.

(** Joined one week ago, 7 referrals since: 1 a day. *)
Definition ex_partner_one_a_day : PartnerData :=
  mkPartnerData "p2" (getTime ex_reading - msPerWeek) 7.

(** Joined five weeks ago, 56 referrals since: 8/5 a day, which the two
    rounded quotients turn into the double just below. *)
Definition ex_partner_eight_fifths_a_day : PartnerData :=
  mkPartnerData "p3" (getTime ex_reading - 5 * msPerWeek) 56.

(** *** Thresholds and account similarity *)

(** [FraudThreshold] of the configuration. *)
Record FraudThreshold := mkThreshold {
  metric : string;
  threshold : Q;
  th_timeWindow : Q;
  th_action : string;
  th_severity : Severity
}.

(** [config.compliance.fraudThresholds.find(t => t.metric === alert.alertType)] *)
Definition findThreshold (fraudThresholds : list FraudThreshold)
           (alert : FraudAlert) : option FraudThreshold :=
  find (fun t => String.eqb (metric t) (alertType alert)) fraudThresholds.

Definition applyFraudThresholds (fraudThresholds : list FraudThreshold)
           (alerts : list FraudAlert) : list FraudAlert :=
  filter (fun alert =>
            match findThreshold fraudThresholds alert with
            | None => true
            | Some t => Qle_bool (threshold t) (riskScore alert)
            end) alerts.

(** A partner record as [calculatePartnerSimilarity] reads it: by field
    name, in [metadata] and on the record itself. *)
Record IdentityRecord := mkIdentity {
  metadataField : string -> option string;   (* [partner.metadata?.[field]] *)
  ownField : string -> option string         (* [partner[field]] *)
}.

Definition fieldsToCheck : list string :=
  ["email"; "phone"; "address"; "bankAccount"; "ipAddress"; "userAgent"].

(** [partner.metadata?.[field] || partner[field]], as far as its
    truthiness and value matter. *)
Definition fieldValue (partner : IdentityRecord) (field : string)
  : option string :=
  match truthy_str (metadataField partner field) with
  | Some v => Some v
  | None => truthy_str (ownField partner field)
  end.

Record Similarity := mkSimilarity {
  score : Q;
  matchingFields : list string
}.

(** The loop of [calculatePartnerSimilarity]: [matches], [total] and the
    matching fields so far. *)
Fixpoint similarityLoop (partner1 partner2 : IdentityRecord)
         (fields : list string) (matches total : Z) (matching : list string)
  : Z * Z * list string :=
  match fields with
  | [] => (matches, total, matching)
  | field :: rest =>
      let total' := (total + 1)%Z in
      match fieldValue partner1 field, fieldValue partner2 field with
      | Some value1, Some value2 =>
          if String.eqb value1 value2
          then similarityLoop partner1 partner2 rest (matches + 1)%Z total'
                              (matching ++ [field])
          else similarityLoop partner1 partner2 rest matches total' matching
      | _, _ => similarityLoop partner1 partner2 rest matches total' matching
      end
  end.

Definition calculatePartnerSimilarity (partner1 partner2 : IdentityRecord)
  : Similarity :=
  match similarityLoop partner1 partner2 fieldsToCheck 0 0 [] with
  | (matches, total, matching) =>
      {| score := if (0 <? total)%Z
                  then inject_Z matches / inject_Z total else 0;
         matchingFields := matching |}
  end.

(** A field on which two partner records agree: both carry a non-empty
    value for it, and the same one. *)
Definition fieldMatches (partner1 partner2 : IdentityRecord) (field : string)
  : bool :=
  match fieldValue partner1 field, fieldValue partner2 field with
  | Some value1, Some value2 => String.eqb value1 value2
  | _, _ => false
  end.

(** Two records that share email, phone, address, bank account and source
    address but not the user agent. *)
Definition ex_identity (agent : string) : IdentityRecord :=
  mkIdentity (fun f => if String.eqb f "userAgent" then Some agent
                       else if String.eqb f "ipAddress" then Some "10.0.0.1"
                       else None)
             (fun f => if String.eqb f "email" then Some "a@example.org"
                       else if String.eqb f "phone" then Some "555"
                       else if String.eqb f "address" then Some "1 High St"
                       else if String.eqb f "bankAccount" then Some "GB00"
                       else None).

Definition ex_thresholds : list FraudThreshold :=
  [ mkThreshold "referral_velocity" (9 # 10) 24 "suspend" high;
    mkThreshold "referral_velocity" (1 # 10) 24 "flag" low ].

End Fraud.

(** * Properties *)

(** ** Arithmetic helpers *)

Module JSFacts.

Import JS.

Lemma Qlt_bool_iff (a b : Q) : Qlt_bool a b = true <-> a < b.
Proof.
  unfold Qlt_bool. rewrite negb_true_iff. split.
  - intros H. apply Qnot_le_lt. intros Hle.
    apply Qle_bool_iff in Hle. congruence.
  - intros H. destruct (Qle_bool b a) eqn:E; [|reflexivity].
    apply Qle_bool_iff in E. exfalso. exact (Qlt_not_le _ _ H E).
Qed.

(** *** Double precision *)

Lemma pow2_pos (e : Z) : 0 < 2 ^ e.
Proof. apply Qpower_0_lt. reflexivity. Qed.

Lemma pow2_mono (a b : Z) : (a <= b)%Z -> 2 ^ a <= 2 ^ b.
Proof. intros H. apply Qpower_le_compat_l; [exact H|discriminate]. Qed.

Lemma pow2_lt (a b : Z) : (a < b)%Z -> 2 ^ a < 2 ^ b.
Proof. intros H. apply Qpower_lt_compat_l; [exact H|reflexivity]. Qed.

Lemma pow2_add (a b : Z) : 2 ^ (a + b) == 2 ^ a * 2 ^ b.
Proof. apply Qpower_plus. discriminate. Qed.

Lemma pow2_succ (a : Z) : 2 ^ (a + 1) == 2 * 2 ^ a.
Proof. rewrite pow2_add. change (2 ^ 1) with 2. ring. Qed.

Lemma pow2_Z (k : Z) : (0 <= k)%Z -> 2 ^ k == inject_Z (2 ^ k).
Proof. intros H. symmetry. apply (Zpower_Qpower 2 k H). Qed.

(** [ilog2 x] is the integer part of the binary logarithm of a positive
    [x]. *)
Lemma ilog2_spec (x : Q) :
  0 < x -> 2 ^ ilog2 x <= x /\ x < 2 ^ (ilog2 x + 1).
Proof.
  intros Hx. unfold ilog2.
  destruct x as [n d]. cbn [Qnum Qden].
  assert (Hn : (0 < n)%Z).
  { unfold Qlt in Hx. cbn in Hx. lia. }
  set (ln := Z.log2 n). set (ld := Z.log2 (Zpos d)).
  destruct (Z.log2_spec n Hn) as [Hn1 Hn2]. fold ln in Hn1, Hn2.
  destruct (Z.log2_spec (Zpos d) (Pos2Z.is_pos d)) as [Hd1 Hd2].
  fold ld in Hd1, Hd2.
  assert (Hln : (0 <= ln)%Z) by apply Z.log2_nonneg.
  assert (Hld : (0 <= ld)%Z) by apply Z.log2_nonneg.
  assert (Hq : n # d == inject_Z n / inject_Z (Zpos d)) by apply Qmake_Qdiv.
  assert (Hdpos : 0 < inject_Z (Zpos d)) by reflexivity.
  assert (Hup : n # d < 2 ^ (ln - ld + 1)).
  { replace (ln - ld + 1)%Z with (Z.succ ln - ld)%Z by lia.
    rewrite Qpower_minus by discriminate.
    rewrite !pow2_Z by lia. rewrite Hq.
    apply Qlt_shift_div_l; [rewrite <- pow2_Z by lia; apply pow2_pos|].
    unfold Qdiv. rewrite <- Qmult_assoc, (Qmult_comm (/ _)), Qmult_assoc.
    apply Qlt_shift_div_r; [exact Hdpos|].
    rewrite <- !inject_Z_mult, <- Zlt_Qlt.
    apply Z.le_lt_trans with (n * Zpos d)%Z; [|nia].
    apply Z.mul_le_mono_nonneg_l; lia. }
  assert (Hlo : 2 ^ (ln - ld - 1) <= n # d).
  { replace (ln - ld - 1)%Z with (ln - Z.succ ld)%Z by lia.
    rewrite Qpower_minus by discriminate.
    rewrite !pow2_Z by lia. rewrite Hq.
    apply Qle_shift_div_r; [rewrite <- pow2_Z by lia; apply pow2_pos|].
    unfold Qdiv. rewrite <- Qmult_assoc, (Qmult_comm (/ _)), Qmult_assoc.
    apply Qle_shift_div_l; [exact Hdpos|].
    rewrite <- !inject_Z_mult, <- Zle_Qle.
    apply Z.le_trans with (n * Zpos d)%Z; [nia|].
    apply Z.mul_le_mono_nonneg_l; lia. }
  destruct (Qle_bool (2 ^ (ln - ld)) (n # d)) eqn:E.
  - apply Qle_bool_iff in E. split; [exact E|exact Hup].
  - split; [exact Hlo|].
    replace (ln - ld - 1 + 1)%Z with (ln - ld)%Z by lia.
    apply Qnot_le_lt. intros H. apply Qle_bool_iff in H. congruence.
Qed.

Lemma ilog2_unique (x : Q) (k : Z) :
  2 ^ k <= x -> x < 2 ^ (k + 1) -> ilog2 x = k.
Proof.
  intros H1 H2.
  assert (Hx : 0 < x) by (eapply Qlt_le_trans; [apply (pow2_pos k)|exact H1]).
  destruct (ilog2_spec x Hx) as [H3 H4].
  assert (A : (ilog2 x < k + 1)%Z).
  { apply (Qpower_lt_compat_l_inv 2); [|reflexivity].
    eapply Qle_lt_trans; [exact H3|exact H2]. }
  assert (B : (k < ilog2 x + 1)%Z).
  { apply (Qpower_lt_compat_l_inv 2); [|reflexivity].
    eapply Qle_lt_trans; [exact H1|exact H4]. }
  lia.
Qed.

Lemma ilog2_comp (x y : Q) : 0 < x -> x == y -> ilog2 x = ilog2 y.
Proof.
  intros Hx E. symmetry. destruct (ilog2_spec x Hx) as [H1 H2].
  apply ilog2_unique; rewrite <- E; assumption.
Qed.

Lemma ilog2_mono (x y : Q) : 0 < x -> x <= y -> (ilog2 x <= ilog2 y)%Z.
Proof.
  intros Hx Hxy.
  assert (Hy : 0 < y) by (eapply Qlt_le_trans; eauto).
  destruct (ilog2_spec x Hx) as [H1 _], (ilog2_spec y Hy) as [_ H4].
  assert (A : (ilog2 x < ilog2 y + 1)%Z).
  { apply (Qpower_lt_compat_l_inv 2); [|reflexivity].
    eapply Qle_lt_trans; [exact H1|]. eapply Qle_lt_trans; eauto. }
  lia.
Qed.

Lemma roundEven_floor (m : Q) :
  (Qfloor m <= roundEven m <= Qfloor m + 1)%Z.
Proof.
  unfold roundEven.
  destruct (Qcompare (m - inject_Z (Qfloor m)) (1 # 2));
    [destruct (Z.even (Qfloor m))| |]; lia.
Qed.

Lemma roundEven_near (m : Q) :
  m - (1 # 2) <= inject_Z (roundEven m) <= m + (1 # 2).
Proof.
  pose proof (Qfloor_le m) as Hlo. pose proof (Qlt_floor m) as Hhi.
  rewrite inject_Z_plus in Hhi. change (inject_Z 1) with 1 in Hhi.
  unfold roundEven.
  destruct (Qcompare (m - inject_Z (Qfloor m)) (1 # 2)) eqn:E.
  - apply Qeq_alt in E.
    destruct (Z.even (Qfloor m)); [|rewrite inject_Z_plus;
                                     change (inject_Z 1) with 1]; lra.
  - apply Qlt_alt in E. lra.
  - apply Qgt_alt in E. rewrite inject_Z_plus. change (inject_Z 1) with 1.
    lra.
Qed.

Lemma roundEven_Z (z : Z) : roundEven (inject_Z z) = z.
Proof.
  unfold roundEven. rewrite Qfloor_Z.
  destruct (Qcompare (inject_Z z - inject_Z z) (1 # 2)) eqn:E.
  - apply Qeq_alt in E. lra.
  - reflexivity.
  - apply Qgt_alt in E. lra.
Qed.

Lemma roundEven_comp (a b : Q) : a == b -> roundEven a = roundEven b.
Proof.
  intros E. unfold roundEven. rewrite (Qfloor_comp _ _ E).
  assert (H : a - inject_Z (Qfloor b) == b - inject_Z (Qfloor b))
    by (rewrite E; reflexivity).
  now rewrite (Qcompare_comp _ _ H _ _ (Qeq_refl (1 # 2))).
Qed.

Lemma roundEven_mono (a b : Q) : a <= b -> (roundEven a <= roundEven b)%Z.
Proof.
  intros Hab. pose proof (Qfloor_resp_le _ _ Hab) as Hf.
  pose proof (roundEven_floor a) as Ha. pose proof (roundEven_floor b) as Hb.
  destruct (Z.eq_dec (Qfloor a) (Qfloor b)) as [E|N]; [|lia].
  unfold roundEven in *. rewrite E in *.
  destruct (Qcompare (a - inject_Z (Qfloor b)) (1 # 2)) eqn:Ea.
  - apply Qeq_alt in Ea.
    destruct (Qcompare (b - inject_Z (Qfloor b)) (1 # 2)) eqn:Eb.
    + lia.
    + apply Qlt_alt in Eb. lra.
    + destruct (Z.even (Qfloor b)); lia.
  - lia.
  - apply Qgt_alt in Ea.
    destruct (Qcompare (b - inject_Z (Qfloor b)) (1 # 2)) eqn:Eb.
    + apply Qeq_alt in Eb. lra.
    + apply Qlt_alt in Eb. lra.
    + lia.
Qed.

Lemma binary64_unfold (x : Q) :
  ~ x == 0 ->
  binary64 x = inject_Z (roundEven (x / 2 ^ ulpExp x)) * 2 ^ ulpExp x.
Proof.
  intros H. unfold binary64, ulpExp.
  destruct (Qeq_bool x 0) eqn:E; [|reflexivity].
  apply Qeq_bool_iff in E. contradiction.
Qed.

Lemma binary64_zero (x : Q) : x == 0 -> binary64 x = 0.
Proof.
  intros H. unfold binary64. apply Qeq_bool_iff in H. now rewrite H.
Qed.

Lemma ulpExp_comp (x y : Q) : ~ x == 0 -> x == y -> ulpExp x = ulpExp y.
Proof.
  intros Hx E. unfold ulpExp. f_equal. f_equal.
  apply ilog2_comp; [|apply Qabs_wd; exact E].
  destruct (Qlt_le_dec 0 (Qabs x)) as [H|H]; [exact H|].
  exfalso. apply Hx. apply Qabs_Qle_condition in H. lra.
Qed.

Lemma binary64_comp (x y : Q) : x == y -> binary64 x == binary64 y.
Proof.
  intros E. destruct (Qeq_dec x 0) as [Hx|Hx].
  - rewrite (binary64_zero x Hx), (binary64_zero y); [reflexivity|lra].
  - assert (Hy : ~ y == 0) by (intros H; apply Hx; lra).
    rewrite (binary64_unfold x Hx), (binary64_unfold y Hy).
    rewrite <- (ulpExp_comp x y Hx E).
    rewrite (roundEven_comp (x / 2 ^ ulpExp x) (y / 2 ^ ulpExp x));
      [reflexivity|].
    apply Qmult_comp; [exact E|reflexivity].
Qed.

Lemma ulpExp_pos (x : Q) :
  0 < x -> ulpExp x = Z.max (ilog2 x - 52) (-1074).
Proof.
  intros H. unfold ulpExp. f_equal. f_equal.
  apply ilog2_comp.
  - rewrite Qabs_pos; [exact H|now apply Qlt_le_weak].
  - apply Qabs_pos. now apply Qlt_le_weak.
Qed.

Lemma scaled (x : Q) (e : Z) : x / 2 ^ e * 2 ^ e == x.
Proof.
  field. intros H. apply (Qlt_irrefl 0). rewrite <- H at 2. apply pow2_pos.
Qed.

Lemma binary64_nonneg (x : Q) : 0 <= x -> 0 <= binary64 x.
Proof.
  intros H. destruct (Qeq_dec x 0) as [Hx|Hx].
  - rewrite (binary64_zero x Hx). apply Qle_refl.
  - rewrite (binary64_unfold x Hx).
    apply Qmult_le_0_compat; [|apply Qlt_le_weak, pow2_pos].
    change 0 with (inject_Z 0). rewrite <- Zle_Qle.
    rewrite <- (roundEven_Z 0). apply roundEven_mono.
    change (inject_Z 0) with 0.
    apply Qle_shift_div_l; [apply pow2_pos|]. lra.
Qed.

Lemma binary64_mono_pos (x y : Q) :
  0 < x -> x <= y -> binary64 x <= binary64 y.
Proof.
  intros Hx Hxy.
  assert (Hy : 0 < y) by (eapply Qlt_le_trans; eauto).
  rewrite (binary64_unfold x), (binary64_unfold y) by lra.
  pose proof (ilog2_mono x y Hx Hxy) as Hl.
  destruct (ilog2_spec x Hx) as [_ Hxu].
  destruct (ilog2_spec y Hy) as [Hyl _].
  rewrite (ulpExp_pos x Hx), (ulpExp_pos y Hy).
  set (ex := Z.max (ilog2 x - 52) (-1074)).
  set (ey := Z.max (ilog2 y - 52) (-1074)).
  assert (Hexy : (ex <= ey)%Z) by (unfold ex, ey; lia).
  destruct (Z.eq_dec ex ey) as [E|N].
  - rewrite <- E.
    apply Qmult_le_compat_r; [|apply Qlt_le_weak, pow2_pos].
    rewrite <- Zle_Qle. apply roundEven_mono.
    apply Qmult_le_compat_r; [exact Hxy|].
    apply Qlt_le_weak, Qinv_lt_0_compat, pow2_pos.
  - assert (Hey : ey = (ilog2 y - 52)%Z) by (unfold ex, ey in *; lia).
    apply Qle_trans with (2 ^ (53 + ex)).
    + rewrite pow2_add.
      apply Qmult_le_compat_r; [|apply Qlt_le_weak, pow2_pos].
      rewrite (pow2_Z 53) by lia. rewrite <- Zle_Qle.
      rewrite <- (roundEven_Z (2 ^ 53)). apply roundEven_mono.
      rewrite <- (pow2_Z 53) by lia.
      apply Qle_shift_div_r; [apply pow2_pos|].
      rewrite <- pow2_add. apply Qlt_le_weak.
      eapply Qlt_le_trans; [exact Hxu|]. apply pow2_mono.
      unfold ex. lia.
    + apply Qle_trans with (2 ^ (52 + ey)); [apply pow2_mono; lia|].
      rewrite pow2_add.
      apply Qmult_le_compat_r; [|apply Qlt_le_weak, pow2_pos].
      rewrite (pow2_Z 52) by lia. rewrite <- Zle_Qle.
      rewrite <- (roundEven_Z (2 ^ 52)) at 1. apply roundEven_mono.
      rewrite <- (pow2_Z 52) by lia.
      apply Qle_shift_div_l; [apply pow2_pos|].
      rewrite <- pow2_add. eapply Qle_trans; [|exact Hyl].
      apply pow2_mono. lia.
Qed.

(** Rounding is monotone on the non-negative numbers. *)
Lemma binary64_mono (x y : Q) :
  0 <= x -> x <= y -> binary64 x <= binary64 y.
Proof.
  intros Hx Hxy. destruct (Qeq_dec x 0) as [E|N].
  - rewrite (binary64_zero x E). apply binary64_nonneg. lra.
  - apply binary64_mono_pos; [lra|exact Hxy].
Qed.

(** Whole numbers below [2^53] are representable. *)
Lemma binary64_integer (n : Z) :
  (0 <= n < 2 ^ 53)%Z -> binary64 (inject_Z n) == inject_Z n.
Proof.
  intros [H0 H53]. destruct (Z.eq_dec n 0) as [->|N].
  - reflexivity.
  - assert (Hpos : 0 < inject_Z n).
    { change 0 with (inject_Z 0). rewrite <- Zlt_Qlt. lia. }
    rewrite binary64_unfold by lra.
    rewrite (ulpExp_pos _ Hpos).
    destruct (ilog2_spec _ Hpos) as [Hl _].
    assert (Hlog : (ilog2 (inject_Z n) < 53)%Z).
    { apply (Qpower_lt_compat_l_inv 2); [|reflexivity].
      eapply Qle_lt_trans; [exact Hl|].
      rewrite pow2_Z by lia. rewrite <- Zlt_Qlt. exact H53. }
    set (e := Z.max (ilog2 (inject_Z n) - 52) (-1074)).
    assert (He : (e <= 0)%Z) by (unfold e; lia).
    assert (Hinv : 2 ^ e == / inject_Z (2 ^ (- e))).
    { rewrite <- pow2_Z by lia. rewrite <- Qpower_opp.
      now rewrite Z.opp_involutive. }
    assert (Hm : inject_Z n / 2 ^ e == inject_Z (n * 2 ^ (- e))).
    { rewrite inject_Z_mult, Hinv. unfold Qdiv. now rewrite Qinv_involutive. }
    rewrite (roundEven_comp _ _ Hm), roundEven_Z.
    rewrite <- Hm. apply scaled.
Qed.

(** The rounding error is at most half a unit in the last place: a
    relative [2^-53], or [2^-1075] for the smallest magnitudes. *)
Lemma binary64_error (x : Q) :
  0 <= x ->
  x - (x * 2 ^ (-53) + 2 ^ (-1075)) <= binary64 x
  /\ binary64 x <= x + (x * 2 ^ (-53) + 2 ^ (-1075)).
Proof.
  intros H0.
  assert (P1 : 0 < 2 ^ (-53)) by apply pow2_pos.
  assert (P2 : 0 < 2 ^ (-1075)) by apply pow2_pos.
  destruct (Qeq_dec x 0) as [E|N].
  - rewrite (binary64_zero x E). rewrite E. lra.
  - assert (Hx : 0 < x) by lra.
    rewrite binary64_unfold by exact N. rewrite (ulpExp_pos x Hx).
    destruct (ilog2_spec x Hx) as [Hl _].
    set (e := Z.max (ilog2 x - 52) (-1074)).
    assert (Hhalf : 2 ^ e * (1 # 2) <= x * 2 ^ (-53) + 2 ^ (-1075)).
    { assert (Hh : 2 ^ e * (1 # 2) == 2 ^ (e - 1)).
      { replace (e - 1)%Z with (e + -1)%Z by lia. rewrite pow2_add.
        reflexivity. }
      rewrite Hh.
      destruct (Z.max_spec (ilog2 x - 52) (-1074)) as [[_ Em]|[_ Em]];
        fold e in Em.
      - rewrite Em. change (-1074 - 1)%Z with (-1075)%Z.
        assert (0 <= x * 2 ^ (-53)) by (apply Qmult_le_0_compat; lra). lra.
      - rewrite Em. replace (ilog2 x - 52 - 1)%Z with (ilog2 x + -53)%Z by lia.
        rewrite pow2_add.
        assert (2 ^ ilog2 x * 2 ^ (-53) <= x * 2 ^ (-53))
          by (apply Qmult_le_compat_r; lra). lra. }
    pose proof (roundEven_near (x / 2 ^ e)) as [Rl Ru].
    pose proof (pow2_pos e) as Pe.
    assert (Hne : ~ 2 ^ e == 0) by lra.
    assert (Sl : x - 2 ^ e * (1 # 2)
                 <= inject_Z (roundEven (x / 2 ^ e)) * 2 ^ e).
    { assert (El : x - 2 ^ e * (1 # 2) == (x / 2 ^ e - (1 # 2)) * 2 ^ e)
        by (field; exact Hne).
      rewrite El. apply Qmult_le_compat_r; lra. }
    assert (Su : inject_Z (roundEven (x / 2 ^ e)) * 2 ^ e
                 <= x + 2 ^ e * (1 # 2)).
    { assert (Eu : x + 2 ^ e * (1 # 2) == (x / 2 ^ e + (1 # 2)) * 2 ^ e)
        by (field; exact Hne).
      rewrite Eu. apply Qmult_le_compat_r; lra. }
    split; lra.
Qed.

(** Rounding keeps a number between two representable whole numbers. *)
Lemma binary64_within (lo hi : Z) (y : Q) :
  (0 <= lo)%Z -> (hi < 2 ^ 53)%Z -> (lo <= hi)%Z ->
  inject_Z lo <= y <= inject_Z hi ->
  inject_Z lo <= binary64 y <= inject_Z hi.
Proof.
  intros Hlo Hhi Hlh [H1 H2].
  assert (Q0 : 0 <= inject_Z lo).
  { change 0 with (inject_Z 0). rewrite <- Zle_Qle. exact Hlo. }
  split.
  - rewrite <- (binary64_integer lo) by lia. apply binary64_mono; assumption.
  - rewrite <- (binary64_integer hi) by lia. apply binary64_mono; lra.
Qed.

End JSFacts.

(** ** Commission calculation engine *)

Module CommissionSpec.

Import JS JSFacts Commission.

(** *** Tier selection *)

(** Folding [pickBest] over [l] from a running best [b]: either [b]
    survives and no tier of [l] has a greater rate, or the result is the
    first tier of [l] whose rate is greater than [b]'s and maximal in [l]. *)
Lemma pickBest_fold (l : list CommissionTier) (b : CommissionTier) :
  (fold_left pickBest l (Some b) = Some b
   /\ Forall (fun t => commissionRate t <= commissionRate b) l)
  \/ (exists t l1 l2,
         fold_left pickBest l (Some b) = Some t
         /\ l = l1 ++ t :: l2
         /\ commissionRate b < commissionRate t
         /\ Forall (fun t' => commissionRate t' < commissionRate t) l1
         /\ Forall (fun t' => commissionRate t' <= commissionRate t) l2).
Proof.
  revert b. induction l as [|c l IH]; intros b.
  - left. split; [reflexivity|constructor].
  - cbn [fold_left pickBest].
    destruct (Qlt_bool (commissionRate b) (commissionRate c)) eqn:E.
    + apply Qlt_bool_iff in E.
      destruct (IH c) as [[Hk Hall] | (t & l1 & l2 & Hf & Hl & Hlt & H1 & H2)].
      * right. exists c, [], l.
        split; [exact Hk|]. split; [reflexivity|].
        split; [exact E|]. split; [constructor|exact Hall].
      * right. exists t, (c :: l1), l2.
        split; [exact Hf|]. split; [cbn; now rewrite Hl|].
        split; [eapply Qlt_trans; eauto|].
        split; [constructor; assumption|assumption].
    + assert (Hle : commissionRate c <= commissionRate b).
      { apply Qnot_lt_le. intros H. apply Qlt_bool_iff in H. congruence. }
      destruct (IH b) as [[Hk Hall] | (t & l1 & l2 & Hf & Hl & Hlt & H1 & H2)].
      * left. split; auto.
      * right. exists t, (c :: l1), l2.
        split; [exact Hf|]. split; [cbn; now rewrite Hl|].
        split; [exact Hlt|].
        split; [|assumption].
        constructor; [eapply Qle_lt_trans; eauto|assumption].
Qed.

(** A position in a filtered list comes from a position in the list. *)
Lemma filter_split {A} (f : A -> bool) (L : list A) :
  forall l1 x l2, filter f L = l1 ++ x :: l2 ->
  exists c1 c2, L = c1 ++ x :: c2 /\ filter f c1 = l1 /\ filter f c2 = l2.
Proof.
  induction L as [|a L IH]; intros l1 x l2 H; cbn in H.
  - destruct l1; discriminate.
  - destruct (f a) eqn:Fa.
    + destruct l1 as [|y l1]; cbn in H; injection H as -> H.
      * exists [], L. cbn. auto.
      * destruct (IH _ _ _ H) as (c1 & c2 & -> & H1 & H2).
        exists (y :: c1), c2. cbn. rewrite Fa, H1. auto.
    + destruct (IH _ _ _ H) as (c1 & c2 & -> & H1 & H2).
      exists (a :: c1), c2. cbn. rewrite Fa. auto.
Qed.

Lemma Forall_filter_In {A} (f : A -> bool) (P : A -> Prop) (l : list A) :
  Forall P (filter f l) -> forall x, In x l -> f x = true -> P x.
Proof.
  intros H x Hin Hf. rewrite Forall_forall in H. apply H.
  apply filter_In. auto.
Qed.

(** C10. Tier selection is determined by the configured tier order: the
    tier returned by [findApplicableTier] is an applicable tier (right
    level, partner qualified) whose rate is at least that of every
    applicable tier, and strictly greater than that of every applicable
    tier configured before it; so among the applicable tiers of maximal
    rate it is the earliest configured. No tier is returned exactly when
    none is applicable. *)
Theorem findApplicableTier_highest_rate_earliest :
  forall (config : Config) (now : Date) (partner : PartnerHierarchyNode)
         (level : Z),
    match findApplicableTier config now partner level with
    | None =>
        Forall (fun t => applicable now partner level t = false) (tiers config)
    | Some t =>
        exists c1 c2,
          tiers config = c1 ++ t :: c2
          /\ applicable now partner level t = true
          /\ Forall (fun t' => applicable now partner level t' = true ->
                               commissionRate t' < commissionRate t) c1
          /\ Forall (fun t' => applicable now partner level t' = true ->
                               commissionRate t' <= commissionRate t) c2
    end.
Proof.
  intros config now partner level.
  unfold findApplicableTier, applicableTiers.
  change (fun tier : CommissionTier =>
            (tier_level tier =? level)%Z && isPartnerQualified now partner tier)
    with (applicable now partner level).
  set (f := applicable now partner level).
  destruct (filter f (tiers config)) as [|b l] eqn:Hq.
  - cbn. apply Forall_forall. intros t Hin.
    destruct (f t) eqn:Ft; [|reflexivity].
    assert (Hin' : In t (filter f (tiers config))) by (apply filter_In; auto).
    rewrite Hq in Hin'. destruct Hin'.
  - cbn [fold_left pickBest].
    destruct (pickBest_fold l b)
      as [[Hk Hall] | (t & l1 & l2 & Hf & Hl & Hlt & H1 & H2)].
    + rewrite Hk.
      destruct (filter_split f (tiers config) [] b l Hq)
        as (c1 & c2 & Hc & Hc1 & Hc2).
      exists c1, c2. split; [exact Hc|]. split.
      { assert (Hin : In b (filter f (tiers config)))
          by (rewrite Hq; left; reflexivity).
        apply filter_In in Hin. tauto. }
      split.
      * apply Forall_forall. intros t' Hin Ft.
        assert (Hin' : In t' (filter f c1)) by (apply filter_In; auto).
        rewrite Hc1 in Hin'. destruct Hin'.
      * apply Forall_forall. intros t' Hin Ft.
        rewrite <- Hc2 in Hall.
        exact (Forall_filter_In f _ c2 Hall t' Hin Ft).
    + rewrite Hf.
      assert (Hq' : filter f (tiers config) = (b :: l1) ++ t :: l2)
        by (rewrite Hq, Hl; reflexivity).
      destruct (filter_split f (tiers config) (b :: l1) t l2 Hq')
        as (c1 & c2 & Hc & Hc1 & Hc2).
      exists c1, c2. split; [exact Hc|]. split.
      { assert (Hin : In t (filter f (tiers config)))
          by (rewrite Hq'; apply in_elt).
        apply filter_In in Hin. tauto. }
      split.
      * apply Forall_forall. intros t' Hin Ft.
        assert (HF : Forall (fun t' => commissionRate t' < commissionRate t)
                            (filter f c1)).
        { rewrite Hc1. constructor; assumption. }
        exact (Forall_filter_In f _ c1 HF t' Hin Ft).
      * apply Forall_forall. intros t' Hin Ft.
        rewrite <- Hc2 in H2.
        exact (Forall_filter_In f _ c2 H2 t' Hin Ft).
Qed.

Lemma findApplicableTier_highest_rate_earliest_witness :
  match findApplicableTier (ex_config ex_tiers_tied []) ex_now ex_sponsor 1 with
  | None =>
      Forall (fun t => applicable ex_now ex_sponsor 1 t = false) ex_tiers_tied
  | Some t =>
      exists c1 c2,
        ex_tiers_tied = (c1 ++ t :: c2)%list
        /\ applicable ex_now ex_sponsor 1 t = true
        /\ Forall (fun t' => applicable ex_now ex_sponsor 1 t' = true ->
                             commissionRate t' < commissionRate t) c1
        /\ Forall (fun t' => applicable ex_now ex_sponsor 1 t' = true ->
                             commissionRate t' <= commissionRate t) c2
  end.
Proof.
  exact (findApplicableTier_highest_rate_earliest
           (ex_config ex_tiers_tied []) ex_now ex_sponsor 1).
Defined.

Example tied_tiers_pick_first :
  option_map tier_name
             (findApplicableTier (ex_config ex_tiers_tied []) ex_now ex_sponsor 1)
  = Some "HighA"%string.
Proof. reflexivity. Qed.

(** *** Failure and zero-value outcomes *)

Lemma findProduct_unknown (config : Config) (transaction : Transaction) :
  productUnknown config transaction -> findProduct config transaction = None.
Proof.
  unfold productUnknown, findProduct.
  induction (products config) as [|p ps IH]; intros H; [reflexivity|].
  cbn. destruct (String.eqb_spec (product_id p) (productId transaction)) as [E|E].
  - exfalso. apply (H p); [left; reflexivity|exact E].
  - apply IH. intros q Hq. apply H. right. exact Hq.
Qed.

(** C5. [calculateCommissions] fails exactly when the amount is not
    positive, and then with [InvalidAmount]; a positive-amount transaction
    whose product is unknown or not commission-eligible yields the
    zero-value distribution, not a failure. *)
Theorem calculateCommissions_fails_iff_amount_nonpositive :
  forall (config : Config) (now : Date) (transaction : Transaction)
         (partnerHierarchy : list PartnerHierarchyNode),
    ((exists e, calculateCommissions config now transaction partnerHierarchy
                = inl e)
     <-> amount transaction <= 0)
    /\ (forall e, calculateCommissions config now transaction partnerHierarchy
                  = inl e -> e = InvalidAmount)
    /\ (0 < amount transaction ->
        productUnknown config transaction
        \/ productIneligible config transaction ->
        calculateCommissions config now transaction partnerHierarchy
        = inr (zeroDistribution now transaction)).
Proof.
  intros config now transaction partnerHierarchy.
  unfold calculateCommissions.
  destruct (Qle_bool (amount transaction) 0) eqn:Hle.
  - apply Qle_bool_iff in Hle. split; [|split].
    + split; [intros _; exact Hle|intros _; eexists; reflexivity].
    + intros e He. injection He as <-. reflexivity.
    + intros Hpos. exfalso. exact (Qlt_not_le _ _ Hpos Hle).
  - assert (Hnle : ~ amount transaction <= 0).
    { intros H. apply Qle_bool_iff in H. congruence. }
    split; [|split].
    + split.
      * intros [e He].
        destruct (findProduct config transaction) as [p|];
          [destruct (commissionEligible p)|]; discriminate.
      * intros H. contradiction.
    + intros e He.
      destruct (findProduct config transaction) as [p|];
        [destruct (commissionEligible p)|]; discriminate.
    + intros _ [Hun | (p & Hp & Hin)].
      * rewrite (findProduct_unknown _ _ Hun). reflexivity.
      * rewrite Hp, Hin. reflexivity.
Qed.

Lemma calculateCommissions_fails_iff_amount_nonpositive_witness :
  calculateCommissions (ex_config [ex_tier] []) ex_now
                       ex_transaction_ineligible [ex_sponsor]
  = inr (zeroDistribution ex_now ex_transaction_ineligible).
Proof.
  apply (calculateCommissions_fails_iff_amount_nonpositive
           (ex_config [ex_tier] []) ex_now ex_transaction_ineligible
           [ex_sponsor]).
  - reflexivity.
  - right. exists ex_product_ineligible. split; reflexivity.
Defined.

(** Scenario A of the specification: rate 0.10 on 1000 pays 100.00. *)
Example scenario_A :
  match calculateCommissions (ex_config [ex_tier] []) ex_now ex_transaction
                             [ex_sponsor] with
  | inr d => Forall2 Qeq (map commissionAmount (commissions d)) [100]
  | inl _ => False
  end.
Proof. cbv. constructor; [reflexivity|constructor]. Qed.

(** *** Totals and positivity along the level loop *)

Lemma sum_acc {A} (f : A -> Q) (xs : list A) :
  forall a, fold_left (fun sum x => sum + f x) xs a == a + sumOf f xs.
Proof.
  unfold sumOf. induction xs as [|x xs IH]; intros a; cbn [fold_left].
  - ring.
  - rewrite (IH (a + f x)), (IH (0 + f x)). ring.
Qed.

Lemma sumOf_app {A} (f : A -> Q) (l1 l2 : list A) :
  sumOf f (l1 ++ l2) == sumOf f l1 + sumOf f l2.
Proof.
  unfold sumOf at 1. rewrite fold_left_app. apply sum_acc.
Qed.

Lemma sumOf_single {A} (f : A -> Q) (x : A) : sumOf f [x] == f x.
Proof. unfold sumOf. cbn. ring. Qed.

Section LoopInvariants.

Variable config : Config.
Variable now : Date.
Variable transaction : Transaction.
Variable product : ProductConfig.

Lemma levelStep_inv (i : nat) (partner : PartnerHierarchyNode)
      (st : LoopState) :
  totalInv st /\ positiveInv st ->
  totalInv (levelStep config now transaction product i partner st)
  /\ positiveInv (levelStep config now transaction product i partner st).
Proof.
  intros [Ht Hp]. unfold levelStep.
  destruct (findApplicableTier _ _ _ _) as [tier|]; [|split; assumption].
  destruct (calculateTierCommission _ _ _ _ _ _) as [c|]; [|split; assumption].
  destruct (Qlt_bool 0 (commissionAmount c)) eqn:E; [|split; assumption].
  apply Qlt_bool_iff in E. split.
  - unfold totalInv in *. cbn [ls_total ls_commissions ls_bonuses].
    rewrite !sumOf_app, sumOf_single, Ht. ring.
  - unfold positiveInv in *. cbn [ls_commissions].
    apply Forall_app. split; [assumption|]. constructor; [exact E|constructor].
Qed.

Lemma levelLoop_inv (hierarchy : list PartnerHierarchyNode) :
  forall (i : nat) (st : LoopState),
    totalInv st /\ positiveInv st ->
    totalInv (levelLoop config now transaction product i hierarchy st)
    /\ positiveInv (levelLoop config now transaction product i hierarchy st).
Proof.
  induction hierarchy as [|partner rest IH]; intros i st H; cbn [levelLoop].
  - exact H.
  - destruct (Z.of_nat i <? maxHierarchyLevels config)%Z; [|exact H].
    apply IH, levelStep_inv, H.
Qed.

End LoopInvariants.

(** A distribution returned by [calculateCommissions] carries as total
    exactly the sum of its commissions and bonuses. *)
Lemma calculateCommissions_total (config : Config) (now : Date)
      (transaction : Transaction) (h : list PartnerHierarchyNode)
      (d : CommissionDistribution) :
  calculateCommissions config now transaction h = inr d ->
  totalCommissionPaid d
  == sumOf commissionAmount (commissions d) + sumOf bonus_amount (bonuses_of d).
Proof.
  unfold calculateCommissions.
  destruct (Qle_bool (amount transaction) 0); [discriminate|].
  destruct (findProduct config transaction) as [p|].
  - destruct (commissionEligible p); intros H; injection H as <-; cbn.
    + apply (levelLoop_inv config now transaction p h 0%nat (mkLoop [] [] 0)).
      split; [unfold totalInv, sumOf; cbn; ring|constructor].
    + unfold sumOf; cbn; ring.
  - intros H; injection H as <-; unfold sumOf; cbn; ring.
Qed.

(** Hence such a distribution passes the validation utility. *)
Lemma calculateCommissions_valid (config : Config) (now : Date)
      (transaction : Transaction) (h : list PartnerHierarchyNode)
      (d : CommissionDistribution) :
  calculateCommissions config now transaction h = inr d ->
  validateCommissionDistribution d = true.
Proof.
  intros H. apply calculateCommissions_total in H.
  unfold validateCommissionDistribution. apply Qlt_bool_iff.
  rewrite H.
  setoid_replace (sumOf commissionAmount (commissions d)
                  + sumOf bonus_amount (bonuses_of d)
                  - (sumOf commissionAmount (commissions d)
                     + sumOf bonus_amount (bonuses_of d))) with 0 by ring.
  reflexivity.
Qed.

(** Every commission of a returned distribution is strictly positive. *)
Lemma calculateCommissions_commissions_positive (config : Config) (now : Date)
      (transaction : Transaction) (h : list PartnerHierarchyNode)
      (d : CommissionDistribution) :
  calculateCommissions config now transaction h = inr d ->
  Forall (fun c => 0 < commissionAmount c) (commissions d).
Proof.
  unfold calculateCommissions.
  destruct (Qle_bool (amount transaction) 0); [discriminate|].
  destruct (findProduct config transaction) as [p|].
  - destruct (commissionEligible p); intros H; injection H as <-; cbn.
    + apply (levelLoop_inv config now transaction p h 0%nat (mkLoop [] [] 0)).
      split; [unfold totalInv, sumOf; cbn; ring|constructor].
    + constructor.
  - intros H; injection H as <-; constructor.
Qed.

(** Every distribution returned by [calculateResidualCommissions] carries
    as total the sum of its (scaled) commissions alone, whatever bonuses it
    lists. *)
Lemma residualLoop_total (config : Config) (now : Date)
      (h : list PartnerHierarchyNode) (subscriptions : list Subscription) :
  forall results out,
    Forall (fun d => totalCommissionPaid d
                     = sumOf commissionAmount (commissions d)) results ->
    residualLoop config now subscriptions h results = inr out ->
    Forall (fun d => totalCommissionPaid d
                     = sumOf commissionAmount (commissions d)) out.
Proof.
  induction subscriptions as [|sub rest IH]; intros results out Hres;
    cbn [residualLoop].
  - intros H. injection H as <-. exact Hres.
  - destruct (residualPeriod config
              <? calculateMonthsInBusiness now (startDate sub))%Z.
    + apply IH, Hres.
    + destruct (calculateCommissions config now (residualTransaction now sub) h)
        as [e|d]; [discriminate|].
      apply IH. apply Forall_app. split; [exact Hres|].
      constructor; [reflexivity|constructor].
Qed.

Lemma calculateResidualCommissions_total (config : Config) (now : Date)
      (subscriptions : list Subscription) (h : list PartnerHierarchyNode)
      (out : list CommissionDistribution) :
  calculateResidualCommissions config now subscriptions h = inr out ->
  Forall (fun d => totalCommissionPaid d
                   = sumOf commissionAmount (commissions d)) out.
Proof.
  unfold calculateResidualCommissions.
  destruct (residualEnabled config); cbn [negb].
  - apply residualLoop_total. constructor.
  - intros H. injection H as <-. constructor.
Qed.

(** C1. The residual path breaks the total invariant: with residual income
    enabled, one subscription of 1000, a 10% level-1 tier and a fixed bonus
    of 10, [calculateResidualCommissions] returns a distribution whose
    commissions sum to 50 and whose bonuses sum to 10 while its total is
    50, so the validation utility rejects it. *)
Theorem calculateResidualCommissions_total_omits_bonuses :
  exists d,
    calculateResidualCommissions (ex_config [ex_tier] [ex_bonus_ten]) ex_now
                                 [ex_subscription] [ex_sponsor] = inr [d]
    /\ sumOf commissionAmount (commissions d) == 50
    /\ sumOf bonus_amount (bonuses_of d) == 10
    /\ totalCommissionPaid d == 50
    /\ ~ Qabs (sumOf commissionAmount (commissions d)
               + sumOf bonus_amount (bonuses_of d)
               - totalCommissionPaid d) < 1 # 100
    /\ validateCommissionDistribution d = false.
Proof.
  eexists. split; [vm_compute; reflexivity|].
  repeat split; try reflexivity.
  vm_compute. intros H. discriminate H.
Qed.

(** C9. A bonus is tested for positivity before it is rounded: with a
    fixed bonus of 0.004 the engine emits a [BonusResult] whose amount is
    0, next to the (positive) commission of 100. *)
Theorem calculateCommissions_emits_zero_bonus :
  exists d c b,
    calculateCommissions (ex_config [ex_tier] [ex_bonus_tiny]) ex_now
                         ex_transaction [ex_sponsor] = inr d
    /\ commissions d = [c] /\ commissionAmount c == 100
    /\ bonuses_of d = [b] /\ bonus_amount b == 0
    /\ ~ 0 < bonus_amount b.
Proof.
  eexists. eexists. eexists.
  split; [vm_compute; reflexivity|].
  cbn [commissions bonuses_of commissionAmount bonus_amount].
  repeat split; try reflexivity.
  intros H. discriminate H.
Qed.

(** *** Dependence on the clock *)

Section SameMonth.

Variable config : Config.
Variables now1 now2 : Date.
Hypothesis Hmonth : sameMonth now1 now2.

Lemma months_same (d : Date) :
  calculateMonthsInBusiness now1 d = calculateMonthsInBusiness now2 d.
Proof.
  unfold calculateMonthsInBusiness. destruct Hmonth as [-> ->]. reflexivity.
Qed.

Lemma qualified_same (p : PartnerHierarchyNode) (t : CommissionTier) :
  isPartnerQualified now1 p t = isPartnerQualified now2 p t.
Proof. unfold isPartnerQualified. rewrite months_same. reflexivity. Qed.

Lemma tier_same (p : PartnerHierarchyNode) (level : Z) :
  findApplicableTier config now1 p level
  = findApplicableTier config now2 p level.
Proof.
  unfold findApplicableTier, applicableTiers. f_equal.
  apply filter_ext. intros t. now rewrite qualified_same.
Qed.

Lemma bonuses_same (p : PartnerHierarchyNode) (tx : Transaction)
      (t : CommissionTier) :
  calculateBonuses config now1 p tx t = calculateBonuses config now2 p tx t.
Proof.
  unfold calculateBonuses. apply flat_map_ext. intros b.
  unfold bonusFor. now rewrite qualified_same.
Qed.

Lemma levelLoop_same (tx : Transaction) (product : ProductConfig)
      (h : list PartnerHierarchyNode) :
  forall i st, levelLoop config now1 tx product i h st
               = levelLoop config now2 tx product i h st.
Proof.
  induction h as [|p rest IH]; intros i st; cbn [levelLoop]; [reflexivity|].
  destruct (Z.of_nat i <? maxHierarchyLevels config)%Z; [|reflexivity].
  rewrite IH. f_equal. unfold levelStep.
  rewrite tier_same.
  destruct (findApplicableTier config now2 p (Z.of_nat i + 1)) as [t|];
    [|reflexivity].
  now rewrite bonuses_same.
Qed.

End SameMonth.

(** C6 as stated fails: the same transaction, upline and rule-set priced at
    two clock readings one millisecond apart give distributions that differ
    (in [processingTimestamp]); and priced in two different calendar months
    against a tenure-qualified tier they differ in the commissions
    themselves. *)
Lemma calculateCommissions_not_bit_identical :
  calculateCommissions (ex_config [ex_tier] []) ex_now ex_transaction
                       [ex_sponsor]
  <> calculateCommissions (ex_config [ex_tier] []) ex_later ex_transaction
                          [ex_sponsor]
  /\ match calculateCommissions (ex_config [ex_tier_tenure] [])
                                ex_previous_month ex_transaction [ex_sponsor],
           calculateCommissions (ex_config [ex_tier_tenure] [])
                                ex_now ex_transaction [ex_sponsor] with
     | inr d1, inr d2 =>
         List.length (commissions d1) = 0%nat /\ List.length (commissions d2) = 1%nat
     | _, _ => False
     end.
Proof.
  split.
  - intros H. apply (f_equal (fun r => match r with
                                       | inr d => getTime (processingTimestamp d)
                                       | inl _ => 0%Z
                                       end)) in H.
    vm_compute in H. discriminate H.
  - vm_compute. split; reflexivity.
Qed.

(** C6, amended. Two invocations on the same transaction, upline and
    rule-set whose clock readings fall in the same calendar month agree on
    the outcome up to [processingTimestamp]: both fail alike, or both
    return distributions with equal transaction id, total, commissions and
    bonuses; the timestamp of each is its own clock reading. *)
Theorem calculateCommissions_repeatable_up_to_timestamp :
  forall (config : Config) (now1 now2 : Date) (transaction : Transaction)
         (partnerHierarchy : list PartnerHierarchyNode),
    sameMonth now1 now2 ->
    agreeUpToTimestamp
      (calculateCommissions config now1 transaction partnerHierarchy)
      (calculateCommissions config now2 transaction partnerHierarchy)
    /\ (forall d, calculateCommissions config now1 transaction partnerHierarchy
                  = inr d -> processingTimestamp d = now1)
    /\ (forall d, calculateCommissions config now2 transaction partnerHierarchy
                  = inr d -> processingTimestamp d = now2).
Proof.
  intros config now1 now2 transaction h Hm.
  unfold calculateCommissions.
  destruct (Qle_bool (amount transaction) 0).
  { split; [reflexivity|split; intros d H; discriminate H]. }
  destruct (findProduct config transaction) as [p|].
  - destruct (commissionEligible p).
    + rewrite (levelLoop_same config now1 now2 Hm).
      split; [cbn; auto|].
      split; intros d H; injection H as <-; reflexivity.
    + split; [cbn; auto|].
      split; intros d H; injection H as <-; reflexivity.
  - split; [cbn; auto|].
    split; intros d H; injection H as <-; reflexivity.
Qed.

Lemma calculateCommissions_repeatable_up_to_timestamp_witness :
  agreeUpToTimestamp
    (calculateCommissions (ex_config [ex_tier] [ex_bonus_ten]) ex_now
                          ex_transaction [ex_sponsor])
    (calculateCommissions (ex_config [ex_tier] [ex_bonus_ten]) ex_later
                          ex_transaction [ex_sponsor]).
Proof.
  apply (calculateCommissions_repeatable_up_to_timestamp
           (ex_config [ex_tier] [ex_bonus_ten]) ex_now ex_later
           ex_transaction [ex_sponsor]).
  split; reflexivity.
Defined.

(** *** Shape of a returned distribution *)

(** The two ways [calculateCommissions] returns: the zero-value
    distribution, or the accumulators of the level loop. *)
Lemma calculateCommissions_cases (config : Config) (now : Date)
      (transaction : Transaction) (h : list PartnerHierarchyNode)
      (d : CommissionDistribution) :
  calculateCommissions config now transaction h = inr d ->
  d = zeroDistribution now transaction
  \/ exists product,
       findProduct config transaction = Some product
       /\ commissionEligible product = true
       /\ commissions d
          = ls_commissions (levelLoop config now transaction product 0 h
                                      (mkLoop [] [] 0))
       /\ bonuses_of d
          = ls_bonuses (levelLoop config now transaction product 0 h
                                  (mkLoop [] [] 0)).
Proof.
  unfold calculateCommissions.
  destruct (Qle_bool (amount transaction) 0); [discriminate|].
  destruct (findProduct config transaction) as [p|].
  - destruct (commissionEligible p) eqn:E; intros H; injection H as <-.
    + right. exists p. repeat split; auto.
    + left. reflexivity.
  - intros H; injection H as <-. left. reflexivity.
Qed.

(** What one iteration of the loop does to the accumulators. *)
Lemma levelStep_cases (config : Config) (now : Date) (transaction : Transaction)
      (product : ProductConfig) (i : nat) (partner : PartnerHierarchyNode)
      (st : LoopState) :
  levelStep config now transaction product i partner st = st
  \/ exists tier c,
       findApplicableTier config now partner (Z.of_nat i + 1) = Some tier
       /\ calculateTierCommission config transaction partner tier
                                  (Z.of_nat i + 1) product = Some c
       /\ 0 < commissionAmount c
       /\ levelStep config now transaction product i partner st
          = {| ls_commissions := ls_commissions st ++ [c];
               ls_bonuses := ls_bonuses st
                             ++ calculateBonuses config now partner transaction tier;
               ls_total := (ls_total st + commissionAmount c)
                           + sumOf bonus_amount
                               (calculateBonuses config now partner transaction
                                                 tier) |}.
Proof.
  unfold levelStep.
  destruct (findApplicableTier _ _ _ _) as [tier|]; [|now left].
  destruct (calculateTierCommission _ _ _ _ _ _) as [c|] eqn:Ec; [|now left].
  destruct (Qlt_bool 0 (commissionAmount c)) eqn:E; [|now left].
  right. exists tier, c. apply Qlt_bool_iff in E. repeat split; auto.
Qed.

(** Induction principle for the level loop over the upline [h0]: a
    property of the accumulators indexed by the loop counter that every
    iteration carries forward holds, at some counter, when the loop ends. *)
Lemma levelLoop_invariant (config : Config) (now : Date)
      (transaction : Transaction) (product : ProductConfig)
      (h0 : list PartnerHierarchyNode) (I : nat -> LoopState -> Prop) :
  (forall i partner st,
      nth_error h0 i = Some partner ->
      (Z.of_nat i < maxHierarchyLevels config)%Z ->
      I i st -> I (S i) (levelStep config now transaction product i partner st)) ->
  forall st0, I 0%nat st0 ->
  exists n, I n (levelLoop config now transaction product 0 h0 st0).
Proof.
  intros Hstep.
  assert (G : forall h i st,
             (forall k, nth_error h k = nth_error h0 (i + k)) ->
             I i st ->
             exists n, I n (levelLoop config now transaction product i h st)).
  { induction h as [|partner rest IH]; intros i st Hnth Hi; cbn [levelLoop].
    - exists i. exact Hi.
    - destruct (Z.of_nat i <? maxHierarchyLevels config)%Z eqn:E;
        [|exists i; exact Hi].
      apply Z.ltb_lt in E. apply IH.
      + intros k. rewrite Nat.add_succ_comm. exact (Hnth (S k)).
      + apply Hstep; [|exact E|exact Hi].
        pose proof (Hnth 0%nat) as H0. rewrite Nat.add_0_r in H0.
        symmetry. exact H0. }
  intros st0 H0. apply (G h0 0%nat st0); [intros k; reflexivity|exact H0].
Qed.

(** *** Rounding and clamping *)

Lemma Math_min_le_l (a b : Q) : Math_min a b <= a.
Proof.
  unfold Math_min. destruct (Qle_bool a b) eqn:E; [apply Qle_refl|].
  apply Qlt_le_weak, Qnot_le_lt. intros H. apply Qle_bool_iff in H. congruence.
Qed.

Lemma Math_min_le_r (a b : Q) : Math_min a b <= b.
Proof.
  unfold Math_min. destruct (Qle_bool a b) eqn:E; [|apply Qle_refl].
  now apply Qle_bool_iff.
Qed.

Lemma round2_mono (x y : Q) : x <= y -> round2 x <= round2 y.
Proof.
  intros H. unfold round2, Math_round, Qdiv.
  apply Qmult_le_compat_r; [|discriminate].
  rewrite <- Zle_Qle. apply Qfloor_resp_le.
  apply Qplus_le_compat; [|apply Qle_refl].
  apply Qmult_le_compat_r; [exact H|discriminate].
Qed.

Lemma round2_nonneg (x : Q) : 0 <= x -> 0 <= round2 x.
Proof.
  intros H. apply (round2_mono 0 x) in H.
  eapply Qle_trans; [|exact H]. discriminate.
Qed.

(** A positive rounded amount is a positive whole number of hundredths. *)
Lemma round2_positive (x : Q) :
  0 < round2 x ->
  exists k : Z, (0 < k)%Z /\ round2 x = inject_Z k / 100.
Proof.
  unfold round2, Math_round. generalize (Qfloor (x * 100 + (1 # 2))).
  intros k H. exists k. split; [|reflexivity].
  unfold Qlt, Qdiv, Qmult, Qinv, inject_Z in H. cbn in H. lia.
Qed.

(** The clamp loop over the configured caps never raises the amount and
    ends at or below every applicable cap. *)
Lemma caps_fold_le (app : CommissionCap -> bool) (cs : list CommissionCap) :
  forall a,
    let r := fold_left (fun acc cap => if app cap
                                       then Math_min acc (maxAmount cap)
                                       else acc) cs a in
    r <= a
    /\ (forall cap, In cap cs -> app cap = true -> r <= maxAmount cap).
Proof.
  induction cs as [|c cs IH]; intros a; cbn [fold_left].
  - split; [apply Qle_refl|intros cap []].
  - destruct (IH (if app c then Math_min a (maxAmount c) else a)) as [H1 H2].
    split.
    + eapply Qle_trans; [exact H1|].
      destruct (app c); [apply Math_min_le_l|apply Qle_refl].
    + intros cap [<-|Hin] Happ.
      * eapply Qle_trans; [exact H1|]. rewrite Happ. apply Math_min_le_r.
      * exact (H2 cap Hin Happ).
Qed.

(** What a [CommissionResult] built by [calculateTierCommission] holds. *)
Lemma calculateTierCommission_some (config : Config) (transaction : Transaction)
      (partner : PartnerHierarchyNode) (tier : CommissionTier) (level : Z)
      (product : ProductConfig) (c : CommissionResult) :
  calculateTierCommission config transaction partner tier level product = Some c ->
  cr_partnerId c = node_id partner
  /\ cr_level c = level
  /\ cr_tierName c = tier_name tier
  /\ cr_baseAmount c = amount transaction
  /\ cr_currency c = tx_currency transaction
  /\ exists raw,
       commissionAmount c = round2 raw
       /\ (forall cap,
              In cap (match caps config with Some cs => cs | None => [] end) ->
              isCapApplicable cap partner level = true ->
              raw <= maxAmount cap)
       /\ (forall m, truthy_num (maximumEarnings tier) = Some m ->
                     raw <= m - num_or (currentMonthEarnings partner) 0).
Proof.
  unfold calculateTierCommission.
  destruct (match truthy_num (minimumVolume tier) with
            | Some mv => Qlt_bool (amount transaction) mv
            | None => false
            end); [discriminate|].
  intros H. injection H as <-. cbn.
  repeat (split; [reflexivity|]).
  eexists. split; [reflexivity|].
  match goal with
  | |- context [fold_left ?g ?cs ?a] =>
      destruct (caps_fold_le (fun cap => isCapApplicable cap partner level) cs a)
        as [Hle Hcaps]
  end.
  split; [exact Hcaps|].
  intros m Hm. eapply Qle_trans; [exact Hle|].
  rewrite Hm. apply Math_min_le_r.
Qed.

(** *** Properties of every returned distribution *)

(** X2. Every commission of a returned distribution is a positive whole
    number of hundredths: at least 0.01 and rounded to two decimals. *)
Theorem calculateCommissions_amounts_positive_hundredths :
  forall (config : Config) (now : Date) (transaction : Transaction)
         (partnerHierarchy : list PartnerHierarchyNode)
         (d : CommissionDistribution),
    calculateCommissions config now transaction partnerHierarchy = inr d ->
    Forall (fun c => exists k : Z,
                (0 < k)%Z /\ commissionAmount c = inject_Z k / 100)
           (commissions d).
Proof.
  intros config now transaction h d H.
  destruct (calculateCommissions_cases _ _ _ _ _ H)
    as [-> | (product & _ & _ & -> & _)]; [constructor|].
  destruct (levelLoop_invariant config now transaction product h
              (fun _ st =>
                 Forall (fun c => exists k : Z,
                             (0 < k)%Z /\ commissionAmount c = inject_Z k / 100)
                        (ls_commissions st)))
    with (st0 := mkLoop [] [] 0) as [n Hn]; [|constructor|exact Hn].
  intros i partner st _ _ Hst.
  destruct (levelStep_cases config now transaction product i partner st)
    as [-> | (tier & c & _ & Hc & Hpos & ->)]; [exact Hst|].
  cbn [ls_commissions]. apply Forall_app. split; [exact Hst|].
  constructor; [|constructor].
  apply calculateTierCommission_some in Hc.
  destruct Hc as (_ & _ & _ & _ & _ & raw & Hraw & _).
  rewrite Hraw in *. now apply round2_positive.
Qed.

Lemma calculateCommissions_amounts_positive_hundredths_witness :
  exists d,
    calculateCommissions (ex_config [ex_tier] []) ex_now ex_transaction
                         [ex_sponsor] = inr d
    /\ Forall (fun c => exists k : Z,
                   (0 < k)%Z /\ commissionAmount c = inject_Z k / 100)
              (commissions d).
Proof.
  eexists. split; [vm_compute; reflexivity|].
  apply (calculateCommissions_amounts_positive_hundredths
           (ex_config [ex_tier] []) ex_now ex_transaction [ex_sponsor]).
  vm_compute. reflexivity.
Defined.

Lemma sorted_snoc (l : list Z) (x : Z) :
  StronglySorted Z.lt l -> Forall (fun y => (y < x)%Z) l ->
  StronglySorted Z.lt (l ++ [x]).
Proof.
  induction l as [|a l IH]; intros Hs Hall; cbn.
  - constructor; constructor.
  - inversion Hs as [|? ? Hs' Ha]; subst.
    inversion Hall as [|? ? Hax Hall']; subst.
    constructor; [apply IH; assumption|].
    apply Forall_app. split; [exact Ha|]. constructor; [exact Hax|constructor].
Qed.

(** X3. In a returned distribution the commissions are listed by strictly
    increasing level; the commission of level [n+1] goes to the partner at
    position [n] of the upline, with [n] below [maxHierarchyLevels], is
    computed on the transaction's amount in the transaction's currency,
    and bears the name of the tier [findApplicableTier] selects for that
    partner at that level. So each upline position is paid at most once
    and nobody outside the first [maxHierarchyLevels] positions is paid. *)
Theorem calculateCommissions_one_commission_per_level :
  forall (config : Config) (now : Date) (transaction : Transaction)
         (partnerHierarchy : list PartnerHierarchyNode)
         (d : CommissionDistribution),
    calculateCommissions config now transaction partnerHierarchy = inr d ->
    StronglySorted Z.lt (map cr_level (commissions d))
    /\ Forall (fun c =>
                 exists (n : nat) (partner : PartnerHierarchyNode)
                        (tier : CommissionTier),
                   cr_level c = (Z.of_nat n + 1)%Z
                   /\ nth_error partnerHierarchy n = Some partner
                   /\ (Z.of_nat n < maxHierarchyLevels config)%Z
                   /\ cr_partnerId c = node_id partner
                   /\ cr_baseAmount c = amount transaction
                   /\ cr_currency c = tx_currency transaction
                   /\ findApplicableTier config now partner (cr_level c)
                      = Some tier
                   /\ cr_tierName c = tier_name tier)
              (commissions d).
Proof.
  intros config now transaction h d H.
  destruct (calculateCommissions_cases _ _ _ _ _ H)
    as [-> | (product & _ & _ & -> & _)];
    [split; constructor|].
  set (P := fun c : CommissionResult =>
              exists (n : nat) (partner : PartnerHierarchyNode)
                     (tier : CommissionTier),
                cr_level c = (Z.of_nat n + 1)%Z
                /\ nth_error h n = Some partner
                /\ (Z.of_nat n < maxHierarchyLevels config)%Z
                /\ cr_partnerId c = node_id partner
                /\ cr_baseAmount c = amount transaction
                /\ cr_currency c = tx_currency transaction
                /\ findApplicableTier config now partner (cr_level c) = Some tier
                /\ cr_tierName c = tier_name tier).
  destruct (levelLoop_invariant config now transaction product h
              (fun i st =>
                 StronglySorted Z.lt (map cr_level (ls_commissions st))
                 /\ Forall (fun c => (cr_level c <= Z.of_nat i)%Z)
                           (ls_commissions st)
                 /\ Forall P (ls_commissions st)))
    with (st0 := mkLoop [] [] 0) as [n (Hs & _ & HP)].
  - intros i partner st Hnth Hmax (Hs & Hle & HP).
    destruct (levelStep_cases config now transaction product i partner st)
      as [-> | (tier & c & Htier & Hc & _ & ->)].
    + split; [exact Hs|]. split; [|exact HP].
      eapply Forall_impl; [|exact Hle]. cbn. intros a Ha. lia.
    + apply calculateTierCommission_some in Hc.
      destruct Hc as (Hid & Hlvl & Hname & Hbase & Hcur & _).
      cbn [ls_commissions]. split; [|split].
      * rewrite map_app. cbn [map]. apply sorted_snoc; [exact Hs|].
        apply Forall_map. eapply Forall_impl; [|exact Hle].
        cbn. intros a Ha. lia.
      * apply Forall_app. split.
        -- eapply Forall_impl; [|exact Hle]. cbn. intros a Ha. lia.
        -- constructor; [lia|constructor].
      * apply Forall_app. split; [exact HP|].
        constructor; [|constructor].
        exists i, partner, tier. rewrite Hlvl. repeat split; auto.
  - repeat split; constructor.
  - split; [exact Hs|exact HP].
Qed.

Lemma calculateCommissions_one_commission_per_level_witness :
  exists d,
    calculateCommissions (ex_config [ex_tier] []) ex_now ex_transaction
                         [ex_sponsor] = inr d
    /\ StronglySorted Z.lt (map cr_level (commissions d)).
Proof.
  eexists. split; [vm_compute; reflexivity|].
  apply (calculateCommissions_one_commission_per_level
           (ex_config [ex_tier] []) ex_now ex_transaction [ex_sponsor]).
  vm_compute. reflexivity.
Defined.

Lemma levelLoop_origin (config : Config) (now : Date)
      (transaction : Transaction) (product : ProductConfig)
      (h : list PartnerHierarchyNode) :
  let st := levelLoop config now transaction product 0 h (mkLoop [] [] 0) in
  Forall (commissionOrigin config now transaction product h) (ls_commissions st)
  /\ Forall (bonusOrigin config now transaction h (ls_commissions st))
            (ls_bonuses st).
Proof.
  cbn zeta.
  destruct (levelLoop_invariant config now transaction product h
              (fun _ st =>
                 Forall (commissionOrigin config now transaction product h)
                        (ls_commissions st)
                 /\ Forall (bonusOrigin config now transaction h
                                        (ls_commissions st))
                           (ls_bonuses st)))
    with (st0 := mkLoop [] [] 0) as [n Hn]; [|split; constructor|exact Hn].
  intros i partner st Hnth Hmax [Hc Hb].
  destruct (levelStep_cases config now transaction product i partner st)
    as [-> | (tier & c & Htier & Hcalc & Hpos & ->)]; [split; assumption|].
  cbn [ls_commissions ls_bonuses]. split.
  - apply Forall_app. split; [exact Hc|]. constructor; [|constructor].
    exists i, partner, tier. repeat split; assumption.
  - apply Forall_app. split.
    + eapply Forall_impl; [|exact Hb].
      intros b (p & t & c0 & Hp & Hin & Hid & Hbin).
      exists p, t, c0. repeat split; auto. apply in_or_app. now left.
    + apply Forall_forall. intros b Hbin.
      exists partner, tier, c. repeat split; auto.
      * eapply nth_error_In; eauto.
      * apply in_or_app. right. now left.
      * apply calculateTierCommission_some in Hcalc. tauto.
Qed.

Lemma calculateBonuses_in (config : Config) (now : Date)
      (partner : PartnerHierarchyNode) (transaction : Transaction)
      (tier : CommissionTier) (b : BonusResult) :
  In b (calculateBonuses config now partner transaction tier) ->
  br_partnerId b = node_id partner
  /\ 0 <= bonus_amount b
  /\ exists rule,
       In rule (bonuses config)
       /\ br_bonusId b = bonus_id rule
       /\ isPartnerQualified now partner
            (withCriteria tier (eligibilityCriteria rule)) = true
       /\ isBonusTriggerMet partner rule transaction = true.
Proof.
  unfold calculateBonuses. rewrite in_flat_map.
  intros (rule & Hrule & Hb). unfold bonusFor in Hb.
  destruct (isPartnerQualified now partner _) eqn:Eq; cbn [negb] in Hb;
    [|destruct Hb].
  destruct (isBonusTriggerMet partner rule transaction) eqn:Et;
    cbn [negb] in Hb; [|destruct Hb].
  match type of Hb with
  | In _ (if Qlt_bool 0 ?x then _ else _) =>
      destruct (Qlt_bool 0 x) eqn:Ex; [|destruct Hb]
  end.
  destruct Hb as [<-|[]]. cbn [br_partnerId bonus_amount br_bonusId].
  split; [reflexivity|]. split.
  - apply round2_nonneg, Qlt_le_weak. now apply Qlt_bool_iff.
  - exists rule. repeat split; auto.
Qed.

Lemma sumOf_cons {A} (f : A -> Q) (x : A) (xs : list A) :
  sumOf f (x :: xs) == f x + sumOf f xs.
Proof.
  unfold sumOf at 1. cbn [fold_left]. rewrite sum_acc. ring.
Qed.

Lemma sumOf_covers {A} (f : A -> Q) (xs : list A) :
  Forall (fun x => 0 <= f x) xs ->
  0 <= sumOf f xs /\ Forall (fun x => f x <= sumOf f xs) xs.
Proof.
  induction xs as [|x xs IH]; intros H.
  - split; [apply Qle_refl|constructor].
  - inversion H as [|? ? Hx Hxs]; subst. destruct (IH Hxs) as [H0 Hall].
    split; [rewrite sumOf_cons; lra|].
    constructor; [rewrite sumOf_cons; lra|].
    eapply Forall_impl; [|exact Hall].
    intros y Hy. cbn beta in Hy. rewrite sumOf_cons. lra.
Qed.

Lemma calculateCommissions_bonuses_origin (config : Config) (now : Date)
      (transaction : Transaction) (h : list PartnerHierarchyNode)
      (d : CommissionDistribution) :
  calculateCommissions config now transaction h = inr d ->
  Forall (fun b => 0 <= bonus_amount b /\ exists c, In c (commissions d))
         (bonuses_of d).
Proof.
  intros H.
  destruct (calculateCommissions_cases _ _ _ _ _ H)
    as [-> | (product & _ & _ & Hc & Hb)]; [constructor|].
  rewrite Hc, Hb.
  destruct (levelLoop_origin config now transaction product h) as [_ HB].
  eapply Forall_impl; [|exact HB].
  intros b (partner & tier & c & _ & Hin & _ & Hbin).
  apply calculateBonuses_in in Hbin. destruct Hbin as (_ & Hnn & _).
  split; [exact Hnn|now exists c].
Qed.

(** X1. The total of a distribution returned by [calculateCommissions]
    covers every payout it lists: no commission amount and no bonus
    amount exceeds [totalCommissionPaid]. The total is zero exactly when
    no commission is paid, and then no bonus is listed either. *)
Theorem calculateCommissions_total_covers_payouts :
  forall (config : Config) (now : Date) (transaction : Transaction)
         (partnerHierarchy : list PartnerHierarchyNode)
         (d : CommissionDistribution),
    calculateCommissions config now transaction partnerHierarchy = inr d ->
    Forall (fun c => commissionAmount c <= totalCommissionPaid d)
           (commissions d)
    /\ Forall (fun b => bonus_amount b <= totalCommissionPaid d)
              (bonuses_of d)
    /\ (totalCommissionPaid d == 0 <-> commissions d = [])
    /\ (commissions d = [] -> bonuses_of d = []).
Proof.
  intros config now transaction h d H.
  pose proof (calculateCommissions_total config now transaction h d H) as Ht.
  pose proof (calculateCommissions_commissions_positive
                config now transaction h d H) as Hpos.
  pose proof (calculateCommissions_bonuses_origin
                config now transaction h d H) as Hbo.
  destruct (sumOf_covers commissionAmount (commissions d)) as [Hc0 Hc].
  { eapply Forall_impl; [|exact Hpos]. intros c Hc. now apply Qlt_le_weak. }
  destruct (sumOf_covers bonus_amount (bonuses_of d)) as [Hb0 Hb].
  { eapply Forall_impl; [|exact Hbo]. intros b [Hb _]. exact Hb. }
  assert (Hnone : commissions d = [] -> bonuses_of d = []).
  { intros E. destruct (bonuses_of d) as [|b bs]; [reflexivity|].
    inversion Hbo as [|? ? [_ [c Hin]] _]; subst.
    rewrite E in Hin. destruct Hin. }
  split; [|split; [|split; [|exact Hnone]]].
  - eapply Forall_impl; [|exact Hc]. intros c Hle. cbn beta in Hle. lra.
  - eapply Forall_impl; [|exact Hb]. intros b Hle. cbn beta in Hle. lra.
  - split.
    + intros E0. destruct (commissions d) as [|c cs] eqn:Ec; [reflexivity|].
      exfalso. inversion Hpos as [|? ? Hcpos _]; subst.
      inversion Hc as [|? ? Hcle _]; subst. lra.
    + intros E. rewrite Ht, E, (Hnone E). reflexivity.
Qed.

Lemma calculateCommissions_total_covers_payouts_witness :
  exists d,
    calculateCommissions (ex_config [ex_tier] [ex_bonus_ten]) ex_now
                         ex_transaction [ex_sponsor] = inr d
    /\ Forall (fun c => commissionAmount c <= totalCommissionPaid d)
              (commissions d)
    /\ commissions d <> [].
Proof.
  eexists. split; [vm_compute; reflexivity|].
  split; [|discriminate].
  apply (calculateCommissions_total_covers_payouts
           (ex_config [ex_tier] [ex_bonus_ten]) ex_now ex_transaction
           [ex_sponsor]).
  vm_compute. reflexivity.
Defined.

(** X4. Bonuses go only to partners who are paid a commission in the same
    distribution: every [BonusResult] names a partner of the upline who has
    a [CommissionResult] in the distribution, stems from a configured bonus
    rule whose eligibility criteria the partner meets and whose trigger is
    met, and has a non-negative amount. *)
Theorem calculateCommissions_bonuses_follow_commissions :
  forall (config : Config) (now : Date) (transaction : Transaction)
         (partnerHierarchy : list PartnerHierarchyNode)
         (d : CommissionDistribution),
    calculateCommissions config now transaction partnerHierarchy = inr d ->
    Forall (fun b =>
              0 <= bonus_amount b
              /\ exists (partner : PartnerHierarchyNode) (c : CommissionResult)
                        (rule : BonusRule),
                   In partner partnerHierarchy
                   /\ br_partnerId b = node_id partner
                   /\ In c (commissions d)
                   /\ cr_partnerId c = br_partnerId b
                   /\ In rule (bonuses config)
                   /\ br_bonusId b = bonus_id rule
                   /\ (forall tier,
                          isPartnerQualified now partner
                            (withCriteria tier (eligibilityCriteria rule))
                          = true)
                   /\ isBonusTriggerMet partner rule transaction = true)
           (bonuses_of d).
Proof.
  intros config now transaction h d H.
  destruct (calculateCommissions_cases _ _ _ _ _ H)
    as [-> | (product & _ & _ & Hc & Hb)]; [constructor|].
  rewrite Hc, Hb.
  destruct (levelLoop_origin config now transaction product h) as [_ HB].
  eapply Forall_impl; [|exact HB].
  intros b (partner & tier & c & Hp & Hin & Hid & Hbin).
  apply calculateBonuses_in in Hbin.
  destruct Hbin as (Hbid & Hnn & rule & Hrule & Hrid & Hq & Htrig).
  split; [exact Hnn|].
  exists partner, c, rule.
  split; [exact Hp|]. split; [exact Hbid|]. split; [exact Hin|].
  split; [congruence|]. split; [exact Hrule|]. split; [exact Hrid|].
  split; [|exact Htrig].
  intros tier'. exact Hq.
Qed.

Lemma calculateCommissions_bonuses_follow_commissions_witness :
  exists d,
    calculateCommissions (ex_config [ex_tier] [ex_bonus_ten]) ex_now
                         ex_transaction [ex_sponsor] = inr d
    /\ Forall (fun b => 0 <= bonus_amount b) (bonuses_of d).
Proof.
  eexists. split; [vm_compute; reflexivity|].
  eapply Forall_impl;
    [|apply (calculateCommissions_bonuses_follow_commissions
               (ex_config [ex_tier] [ex_bonus_ten]) ex_now ex_transaction
               [ex_sponsor]); vm_compute; reflexivity].
  intros b [Hb _]. exact Hb.
Defined.

(** X5. No commission of a returned distribution exceeds a configured
    commission cap that applies to its level (by [applicableLevels] or
    [applicableToAll]): the amount is at most the cap's [maxAmount] rounded
    to two decimals. *)
Theorem calculateCommissions_respects_caps :
  forall (config : Config) (now : Date) (transaction : Transaction)
         (partnerHierarchy : list PartnerHierarchyNode)
         (d : CommissionDistribution) (cs : list CommissionCap),
    calculateCommissions config now transaction partnerHierarchy = inr d ->
    caps config = Some cs ->
    Forall (fun c =>
              forall (cap : CommissionCap) (p : PartnerHierarchyNode),
                In cap cs ->
                isCapApplicable cap p (cr_level c) = true ->
                commissionAmount c <= round2 (maxAmount cap))
           (commissions d).
Proof.
  intros config now transaction h d cs H Hcaps.
  destruct (calculateCommissions_cases _ _ _ _ _ H)
    as [-> | (product & _ & _ & Hc & _)]; [constructor|].
  rewrite Hc.
  destruct (levelLoop_origin config now transaction product h) as [HC _].
  eapply Forall_impl; [|exact HC].
  intros c (n & partner & tier & _ & _ & _ & Hcalc & _) cap p Hin Happ.
  apply calculateTierCommission_some in Hcalc.
  destruct Hcalc as (_ & Hlvl & _ & _ & _ & raw & Hraw & Hcap & _).
  rewrite Hraw. apply round2_mono. apply Hcap.
  - rewrite Hcaps. exact Hin.
  - rewrite <- Hlvl. exact Happ.
Qed.

Lemma calculateCommissions_respects_caps_witness :
  exists d,
    calculateCommissions ex_config_capped ex_now ex_transaction
                         [ex_sponsor; ex_grand_sponsor] = inr d
    /\ Forall2 Qeq (map commissionAmount (commissions d)) [100; 500]
    /\ Forall (fun c =>
                 forall (cap : CommissionCap) (p : PartnerHierarchyNode),
                   In cap [ex_cap_level2] ->
                   isCapApplicable cap p (cr_level c) = true ->
                   commissionAmount c <= round2 (maxAmount cap))
              (commissions d).
Proof.
  eexists. split; [vm_compute; reflexivity|]. split.
  - repeat constructor.
  - apply (calculateCommissions_respects_caps
             ex_config_capped ex_now ex_transaction
             [ex_sponsor; ex_grand_sponsor]);
      vm_compute; reflexivity.
Defined.





(** *** Residual commissions *)

Lemma calculateCommissions_inl (config : Config) (now : Date)
      (transaction : Transaction) (h : list PartnerHierarchyNode) (e : Error) :
  calculateCommissions config now transaction h = inl e
  <-> e = InvalidAmount /\ amount transaction <= 0.
Proof.
  unfold calculateCommissions.
  destruct (Qle_bool (amount transaction) 0) eqn:E.
  - apply Qle_bool_iff in E. split.
    + intros H. injection H as <-. split; [reflexivity|exact E].
    + intros [-> _]. reflexivity.
  - split.
    + destruct (findProduct config transaction) as [p|];
        [destruct (commissionEligible p)|]; discriminate.
    + intros [_ H]. apply Qle_bool_iff in H. congruence.
Qed.

Lemma sumOf_scaled (l : list CommissionResult) :
  sumOf commissionAmount (map scaleCommission l)
  == (1 # 2) * sumOf commissionAmount l.
Proof.
  induction l as [|c l IH].
  - unfold sumOf. cbn. ring.
  - unfold sumOf in *. cbn [map fold_left].
    rewrite (sum_acc commissionAmount (map scaleCommission l)).
    rewrite (sum_acc commissionAmount l).
    unfold sumOf. rewrite IH. cbn [scaleCommission commissionAmount].
    unfold residualFactor. ring.
Qed.

Lemma residualLoop_inl (config : Config) (now : Date)
      (h : list PartnerHierarchyNode) (subscriptions : list Subscription)
      (e : Error) :
  forall results,
    residualLoop config now subscriptions h results = inl e
    <-> e = InvalidAmount
        /\ exists s, In s subscriptions
                     /\ inResidualWindow config now s = true
                     /\ monthlyAmount s <= 0.
Proof.
  induction subscriptions as [|sub rest IH]; intros results;
    cbn [residualLoop].
  - split; [discriminate|]. intros [_ (s & [] & _)].
  - destruct (residualPeriod config
              <? calculateMonthsInBusiness now (startDate sub))%Z eqn:W.
    + rewrite IH. split; intros [He (s & Hin & Hw & Ha)]; split; auto.
      * exists s. split; [now right|]. auto.
      * destruct Hin as [<-|Hin].
        -- unfold inResidualWindow in Hw. rewrite W in Hw. discriminate.
        -- exists s. auto.
    + destruct (calculateCommissions config now (residualTransaction now sub) h)
        as [e'|d] eqn:Ec.
      * apply calculateCommissions_inl in Ec. destruct Ec as [-> Ha].
        split.
        -- intros H. injection H as <-. split; [reflexivity|].
           exists sub. split; [now left|]. split; [|exact Ha].
           unfold inResidualWindow. now rewrite W.
        -- intros [-> _]. reflexivity.
      * rewrite IH. split; intros [He (s & Hin & Hw & Ha)]; split; auto.
        -- exists s. split; [now right|]. auto.
        -- destruct Hin as [<-|Hin]; [|exists s; auto].
           exfalso.
           assert (Hi : calculateCommissions config now
                          (residualTransaction now sub) h = inl InvalidAmount).
           { apply calculateCommissions_inl. split; [reflexivity|exact Ha]. }
           congruence.
Qed.

(** X7. [calculateResidualCommissions] fails exactly when residual income
    is enabled and some subscription still within the residual period has
    a non-positive monthly amount; the failure is [InvalidAmount]. A
    subscription outside the period never makes it fail. *)
Theorem calculateResidualCommissions_fails_iff :
  forall (config : Config) (now : Date) (subscriptions : list Subscription)
         (partnerHierarchy : list PartnerHierarchyNode) (e : Error),
    calculateResidualCommissions config now subscriptions partnerHierarchy
    = inl e
    <-> e = InvalidAmount
        /\ residualEnabled config = true
        /\ exists s, In s subscriptions
                     /\ inResidualWindow config now s = true
                     /\ monthlyAmount s <= 0.
Proof.
  intros config now subscriptions h e. unfold calculateResidualCommissions.
  destruct (residualEnabled config); cbn [negb].
  - rewrite residualLoop_inl. tauto.
  - split; [discriminate|]. intros (_ & H & _). discriminate.
Qed.

Lemma calculateResidualCommissions_fails_iff_witness :
  calculateResidualCommissions (ex_config [ex_tier] []) ex_now
                               [ex_subscription_old; ex_subscription_free]
                               [ex_sponsor]
  = inl InvalidAmount.
Proof.
  apply (calculateResidualCommissions_fails_iff
           (ex_config [ex_tier] []) ex_now
           [ex_subscription_old; ex_subscription_free] [ex_sponsor]).
  split; [reflexivity|]. split; [reflexivity|].
  exists ex_subscription_free.
  split; [right; left; reflexivity|]. split; [reflexivity|discriminate].
Defined.

Lemma calculateCommissions_transactionId (config : Config) (now : Date)
      (transaction : Transaction) (h : list PartnerHierarchyNode)
      (d : CommissionDistribution) :
  calculateCommissions config now transaction h = inr d ->
  transactionId d = tx_id transaction /\ processingTimestamp d = now.
Proof.
  unfold calculateCommissions.
  destruct (Qle_bool (amount transaction) 0); [discriminate|].
  destruct (findProduct config transaction) as [p|];
    [destruct (commissionEligible p)|];
    intros H; injection H as <-; split; reflexivity.
Qed.

Lemma residualLoop_inr (config : Config) (now : Date)
      (h : list PartnerHierarchyNode) (subscriptions : list Subscription) :
  forall results out,
    residualLoop config now subscriptions h results = inr out ->
    exists out',
      out = results ++ out'
      /\ Forall2 (fun s d =>
                    exists base,
                      calculateCommissions config now
                                           (residualTransaction now s) h
                      = inr base
                      /\ residualOf base d)
                 (filter (inResidualWindow config now) subscriptions) out'.
Proof.
  induction subscriptions as [|sub rest IH]; intros results out;
    cbn [residualLoop filter].
  - intros H. injection H as <-. exists []. split; [now rewrite app_nil_r|].
    constructor.
  - unfold inResidualWindow at 1.
    destruct (residualPeriod config
              <? calculateMonthsInBusiness now (startDate sub))%Z; cbn [negb].
    + apply IH.
    + destruct (calculateCommissions config now (residualTransaction now sub) h)
        as [e|base] eqn:Ec; [discriminate|].
      intros H.
      match type of H with
      | residualLoop _ _ _ _ (_ ++ [?d0]) = _ => set (d' := d0) in *
      end.
      destruct (IH _ _ H) as (out' & E & HF).
      exists (d' :: out'). split; [rewrite E, <- app_assoc; reflexivity|].
      constructor; [|exact HF].
      exists base. split; [exact Ec|].
      unfold residualOf, d'. cbn. repeat split; try reflexivity.
      apply sumOf_scaled.
Qed.

(** X8. When [calculateResidualCommissions] succeeds it returns, in order,
    one distribution per subscription still within the residual period
    (none at all when residual income is disabled). Each is the
    distribution [calculateCommissions] gives for a payment of the
    subscription's monthly amount, with every commission amount halved,
    the bonuses kept as they are, and as total half the sum of the
    unscaled commissions; its transaction id is
    [residual_<subscription id>_<clock reading>]. *)
Theorem calculateResidualCommissions_halves_commissions :
  forall (config : Config) (now : Date) (subscriptions : list Subscription)
         (partnerHierarchy : list PartnerHierarchyNode)
         (out : list CommissionDistribution),
    calculateResidualCommissions config now subscriptions partnerHierarchy
    = inr out ->
    (residualEnabled config = false -> out = [])
    /\ (residualEnabled config = true ->
        Forall2 (fun s d =>
                   transactionId d
                   = ("residual_" ++ sub_id s ++ "_"
                      ++ string_of_Z (getTime now))%string
                   /\ exists base,
                        calculateCommissions config now
                          (residualTransaction now s) partnerHierarchy
                        = inr base
                        /\ residualOf base d)
                (filter (inResidualWindow config now) subscriptions) out).
Proof.
  intros config now subscriptions h out. unfold calculateResidualCommissions.
  destruct (residualEnabled config); cbn [negb].
  - intros H. split; [discriminate|]. intros _.
    destruct (residualLoop_inr _ _ _ _ _ _ H) as (out' & -> & HF).
    cbn [app]. eapply Forall2_impl; [|exact HF].
    intros s d (base & Hb & Hr). split; [|exists base; split; assumption].
    destruct Hr as (Hid & _). rewrite Hid.
    apply calculateCommissions_transactionId in Hb. destruct Hb as [-> _].
    reflexivity.
  - intros H. injection H as <-. split; [reflexivity|discriminate].
Qed.

Lemma calculateResidualCommissions_halves_commissions_witness :
  exists out,
    calculateResidualCommissions (ex_config [ex_tier] [ex_bonus_ten]) ex_now
                                 [ex_subscription_old; ex_subscription]
                                 [ex_sponsor] = inr out
    /\ Forall2 (fun s d =>
                  transactionId d
                  = ("residual_" ++ sub_id s ++ "_"
                     ++ string_of_Z (getTime ex_now))%string)
               [ex_subscription] out.
Proof.
  eexists. split; [vm_compute; reflexivity|].
  eapply Forall2_impl;
    [|apply (calculateResidualCommissions_halves_commissions
               (ex_config [ex_tier] [ex_bonus_ten]) ex_now
               [ex_subscription_old; ex_subscription] [ex_sponsor]);
      vm_compute; reflexivity].
  intros s d [H _]. exact H.
Defined.

(** *** Qualification *)

Lemma Qlt_bool_false_le (a b : Q) : Qlt_bool a b = false <-> b <= a.
Proof.
  unfold Qlt_bool. rewrite negb_false_iff. apply Qle_bool_iff.
Qed.

Lemma criterion_monotone (criterion : option Q) (have have' : Q) :
  have <= have' ->
  match truthy_num criterion with
  | Some v => Qlt_bool have v
  | None => false
  end = false ->
  match truthy_num criterion with
  | Some v => Qlt_bool have' v
  | None => false
  end = false.
Proof.
  intros Hle. destruct (truthy_num criterion) as [v|]; [|auto].
  rewrite !Qlt_bool_false_le. intros H. now apply Qle_trans with have.
Qed.

(** X28. Qualification for a tier is monotone: a partner who qualifies
    still qualifies at any reading of the clock, and so does any other
    partner, with personal volume, team volume, active downline and
    months in business at least as large and every certification the
    first one holds. A tier without criteria qualifies every partner. *)
Theorem isPartnerQualified_monotone :
  forall (now now' : Date) (partner partner' : PartnerHierarchyNode)
         (tier : CommissionTier),
    personalVolume partner <= personalVolume partner' ->
    teamVolume partner <= teamVolume partner' ->
    activeDownline partner <= activeDownline partner' ->
    (calculateMonthsInBusiness now (joinDate partner)
     <= calculateMonthsInBusiness now' (joinDate partner'))%Z ->
    (forall have cert,
        certifications partner = Some have ->
        arr_includes have cert = true ->
        exists have', certifications partner' = Some have'
                      /\ arr_includes have' cert = true) ->
    (isPartnerQualified now partner tier = true ->
     isPartnerQualified now' partner' tier = true)
    /\ (qualificationCriteria tier = noCriteria ->
        isPartnerQualified now partner tier = true).
Proof.
  intros now now' p p' tier Hpv Htv Had Hm Hcert. split.
  - unfold isPartnerQualified. cbn zeta.
    set (c := qualificationCriteria tier).
    destruct (match truthy_num (qc_personalVolume c) with
              | Some v => Qlt_bool (personalVolume p) v
              | None => false
              end) eqn:E1; [discriminate|].
    rewrite (criterion_monotone _ _ _ Hpv E1).
    destruct (match truthy_num (qc_teamVolume c) with
              | Some v => Qlt_bool (teamVolume p) v
              | None => false
              end) eqn:E2; [discriminate|].
    rewrite (criterion_monotone _ _ _ Htv E2).
    destruct (match truthy_num (qc_activeDownline c) with
              | Some v => Qlt_bool (activeDownline p) v
              | None => false
              end) eqn:E3; [discriminate|].
    rewrite (criterion_monotone _ _ _ Had E3).
    destruct (match truthy_num (qc_timeInBusiness c) with
              | Some v =>
                  Qlt_bool
                    (inject_Z (calculateMonthsInBusiness now (joinDate p))) v
              | None => false
              end) eqn:E4; [discriminate|].
    assert (Hq : inject_Z (calculateMonthsInBusiness now (joinDate p))
                 <= inject_Z (calculateMonthsInBusiness now' (joinDate p')))
      by (rewrite <- Zle_Qle; exact Hm).
    rewrite (criterion_monotone _ _ _ Hq E4).
    destruct (qc_certificationRequired c) as [[|cert certs]|]; auto.
    rewrite !forallb_forall. intros H x Hx. specialize (H x Hx).
    destruct (certifications p) as [have|]; [|discriminate H].
    destruct (Hcert have x eq_refl H) as (have' & -> & Hin). exact Hin.
  - intros E. unfold isPartnerQualified. rewrite E. reflexivity.
Qed.

Lemma isPartnerQualified_monotone_witness :
  isPartnerQualified ex_later ex_grand_sponsor ex_tier_tenure = true.
Proof.
  refine (proj1 (isPartnerQualified_monotone ex_now ex_later ex_sponsor
                   ex_grand_sponsor ex_tier_tenure _ _ _ _ _) _).
  - vm_compute. discriminate.
  - vm_compute. discriminate.
  - vm_compute. discriminate.
  - vm_compute. discriminate.
  - intros have cert H. discriminate H.
  - vm_compute. reflexivity.
Defined.

(** *** The commission as a percentage *)

(** The percentage of 3 in 20000 is computed as 0.01: the product of the
    rounded quotient and 10000 falls just below 1.5. *)
Example percentage_below_a_tie :
  calculateCommissionPercentage 3 20000 = Some (binary64 (1 # 100))
  /\ num_mul (num_div 3 20000) 10000 < 3 # 2.
Proof. split; vm_compute; reflexivity. Qed.

(** X30. For a commission between zero and a positive transaction
    [calculateCommissionPercentage] gives the double nearest to a whole
    number [k] of hundredths, with [k] between 0 and 10000 and within a
    half plus [2^-38] of ten thousand times the quotient; so the result
    lies between 0 and 100, within half a hundredth plus [2^-43] of the
    exact percentage. For a zero transaction there is no finite
    result. *)
Theorem calculateCommissionPercentage_rounds_to_hundredths :
  forall (commission transaction : Q),
    (transaction == 0 ->
     calculateCommissionPercentage commission transaction = None)
    /\ (0 < transaction -> 0 <= commission <= transaction ->
        exists k : Z,
          calculateCommissionPercentage commission transaction
          = Some (num_div (inject_Z k) 100)
          /\ (0 <= k <= 10000)%Z
          /\ commission / transaction * 10000 - ((1 # 2) + 2 ^ (-38))
             <= inject_Z k
          /\ inject_Z k
             <= commission / transaction * 10000 + ((1 # 2) + 2 ^ (-38))
          /\ 0 <= num_div (inject_Z k) 100 <= 100
          /\ commission / transaction * 100 - ((1 # 200) + 2 ^ (-43))
             <= num_div (inject_Z k) 100
          /\ num_div (inject_Z k) 100
             <= commission / transaction * 100 + ((1 # 200) + 2 ^ (-43))).
Proof.
  intros c t. unfold calculateCommissionPercentage. split.
  - intros H. apply Qeq_bool_iff in H. now rewrite H.
  - intros Ht [H0 H1].
    destruct (Qeq_bool t 0) eqn:E; [apply Qeq_bool_iff in E; lra|].
    assert (Hq : 0 <= c / t <= 1).
    { split.
      - apply Qle_shift_div_l; [exact Ht|]. lra.
      - apply Qle_shift_div_r; [exact Ht|]. lra. }
    unfold num_mul, num_div, Math_round.
    revert Hq. generalize (c / t). intros q Hq.
    (* first quotient *)
    destruct (binary64_error q) as [A1 A2]; [lra|].
    destruct (binary64_within 0 1 q) as [B1 B2]; try lia.
    { change (inject_Z 0) with 0. change (inject_Z 1) with 1. exact Hq. }
    change (inject_Z 0) with 0 in B1. change (inject_Z 1) with 1 in B2.
    revert A1 A2 B1 B2. generalize (binary64 q). intros q1 A1 A2 B1 B2.
    (* the product *)
    destruct (binary64_error (q1 * 10000)) as [C1 C2]; [lra|].
    destruct (binary64_within 0 10000 (q1 * 10000)) as [D1 D2]; try lia.
    { change (inject_Z 0) with 0. change (inject_Z 10000) with 10000. lra. }
    change (inject_Z 0) with 0 in D1. change (inject_Z 10000) with 10000 in D2.
    revert C1 C2 D1 D2. generalize (binary64 (q1 * 10000)).
    intros q2 C1 C2 D1 D2.
    (* the rounding to a whole number *)
    pose proof (Qfloor_le (q2 + (1 # 2))) as F1.
    pose proof (Qlt_floor (q2 + (1 # 2))) as F2.
    rewrite inject_Z_plus in F2. change (inject_Z 1) with 1 in F2.
    set (k := Qfloor (q2 + (1 # 2))) in *.
    assert (Hk : (0 <= k <= 10000)%Z).
    { split.
      - apply Z.le_trans with (Qfloor (1 # 2)); [discriminate|].
        apply Qfloor_resp_le. lra.
      - apply Z.le_trans with (Qfloor (10000 + (1 # 2))); [|discriminate].
        apply Qfloor_resp_le. lra. }
    assert (Hk0 : 0 <= inject_Z k <= 10000).
    { change 0 with (inject_Z 0). change 10000 with (inject_Z 10000).
      rewrite <- !Zle_Qle. exact Hk. }
    exists k. split; [reflexivity|]. split; [exact Hk|].
    assert (Hh : 0 <= inject_Z k / 100 <= 100).
    { unfold Qdiv. change (/ 100) with (1 # 100). lra. }
    destruct (binary64_within 0 100 (inject_Z k / 100)) as [G1 G2];
      try lia.
    { change (inject_Z 0) with 0. change (inject_Z 100) with 100. exact Hh. }
    change (inject_Z 0) with 0 in G1. change (inject_Z 100) with 100 in G2.
    destruct (binary64_error (inject_Z k / 100)) as [E1 E2]; [lra|].
    assert (N1 : 20000 * 2 ^ (-53) + 10001 * 2 ^ (-1075) <= 2 ^ (-38))
      by (vm_compute; discriminate).
    assert (N2 : 100 * 2 ^ (-53) + 2 ^ (-1075) + 2 ^ (-38) * (1 # 100)
                 <= 2 ^ (-43))
      by (vm_compute; discriminate).
    assert (P53 : 0 < 2 ^ (-53)) by apply pow2_pos.
    assert (P1075 : 0 < 2 ^ (-1075)) by apply pow2_pos.
    revert Hh G1 G2 E1 E2. unfold Qdiv. change (/ 100) with (1 # 100).
    generalize (binary64 (inject_Z k * (1 # 100))).
    revert N1 N2 P53 P1075 A1 A2 C1 C2.
    generalize (2 ^ (-53)) (2 ^ (-1075)) (2 ^ (-38)) (2 ^ (-43)).
    intros e53 e1075 e38 e43 N1 N2 P53 P1075 A1 A2 C1 C2 r Hh G1 G2 E1 E2.
    assert (M1 : q * e53 <= e53) by nra.
    assert (M2 : q1 * 10000 * e53 <= 10000 * e53) by nra.
    assert (M3 : inject_Z k * (1 # 100) * e53 <= 100 * e53) by nra.
    assert (M1' : 0 <= q * e53) by nra.
    assert (M2' : 0 <= q1 * 10000 * e53) by nra.
    assert (M3' : 0 <= inject_Z k * (1 # 100) * e53) by nra.
    repeat split; try assumption; lra.
Qed.

Lemma calculateCommissionPercentage_rounds_to_hundredths_witness :
  exists k : Z,
    calculateCommissionPercentage 3 20000 = Some (num_div (inject_Z k) 100)
    /\ (0 <= k <= 10000)%Z
    /\ 0 <= num_div (inject_Z k) 100 <= 100.
Proof.
  destruct (calculateCommissionPercentage_rounds_to_hundredths 3 20000)
    as [_ H].
  destruct H as (k & E & Hk & _ & _ & Hr & _);
    [reflexivity|split; discriminate|].
  exists k. split; [exact E|]. split; [exact Hk|exact Hr].
Defined.

End CommissionSpec.

(** ** Partner hierarchy manager *)

Module HierarchySpec.

Import JS Hierarchy.
Local Open Scope string_scope.
Local Open Scope list_scope.
Local Open Scope Z_scope.

Example ex_stores_consistent :
  consistent ex_tree = true /\ consistent ex_forest = true
  /\ consistent ex_pair = true.
Proof. repeat split; vm_compute; reflexivity. Qed.

(** *** Upline order *)

Lemma upline_loop (st : Store) (ids : list string) :
  forall acc,
    fold_left (fun upline sponsorId =>
                 match store_get st sponsorId with
                 | Some sponsor => upline ++ [sponsor]
                 | None => upline
                 end) ids acc
    = acc ++ resolve st ids.
Proof.
  induction ids as [|i ids IH]; intros acc; cbn [fold_left resolve flat_map].
  - now rewrite app_nil_r.
  - rewrite IH. fold (resolve st ids).
    destruct (store_get st i); [now rewrite <- app_assoc|reflexivity].
Qed.

(** [getUplineHierarchy] returns the resolved path reversed: the last path
    element comes first. *)
Lemma getUplineHierarchy_reversed (st : Store) (partnerId : string)
      (p : Partner) :
  store_get st partnerId = Some p ->
  sponsorPath p <> "" ->
  getUplineHierarchy partnerId st
  = Ok (rev (resolve st (decodePath (sponsorPath p)))) st.
Proof.
  intros Hp Hpath. unfold getUplineHierarchy, bind, getPartner. rewrite Hp.
  destruct (String.eqb_spec (sponsorPath p) ""); [contradiction|].
  now rewrite upline_loop.
Qed.

(** C3. [getUplineHierarchy] does not return the upline root-first: for G,
    whose path "R/C" names the root R first and its immediate sponsor C
    last, the call returns C first and R last. *)
Theorem getUplineHierarchy_immediate_sponsor_first :
  exists upline,
    getUplineHierarchy "G" ex_tree = Ok upline ex_tree
    /\ option_map sponsorPath (store_get ex_tree "G") = Some "R/C"
    /\ option_map sponsorId (store_get ex_tree "G") = Some (Some "C")
    /\ option_map sponsorId (store_get ex_tree "R") = Some None
    /\ map id upline = ["C"; "R"]
    /\ option_map id (hd_error upline) = Some "C"
    /\ option_map id (hd_error (rev upline)) = Some "R".
Proof.
  eexists. split; [vm_compute; reflexivity|].
  repeat split; reflexivity.
Qed.

(** C4. The invariants do not survive the mutations. Deactivating the root
    R of the consistent hierarchy R > C > G with redistribution makes C a
    root (level 1, empty path) and leaves its child G at level 3 with path
    "R/C"; moving C under another root R2 rewrites G's path to "R2/C/G",
    which contains G's own id and has three elements at level 3. In both
    resulting stores the invariants fail. *)
Theorem mutations_break_path_invariants :
  consistent ex_tree = true
  /\ (exists st',
        deactivatePartner 10 10%nat ex_date "R" "inactive account" true ex_tree
        = Ok tt st'
        /\ option_map (fun p => (sponsorId p, sponsorPath p, level p))
                      (store_get st' "C") = Some (None, "", 1)
        /\ option_map (fun p => (sponsorId p, sponsorPath p, level p))
                      (store_get st' "G") = Some (Some "C", "R/C", 3)
        /\ option_map (levelOk st') (store_get st' "G") = Some false
        /\ option_map (pathIsChain st') (store_get st' "G") = Some false
        /\ consistent st' = false)
  /\ consistent ex_forest = true
  /\ (exists st',
        movePartner 10 10%nat "C" "R2" ex_forest = Ok tt st'
        /\ option_map (fun p => (sponsorId p, sponsorPath p, level p))
                      (store_get st' "G") = Some (Some "C", "R2/C/G", 3)
        /\ option_map pathLengthOk (store_get st' "G") = Some false
        /\ option_map pathAcyclic (store_get st' "G") = Some false
        /\ option_map validatePathWarning (store_get st' "G") = Some true
        /\ consistent st' = false).
Proof.
  split; [vm_compute; reflexivity|]. split.
  { eexists. split; [vm_compute; reflexivity|].
    repeat split; vm_compute; reflexivity. }
  split; [vm_compute; reflexivity|].
  eexists. split; [vm_compute; reflexivity|].
  repeat split; vm_compute; reflexivity.
Qed.

(** *** Store lookups after an update *)

Lemma store_get_update (st : Store) (k : string) (u : PartialPartner)
      (q : string) :
  store_get (store_update st k u) q
  = if String.eqb q k
    then option_map (fun p => spread p u) (store_get st q)
    else store_get st q.
Proof.
  unfold store_get, store_update.
  induction st as [|a st IH]; cbn [map find].
  - destruct (String.eqb q k); reflexivity.
  - destruct (String.eqb_spec (id a) k) as [Ek|Ek].
    + cbn [id spread]. destruct (String.eqb_spec (id a) q) as [Eq|Eq].
      * subst. rewrite String.eqb_refl. reflexivity.
      * exact IH.
    + destruct (String.eqb_spec (id a) q) as [Eq|Eq].
      * subst. destruct (String.eqb_spec (id a) k); [contradiction|reflexivity].
      * exact IH.
Qed.

(** *** Volume propagation along the sponsor chain *)

Lemma Chain_sameLinks (st st' : Store) (o : option string) (l : list string) :
  Chain st o l -> sameLinks st st' -> Chain st' o l.
Proof.
  intros H Hl. induction H as [o Ho | o s Ho Hs | o s sp l Ho Hs _ IH].
  - now apply chain_root.
  - apply (chain_dangling st' o s Ho).
    specialize (Hl s). rewrite Hs in Hl.
    destruct (store_get st' s); [discriminate|reflexivity].
  - specialize (Hl s). rewrite Hs in Hl.
    destruct (store_get st' s) as [sp'|] eqn:Hs'; [|discriminate].
    injection Hl as Hl. apply (chain_step st' o s sp' l Ho Hs').
    rewrite <- Hl. exact IH.
Qed.

Lemma Chain_det (st : Store) (o : option string) (l l' : list string) :
  Chain st o l -> Chain st o l' -> l = l'.
Proof.
  intros H. revert l'.
  induction H as [o Ho | o s Ho Hs | o s sp l Ho Hs _ IH]; intros l' H';
    inversion H'; subst; try reflexivity; try congruence.
  assert (s0 = s) by congruence. subst s0.
  assert (sponsor = sp) by congruence. subst sponsor.
  f_equal. now apply IH.
Qed.

Lemma Chain_suffix (st : Store) (o : option string) (l : list string)
      (x : string) (px : Partner) :
  Chain st o l -> In x l -> store_get st x = Some px ->
  exists l1 l2, l = l1 ++ x :: l2 /\ Chain st (sponsorId px) l2.
Proof.
  intros H Hin Hx.
  induction H as [o Ho | o s Ho Hs | o s sp l Ho Hs Hc IH];
    try (now destruct Hin).
  destruct Hin as [->|Hin].
  - exists [], l. split; [reflexivity|].
    assert (sp = px) by congruence. now subst.
  - destruct (IH Hin) as (l1 & l2 & -> & Hc2).
    exists (s :: l1), l2. split; [reflexivity|exact Hc2].
Qed.

Lemma Chain_not_on_own_chain (st : Store) (x : string) (px : Partner)
      (l : list string) :
  store_get st x = Some px -> Chain st (sponsorId px) l -> ~ In x l.
Proof.
  intros Hx Hc Hin.
  destruct (Chain_suffix st _ l x px Hc Hin Hx) as (l1 & l2 & Hl & Hc2).
  pose proof (Chain_det st _ _ _ Hc Hc2) as E.
  apply (f_equal (@List.length string)) in Hl.
  rewrite length_app in Hl. cbn in Hl. rewrite <- E in Hl. lia.
Qed.

Lemma Chain_NoDup (st : Store) (o : option string) (l : list string) :
  Chain st o l -> NoDup l.
Proof.
  intros H. induction H as [o Ho | o s Ho Hs | o s sp l Ho Hs Hc IH];
    try constructor; [|exact IH].
  exact (Chain_not_on_own_chain st s sp l Hs Hc).
Qed.

Lemma spread_setTeamVolume (p : Partner) (delta : Q) :
  spread p (setTeamVolume (teamVolume p + delta)) = addTeamVolume delta p.
Proof.
  unfold spread, addTeamVolume, setTeamVolume. cbn.
  destruct (lastActivityDate p); reflexivity.
Qed.

Lemma sameLinks_setTeamVolume (st : Store) (k : string) (v : Q) :
  sameLinks st (store_update st k (setTeamVolume v)).
Proof.
  intros q. rewrite store_get_update.
  destruct (String.eqb q k); [|reflexivity].
  destruct (store_get st q); reflexivity.
Qed.

Lemma propagateVolumeUpdate_chain (delta : Q) (l : list string) :
  forall (st : Store) (o : option string) (fuel : nat),
    Chain st o l -> (List.length l < fuel)%nat ->
    exists st',
      propagateVolumeUpdate fuel o delta st = Ok tt st'
      /\ (forall a, In a l ->
                    store_get st' a
                    = option_map (addTeamVolume delta) (store_get st a))
      /\ (forall q, ~ In q l -> store_get st' q = store_get st q).
Proof.
  induction l as [|s l IH]; intros st o fuel Hc Hfuel.
  - destruct fuel as [|fuel]; [cbn in Hfuel; lia|].
    exists st. split.
    + cbn [propagateVolumeUpdate]. inversion Hc as [o' Ho | o' s Ho Hs |]; subst.
      * now rewrite Ho.
      * rewrite Ho. unfold bind, getPartner. now rewrite Hs.
    + split; [intros a []|reflexivity].
  - destruct fuel as [|fuel]; [cbn in Hfuel; lia|].
    pose proof (Chain_NoDup _ _ _ Hc) as Hnd.
    inversion Hc as [| | o' s' sp l' Ho Hs Hc']; subst.
    inversion Hnd as [|? ? Hnotin Hnd']; subst.
    set (st1 := store_update st s (setTeamVolume (teamVolume sp + delta))).
    assert (Hc1 : Chain st1 (sponsorId sp) l).
    { apply (Chain_sameLinks st); [exact Hc'|apply sameLinks_setTeamVolume]. }
    destruct (IH st1 (sponsorId sp) fuel Hc1) as (st' & Hrun & Hin & Hout).
    { cbn in Hfuel. lia. }
    exists st'. split.
    + cbn [propagateVolumeUpdate]. rewrite Ho.
      unfold bind at 1. unfold getPartner at 1. rewrite Hs.
      unfold bind at 1. unfold updatePartner at 1.
      fold st1. exact Hrun.
    + split.
      * intros a [<-|Ha].
        -- rewrite (Hout s Hnotin). unfold st1. rewrite store_get_update.
           rewrite String.eqb_refl, Hs. cbn [option_map].
           now rewrite spread_setTeamVolume.
        -- rewrite (Hin a Ha). unfold st1. rewrite store_get_update.
           destruct (String.eqb_spec a s) as [->|]; [contradiction|reflexivity].
      * intros q Hq. rewrite Hout by (intros H; apply Hq; now right).
        unfold st1. rewrite store_get_update.
        destruct (String.eqb_spec q s) as [->|]; [|reflexivity].
        exfalso. apply Hq. now left.
Qed.

(** C8. [updatePartnerMetrics] never stores the update it is given. With
    R (team volume 500) sponsoring P (team volume 100), a call with a new
    team volume of 150 for P returns a record carrying 150 and adds the
    difference of 50 to R, but the stored record of P is the one it was,
    team volume 100. The same call once more finds the stale 100, takes
    the difference to be 50 again and adds it to R a second time. *)
Theorem updatePartnerMetrics_never_stores_the_update :
  exists updated st1 again st2,
    updatePartnerMetrics 3 ex_date "P" (setTeamVolume 150) ex_volumes
    = Ok updated st1
    /\ (teamVolume updated == 150)%Q
    /\ store_get st1 "P" = store_get ex_volumes "P"
    /\ option_map teamVolume (store_get st1 "P") = Some 100%Q
    /\ option_map teamVolume (store_get st1 "R")
       = Some (500 + (150 - 100))%Q
    /\ updatePartnerMetrics 3 ex_date "P" (setTeamVolume 150) st1
       = Ok again st2
    /\ option_map teamVolume (store_get st2 "P") = Some 100%Q
    /\ option_map teamVolume (store_get st2 "R")
       = Some (500 + (150 - 100) + (150 - 100))%Q.
Proof.
  eexists. eexists. eexists. eexists.
  split; [vm_compute; reflexivity|].
  split; [reflexivity|]. split; [reflexivity|]. split; [reflexivity|].
  split; [reflexivity|].
  split; [vm_compute; reflexivity|].
  split; reflexivity.
Qed.

(** What the call does write. When the update changes [teamVolume] by
    [delta], the stored [teamVolume] of every partner on the sponsor
    chain, from the immediate sponsor up to the root, grows by exactly
    [delta], none of their other fields changes, and no other stored
    record changes - the partner's own included; the record returned is
    the partner's merged with the update and stamped with the clock
    reading. *)
Theorem updatePartnerMetrics_propagates_delta :
  forall (st : Store) (fuel : nat) (now : Date) (partnerId : string)
         (metrics : PartialPartner) (partner : Partner) (newVolume : Q)
         (ancestors : list string),
    store_get st partnerId = Some partner ->
    u_teamVolume metrics = Some newVolume ->
    ~ (newVolume == teamVolume partner)%Q ->
    Chain st (sponsorId partner) ancestors ->
    (List.length ancestors < fuel)%nat ->
    exists st',
      updatePartnerMetrics fuel now partnerId metrics st
      = Ok (spread (spread partner metrics) (setUpdatedAt now)) st'
      /\ (forall a, In a ancestors ->
                    store_get st' a
                    = option_map
                        (addTeamVolume (newVolume - teamVolume partner))
                        (store_get st a))
      /\ (forall q, ~ In q ancestors -> store_get st' q = store_get st q)
      /\ store_get st' partnerId = Some partner.
Proof.
  intros st fuel now partnerId metrics partner newVolume ancestors
         Hp Hm Hneq Hc Hfuel.
  destruct (propagateVolumeUpdate_chain (newVolume - teamVolume partner)
              ancestors st (sponsorId partner) fuel Hc Hfuel)
    as (st' & Hrun & Hin & Hout).
  exists st'. split.
  - unfold updatePartnerMetrics. unfold bind at 1. unfold getPartner at 1.
    rewrite Hp, Hm.
    destruct (Qeq_bool newVolume (teamVolume partner)) eqn:E.
    + exfalso. apply Hneq. now apply Qeq_bool_iff.
    + cbn [negb]. unfold bind. rewrite Hrun. reflexivity.
  - split; [exact Hin|]. split; [exact Hout|].
    rewrite Hout; [exact Hp|].
    exact (Chain_not_on_own_chain st partnerId partner ancestors Hp Hc).
Qed.

Lemma updatePartnerMetrics_propagates_delta_witness :
  exists st',
    updatePartnerMetrics 3 ex_date "G" (setTeamVolume 100) ex_tree
    = Ok (spread (spread (row "G" (Some "C") "R/C" 3 active 0 0)
                         (setTeamVolume 100))
                 (setUpdatedAt ex_date)) st'
    /\ option_map teamVolume (store_get st' "C") = Some (0 + (100 - 0))%Q
    /\ option_map teamVolume (store_get st' "R") = Some (0 + (100 - 0))%Q
    /\ option_map teamVolume (store_get st' "G") = Some 0%Q.
Proof.
  destruct (updatePartnerMetrics_propagates_delta
              ex_tree 3 ex_date "G" (setTeamVolume 100)
              (row "G" (Some "C") "R/C" 3 active 0 0) 100 ["C"; "R"])
    as (st' & Hrun & Hin & _ & Hself).
  - reflexivity.
  - reflexivity.
  - intros H. discriminate H.
  - apply (chain_step ex_tree _ "C" (row "C" (Some "R") "R" 2 active 1 1));
      [reflexivity|reflexivity|].
    apply (chain_step ex_tree _ "R" (row "R" None "" 1 active 1 2));
      [reflexivity|reflexivity|].
    apply chain_root. reflexivity.
  - cbn. lia.
  - exists st'. split; [exact Hrun|].
    rewrite (Hin "C") by (left; reflexivity).
    rewrite (Hin "R") by (right; left; reflexivity).
    rewrite Hself. repeat split; reflexivity.
Defined.

(** *** Moving a partner below its own downline *)

Lemma cyclePS_update (st : Store) (k : string) (n : Z) :
  cyclePS st -> cyclePS (store_update st k (setTotalDownline n)).
Proof.
  intros (p & s & Hp & Hs & Sp & Ss).
  exists (if String.eqb "P" k then spread p (setTotalDownline n) else p),
         (if String.eqb "S" k then spread s (setTotalDownline n) else s).
  rewrite !store_get_update, Hp, Hs.
  repeat split.
  - destruct (String.eqb "P" k); reflexivity.
  - destruct (String.eqb "S" k); reflexivity.
  - destruct (String.eqb "P" k); exact Sp.
  - destruct (String.eqb "S" k); exact Ss.
Qed.

(** On such a store the upline walk never ends. *)
Lemma updateUplineTotalDownline_cycle (delta : Z) :
  forall (fuel : nat) (st : Store) (x : string),
    cyclePS st -> x = "P" \/ x = "S" ->
    exists st', updateUplineTotalDownline fuel x delta st = Timeout st'
                /\ cyclePS st'.
Proof.
  induction fuel as [|fuel IH]; intros st x Hc Hx.
  - exists st. split; [reflexivity|exact Hc].
  - pose proof Hc as (p & s & Hp & Hs & Sp & Ss).
    cbn [updateUplineTotalDownline].
    unfold bind at 1. unfold getPartner at 1.
    destruct Hx as [-> | ->].
    + rewrite Hp. unfold bind at 1. unfold updatePartner at 1.
      rewrite Sp. cbn [truthy_str].
      apply IH; [now apply cyclePS_update|now right].
    + rewrite Hs. unfold bind at 1. unfold updatePartner at 1.
      rewrite Ss. cbn [truthy_str].
      apply IH; [now apply cyclePS_update|now left].
Qed.

(** C2. Moving a partner below a member of its own downline is not always
    rejected: S is the direct referral of P but still pending, so the
    downline check (active partners only, five levels deep) does not see
    it. [movePartner "P" "S"] then makes S the sponsor of P; the counter
    walk that follows runs around the cycle P, S, P, ... without end,
    whatever the budget. No [SelfCycle] is raised and the store is
    changed. *)
Theorem movePartner_into_pending_downline_creates_cycle :
  forall fuel : nat,
    option_map sponsorId (store_get ex_pair "S") = Some (Some "P")
    /\ getDownlineHierarchy "P" default_maxLevels default_activeOnly ex_pair
       = Ok [] ex_pair
    /\ exists st',
         movePartner 10 fuel "P" "S" ex_pair = Timeout st'
         /\ option_map sponsorId (store_get st' "P") = Some (Some "S")
         /\ option_map sponsorId (store_get st' "S") = Some (Some "P")
         /\ st' <> ex_pair.
Proof.
  intros fuel. split; [reflexivity|]. split; [reflexivity|].
  assert (E : movePartner 10 fuel "P" "S" ex_pair
              = match updateUplineTotalDownline fuel "P" 1 ex_pair_moved with
                | Ok _ st => updateDownlineLevelsAndPaths fuel "P" 3 "P/S/P" st
                | Throw e st => Throw e st
                | Timeout st => Timeout st
                end) by reflexivity.
  destruct (updateUplineTotalDownline_cycle 1 fuel ex_pair_moved "P")
    as (st' & Hrun & (p & s & Hp & Hs & Sp & Ss)).
  { exists (row "P" (Some "S") "P/S" 3 active 1 1),
           (row "S" (Some "P") "P" 2 pending 1 1).
    repeat split; reflexivity. }
  { now left. }
  exists st'. rewrite E, Hrun. split; [reflexivity|].
  rewrite Hp, Hs. cbn [option_map]. rewrite Sp, Ss.
  split; [reflexivity|]. split; [reflexivity|].
  intros ->. cbn in Hp. injection Hp as <-. discriminate Sp.
Qed.

(** *** What the mutations leave alone *)

Section Keeps.

Context {X : Type} (f : Partner -> X).

Lemma unchanged_refl (st : Store) : unchanged f st st.
Proof. reflexivity. Qed.

Lemma unchanged_trans (st1 st2 st3 : Store) :
  unchanged f st1 st2 -> unchanged f st2 st3 -> unchanged f st1 st3.
Proof. unfold unchanged. congruence. Qed.

Lemma store_update_unchanged (st : Store) (k : string) (u : PartialPartner) :
  harmless f k u -> unchanged f st (store_update st k u).
Proof.
  intros H. unfold unchanged, store_update. rewrite map_map.
  apply map_ext. intros p.
  destruct (String.eqb_spec (id p) k) as [E|E]; [now apply H|reflexivity].
Qed.

Lemma keeps_ret {A} (a : A) : keeps f (ret a).
Proof. intros st. apply unchanged_refl. Qed.

Lemma keeps_throw {A} (e : Error) : keeps f (@throw A e).
Proof. intros st. apply unchanged_refl. Qed.

Lemma keeps_timeout {A} : keeps f (@timeout A).
Proof. intros st. apply unchanged_refl. Qed.

Lemma keeps_bind {A B} (m : M A) (k : A -> M B) :
  keeps f m -> (forall a, keeps f (k a)) -> keeps f (bind m k).
Proof.
  intros Hm Hk st. unfold bind. specialize (Hm st).
  destruct (m st) as [a st'|e st'|st']; cbn [finalStore] in *;
    [|exact Hm|exact Hm].
  eapply unchanged_trans; [exact Hm|apply Hk].
Qed.

Lemma keeps_getPartner (k : string) : keeps f (getPartner k).
Proof. intros st. apply unchanged_refl. Qed.

Lemma keeps_getAllPartners : keeps f getAllPartners.
Proof. intros st. apply unchanged_refl. Qed.

Lemma keeps_getDirectDownline (k : string) : keeps f (getDirectDownline k).
Proof. intros st. apply unchanged_refl. Qed.

Lemma keeps_updatePartner (k : string) (u : PartialPartner) :
  harmless f k u -> keeps f (updatePartner k u).
Proof. intros H st. apply store_update_unchanged, H. Qed.

Lemma keeps_forEach {A} (xs : list A) (body : A -> M unit) :
  (forall x, In x xs -> keeps f (body x)) -> keeps f (forEach xs body).
Proof.
  induction xs as [|x xs IH]; intros H; cbn [forEach].
  - apply keeps_ret.
  - apply keeps_bind; [apply H; now left|].
    intros _. apply IH. intros y Hy. apply H. now right.
Qed.

Lemma keeps_getDownlineHierarchy (k : string) (maxLevels : Z) (activeOnly : bool) :
  keeps f (getDownlineHierarchy k maxLevels activeOnly).
Proof.
  unfold getDownlineHierarchy. apply keeps_bind; [apply keeps_getPartner|].
  intros [p|]; [|apply keeps_ret].
  apply keeps_bind; [apply keeps_getAllPartners|]. intros l. apply keeps_ret.
Qed.

Lemma keeps_buildSponsorPath (k : string) : keeps f (buildSponsorPath k).
Proof.
  unfold buildSponsorPath. apply keeps_bind; [apply keeps_getPartner|].
  intros [p|]; [|apply keeps_ret].
  destruct (String.eqb (sponsorPath p) ""); apply keeps_ret.
Qed.

Lemma keeps_propagateVolumeUpdate (fuel : nat) :
  (forall k v, harmless f k (setTeamVolume v)) ->
  forall o delta, keeps f (propagateVolumeUpdate fuel o delta).
Proof.
  intros H. induction fuel as [|fuel IH]; intros o delta;
    cbn [propagateVolumeUpdate]; [apply keeps_timeout|].
  destruct (truthy_str o) as [s|]; [|apply keeps_ret].
  apply keeps_bind; [apply keeps_getPartner|].
  intros [sp|]; [|apply keeps_ret].
  apply keeps_bind; [apply keeps_updatePartner, H|]. intros _. apply IH.
Qed.

Lemma keeps_updateUplineTotalDownline (fuel : nat) :
  (forall k n, harmless f k (setTotalDownline n)) ->
  forall s delta, keeps f (updateUplineTotalDownline fuel s delta).
Proof.
  intros H. induction fuel as [|fuel IH]; intros s delta;
    cbn [updateUplineTotalDownline]; [apply keeps_timeout|].
  apply keeps_bind; [apply keeps_getPartner|].
  intros [sp|]; [|apply keeps_ret].
  apply keeps_bind; [apply keeps_updatePartner, H|]. intros _.
  destruct (truthy_str (sponsorId sp)); [apply IH|apply keeps_ret].
Qed.

Lemma keeps_updateSponsorDownlineCounts (fuel : nat) (s : string) (delta : Z) :
  (forall k n, harmless f k (setTotalDownline n)) ->
  (forall k a b, harmless f k (setCounts a b)) ->
  keeps f (updateSponsorDownlineCounts fuel s delta).
Proof.
  intros H1 H2. unfold updateSponsorDownlineCounts.
  apply keeps_bind; [apply keeps_getPartner|].
  intros [sp|]; [|apply keeps_ret].
  apply keeps_bind; [apply keeps_updatePartner, H2|]. intros _.
  destruct (truthy_str (sponsorId sp));
    [now apply keeps_updateUplineTotalDownline|apply keeps_ret].
Qed.

Lemma keeps_updateDownlineLevelsAndPaths (fuel : nat) :
  (forall k l path, harmless f k (setLevelAndPath l path)) ->
  forall k l path, keeps f (updateDownlineLevelsAndPaths fuel k l path).
Proof.
  intros H. induction fuel as [|fuel IH]; intros k l path;
    cbn [updateDownlineLevelsAndPaths]; [apply keeps_timeout|].
  apply keeps_bind; [apply keeps_getDirectDownline|].
  intros children. apply keeps_forEach. intros child _.
  apply keeps_bind; [apply keeps_updatePartner, H|]. intros _. apply IH.
Qed.

End Keeps.

Section KeepsMutations.

Context {X : Type} (f : Partner -> X).

Hypothesis Htotal : forall k n, harmless f k (setTotalDownline n).
Hypothesis Hcounts : forall k a b, harmless f k (setCounts a b).
Hypothesis Hlevel : forall k l path, harmless f k (setLevelAndPath l path).

Lemma keeps_movePartner (maxLevels : Z) (fuel : nat) (partnerId s : string) :
  (forall path l, harmless f partnerId (setSponsor (Some s) path l)) ->
  keeps f (movePartner maxLevels fuel partnerId s).
Proof.
  intros Hsp. unfold movePartner.
  apply keeps_bind; [apply keeps_getPartner|]. intros partner.
  apply keeps_bind; [apply keeps_getPartner|]. intros newSponsor.
  destruct partner as [partner|]; [|apply keeps_throw].
  destruct newSponsor as [newSponsor|]; [|apply keeps_throw].
  apply keeps_bind; [apply keeps_getDownlineHierarchy|]. intros downline.
  destruct (existsb _ downline); [apply keeps_throw|].
  destruct (maxLevels <? level newSponsor + 1); [apply keeps_throw|].
  apply keeps_bind; [apply keeps_buildSponsorPath|]. intros path.
  apply keeps_bind; [apply keeps_updatePartner, Hsp|]. intros _.
  apply keeps_bind.
  { destruct (truthy_str (sponsorId partner));
      [now apply keeps_updateSponsorDownlineCounts|apply keeps_ret]. }
  intros _.
  apply keeps_bind; [now apply keeps_updateSponsorDownlineCounts|]. intros _.
  now apply keeps_updateDownlineLevelsAndPaths.
Qed.

(** What [deactivatePartner] does after it has marked the partner. *)
Lemma keeps_redistribution (maxLevels : Z) (fuel : nat) (partnerId : string)
      (partner : Partner) (redistributeDownline : bool) :
  (forall k s path l, harmless f k (setSponsor s path l)) ->
  keeps f
    ((if redistributeDownline then
        directDownline <- getDirectDownline partnerId ;;
        forEach directDownline (fun downlinePartner =>
          match truthy_str (sponsorId partner) with
          | Some s => movePartner maxLevels fuel (id downlinePartner) s
          | None => updatePartner (id downlinePartner) (setSponsor None "" 1)
          end)
      else ret tt) ;;;
     match truthy_str (sponsorId partner) with
     | Some s => updateSponsorDownlineCounts fuel s (-1)
     | None => ret tt
     end).
Proof.
  intros Hsp. apply keeps_bind.
  - destruct redistributeDownline; [|apply keeps_ret].
    apply keeps_bind; [apply keeps_getDirectDownline|]. intros children.
    apply keeps_forEach. intros child _.
    destruct (truthy_str (sponsorId partner)).
    + apply keeps_movePartner. intros path l. apply Hsp.
    + apply keeps_updatePartner, Hsp.
  - intros _. destruct (truthy_str (sponsorId partner));
      [now apply keeps_updateSponsorDownlineCounts|apply keeps_ret].
Qed.

Lemma keeps_deactivatePartner (maxLevels : Z) (fuel : nat) (now : Date)
      (partnerId reason : string) (redistributeDownline : bool) :
  (forall k s path l, harmless f k (setSponsor s path l)) ->
  (forall m, harmless f partnerId (setInactive m)) ->
  keeps f (deactivatePartner maxLevels fuel now partnerId reason
                             redistributeDownline).
Proof.
  intros Hsp Hin. unfold deactivatePartner.
  apply keeps_bind; [apply keeps_getPartner|].
  intros [partner|]; [|apply keeps_throw].
  apply keeps_bind; [apply keeps_updatePartner, Hin|]. intros _.
  now apply keeps_redistribution.
Qed.

Lemma keeps_updatePartnerMetrics (fuel : nat) (now : Date) (partnerId : string)
      (metrics : PartialPartner) :
  (forall k v, harmless f k (setTeamVolume v)) ->
  keeps f (updatePartnerMetrics fuel now partnerId metrics).
Proof.
  intros Htv. unfold updatePartnerMetrics.
  apply keeps_bind; [apply keeps_getPartner|].
  intros [partner|]; [|apply keeps_throw].
  apply keeps_bind; [|intros _; apply keeps_ret].
  destruct (u_teamVolume metrics) as [v|]; [|apply keeps_ret].
  destruct (negb _); [now apply keeps_propagateVolumeUpdate|apply keeps_ret].
Qed.

End KeepsMutations.

(** X10. [movePartner] rewires one partner only: in every outcome the
    status and the five volumes of every row are untouched, and the
    sponsor link of every row other than the moved partner's is the one it
    had. *)
Theorem movePartner_touches_one_sponsor_link :
  forall (maxLevels : Z) (fuel : nat) (st : Store)
         (partnerId newSponsorId : string),
    let st' := finalStore (movePartner maxLevels fuel partnerId newSponsorId st) in
    map volumesAndStatus st' = map volumesAndStatus st
    /\ map (sponsorUnless partnerId) st' = map (sponsorUnless partnerId) st.
Proof.
  intros maxLevels fuel st partnerId newSponsorId. cbn zeta. split.
  - apply (keeps_movePartner volumesAndStatus); intros; intros p _; reflexivity.
  - apply (keeps_movePartner (sponsorUnless partnerId));
      intros; intros p Hp; try reflexivity.
    unfold sponsorUnless. cbn [id spread]. rewrite Hp, String.eqb_refl.
    reflexivity.
Qed.

(** X11. [deactivatePartner] on a known partner marks that partner
    inactive and changes nobody else's status, whatever happens afterwards
    (redistribution or not, completion, failure of a move, exhaustion of
    the budget); it never changes a volume. On an unknown partner it fails
    with [PartnerNotFound] and changes nothing. *)
Theorem deactivatePartner_marks_inactive :
  forall (maxLevels : Z) (fuel : nat) (now : Date) (st : Store)
         (partnerId reason : string) (redistributeDownline : bool),
    let o := deactivatePartner maxLevels fuel now partnerId reason
                               redistributeDownline st in
    (store_get st partnerId = None -> o = Throw PartnerNotFound st)
    /\ (store_get st partnerId <> None ->
        map status (finalStore o)
        = map (fun p => if String.eqb (id p) partnerId
                        then inactive else status p) st)
    /\ map (fun p => snd (volumesAndStatus p)) (finalStore o)
       = map (fun p => snd (volumesAndStatus p)) st.
Proof.
  intros maxLevels fuel now st partnerId reason redistributeDownline.
  cbn zeta. split; [|split].
  - intros H. unfold deactivatePartner, bind, getPartner. rewrite H.
    reflexivity.
  - intros H. destruct (store_get st partnerId) as [partner|] eqn:Hp;
      [clear H|contradiction].
    unfold deactivatePartner. unfold bind at 1. unfold getPartner at 1.
    rewrite Hp. unfold bind at 1. unfold updatePartner at 1.
    match goal with
    | |- map status (finalStore (?rest ?st1)) = _ =>
        assert (Hk : keeps status rest)
    end.
    { apply keeps_redistribution; intros; intros p _; reflexivity. }
    rewrite Hk. unfold store_update. rewrite map_map. apply map_ext.
    intros p. destruct (String.eqb (id p) partnerId); reflexivity.
  - apply (keeps_deactivatePartner (fun p => snd (volumesAndStatus p)));
      intros; intros p _; reflexivity.
Qed.

Lemma deactivatePartner_marks_inactive_witness :
  map status
      (finalStore (deactivatePartner 10 10%nat ex_date "C" "left" true ex_tree))
  = [active; inactive; active].
Proof.
  destruct (deactivatePartner_marks_inactive
              10 10%nat ex_date ex_tree "C" "left" true) as (_ & H & _).
  rewrite H; [reflexivity|discriminate].
Defined.

(** *** Failures of [movePartner] *)

Lemma noThrow_ret {A} (a : A) : noThrow (ret a).
Proof. intros st e st' H. discriminate H. Qed.

Lemma noThrow_timeout {A} : noThrow (@timeout A).
Proof. intros st e st' H. discriminate H. Qed.

Lemma noThrow_bind {A B} (m : M A) (k : A -> M B) :
  noThrow m -> (forall a, noThrow (k a)) -> noThrow (bind m k).
Proof.
  intros Hm Hk st e st'. unfold bind.
  destruct (m st) as [a s|e0 s|s] eqn:E.
  - apply Hk.
  - exfalso. exact (Hm _ _ _ E).
  - discriminate.
Qed.

Lemma noThrow_getPartner (k : string) : noThrow (getPartner k).
Proof. intros st e st' H. discriminate H. Qed.

Lemma noThrow_getDirectDownline (k : string) : noThrow (getDirectDownline k).
Proof. intros st e st' H. discriminate H. Qed.

Lemma noThrow_updatePartner (k : string) (u : PartialPartner) :
  noThrow (updatePartner k u).
Proof. intros st e st' H. discriminate H. Qed.

Lemma noThrow_forEach {A} (xs : list A) (body : A -> M unit) :
  (forall x, noThrow (body x)) -> noThrow (forEach xs body).
Proof.
  intros H. induction xs as [|x xs IH]; cbn [forEach].
  - apply noThrow_ret.
  - apply noThrow_bind; [apply H|intros _; exact IH].
Qed.

Lemma noThrow_updateUplineTotalDownline (fuel : nat) :
  forall s delta, noThrow (updateUplineTotalDownline fuel s delta).
Proof.
  induction fuel as [|fuel IH]; intros s delta;
    cbn [updateUplineTotalDownline]; [apply noThrow_timeout|].
  apply noThrow_bind; [apply noThrow_getPartner|].
  intros [sp|]; [|apply noThrow_ret].
  apply noThrow_bind; [apply noThrow_updatePartner|]. intros _.
  destruct (truthy_str (sponsorId sp)); [apply IH|apply noThrow_ret].
Qed.

Lemma noThrow_updateSponsorDownlineCounts (fuel : nat) (s : string) (delta : Z) :
  noThrow (updateSponsorDownlineCounts fuel s delta).
Proof.
  unfold updateSponsorDownlineCounts.
  apply noThrow_bind; [apply noThrow_getPartner|].
  intros [sp|]; [|apply noThrow_ret].
  apply noThrow_bind; [apply noThrow_updatePartner|]. intros _.
  destruct (truthy_str (sponsorId sp));
    [apply noThrow_updateUplineTotalDownline|apply noThrow_ret].
Qed.

Lemma noThrow_updateDownlineLevelsAndPaths (fuel : nat) :
  forall k l path, noThrow (updateDownlineLevelsAndPaths fuel k l path).
Proof.
  induction fuel as [|fuel IH]; intros k l path;
    cbn [updateDownlineLevelsAndPaths]; [apply noThrow_timeout|].
  apply noThrow_bind; [apply noThrow_getDirectDownline|].
  intros children. apply noThrow_forEach. intros child.
  apply noThrow_bind; [apply noThrow_updatePartner|]. intros _. apply IH.
Qed.

Lemma noThrow_propagateVolumeUpdate (fuel : nat) :
  forall o delta, noThrow (propagateVolumeUpdate fuel o delta).
Proof.
  induction fuel as [|fuel IH]; intros o delta;
    cbn [propagateVolumeUpdate]; [apply noThrow_timeout|].
  destruct (truthy_str o); [|apply noThrow_ret].
  apply noThrow_bind; [apply noThrow_getPartner|].
  intros [sp|]; [|apply noThrow_ret].
  apply noThrow_bind; [apply noThrow_updatePartner|]. intros _. apply IH.
Qed.

Lemma getDownlineHierarchy_reads (k : string) (maxLevels : Z)
      (activeOnly : bool) (st : Store) :
  exists l, getDownlineHierarchy k maxLevels activeOnly st = Ok l st.
Proof.
  unfold getDownlineHierarchy, bind, getPartner, getAllPartners, ret.
  destruct (store_get st k); eexists; reflexivity.
Qed.

Lemma buildSponsorPath_reads (k : string) (st : Store) :
  exists path, buildSponsorPath k st = Ok path st.
Proof.
  unfold buildSponsorPath, bind, getPartner, ret.
  destruct (store_get st k) as [p|]; [|eexists; reflexivity].
  destruct (String.eqb (sponsorPath p) ""); eexists; reflexivity.
Qed.

(** X12. Every failure of [movePartner] happens before its first write:
    when the call throws, the store is exactly as it was, and the error
    tells why - the partner is unknown, the new sponsor is unknown, the new
    sponsor is among the (active, at most five levels deep) downline the
    guard inspects, or the new level would exceed [maxHierarchyLevels]. *)
Theorem movePartner_fails_before_writing :
  forall (maxLevels : Z) (fuel : nat) (st st' : Store)
         (partnerId newSponsorId : string) (e : Error),
    movePartner maxLevels fuel partnerId newSponsorId st = Throw e st' ->
    st' = st
    /\ match e with
       | PartnerNotFound => store_get st partnerId = None
       | NewSponsorNotFound =>
           store_get st partnerId <> None /\ store_get st newSponsorId = None
       | SelfCycle =>
           exists downline,
             getDownlineHierarchy partnerId default_maxLevels
                                  default_activeOnly st = Ok downline st
             /\ existsb (fun p => String.eqb (id p) newSponsorId) downline
                = true
       | DepthExceeded =>
           exists newSponsor,
             store_get st newSponsorId = Some newSponsor
             /\ maxLevels < level newSponsor + 1
       | InvalidAmount => False
       end.
Proof.
  intros maxLevels fuel st st' partnerId newSponsorId e.
  unfold movePartner. unfold bind at 1. unfold getPartner at 1.
  unfold bind at 1. unfold getPartner at 1.
  destruct (store_get st partnerId) as [partner|] eqn:Hp.
  2:{ intros H. injection H as <- <-. split; reflexivity. }
  destruct (store_get st newSponsorId) as [newSponsor|] eqn:Hs.
  2:{ intros H. injection H as <- <-. split; [reflexivity|].
      split; [discriminate|reflexivity]. }
  unfold bind at 1.
  destruct (getDownlineHierarchy_reads partnerId default_maxLevels
              default_activeOnly st) as [downline Hd].
  rewrite Hd.
  destruct (existsb _ downline) eqn:Hex.
  { intros H. injection H as <- <-. split; [reflexivity|].
    exists downline. split; [reflexivity|exact Hex]. }
  destruct (maxLevels <? level newSponsor + 1) eqn:Hl.
  { intros H. injection H as <- <-. split; [reflexivity|].
    exists newSponsor. split; [reflexivity|]. now apply Z.ltb_lt. }
  unfold bind at 1.
  destruct (buildSponsorPath_reads newSponsorId st) as [path Hpath].
  rewrite Hpath. intros H. exfalso. revert H.
  apply noThrow_bind; [apply noThrow_updatePartner|]. intros _.
  apply noThrow_bind.
  { destruct (truthy_str (sponsorId partner));
      [apply noThrow_updateSponsorDownlineCounts|apply noThrow_ret]. }
  intros _.
  apply noThrow_bind; [apply noThrow_updateSponsorDownlineCounts|]. intros _.
  apply noThrow_updateDownlineLevelsAndPaths.
Qed.

Lemma movePartner_fails_before_writing_witness :
  movePartner 10 10%nat "R" "G" ex_tree = Throw SelfCycle ex_tree
  /\ exists downline,
       getDownlineHierarchy "R" default_maxLevels default_activeOnly ex_tree
       = Ok downline ex_tree
       /\ existsb (fun p => String.eqb (id p) "G") downline = true.
Proof.
  assert (H : movePartner 10 10%nat "R" "G" ex_tree = Throw SelfCycle ex_tree)
    by (vm_compute; reflexivity).
  split; [exact H|].
  exact (proj2 (movePartner_fails_before_writing
                  10 10%nat ex_tree ex_tree "R" "G" SelfCycle H)).
Defined.

(** *** Encoding and decoding the materialized path *)

Lemma split_from_app_slash (a b : string) :
  forall cur,
    split_from cur (a ++ String "/" b)%string
    = split_from cur a ++ split_from "" b.
Proof.
  induction a as [|c a IH]; intros cur; cbn [append split_from].
  - reflexivity.
  - destruct (Ascii.eqb c "/"); [cbn [app]; now rewrite IH|apply IH].
Qed.

Lemma split_from_noSlash (s : string) :
  noSlash s = true -> forall cur, split_from cur s = [(cur ++ s)%string].
Proof.
  induction s as [|c s IH]; intros H cur; cbn [split_from].
  - assert (E : (cur ++ "")%string = cur).
    { induction cur as [|d cur IHc]; cbn; [reflexivity|now rewrite IHc]. }
    now rewrite E.
  - cbn [noSlash] in H. apply andb_true_iff in H. destruct H as [Hc Hs].
    apply negb_true_iff in Hc. rewrite Hc, (IH Hs).
    assert (E : forall x y, ((x ++ String c "") ++ y)%string
                            = (x ++ String c y)%string).
    { induction x as [|d x IHx]; intros y; cbn; [reflexivity|now rewrite IHx]. }
    now rewrite E.
Qed.

Lemma decodePath_single (s : string) :
  s <> "" -> noSlash s = true -> decodePath s = [s].
Proof.
  intros Hne Hns. unfold decodePath, split_slash.
  rewrite (split_from_noSlash s Hns). cbn [append filter].
  destruct (String.eqb_spec s ""); [contradiction|reflexivity].
Qed.

Lemma decodePath_app_slash (a b : string) :
  decodePath (a ++ String "/" b)%string = decodePath a ++ decodePath b.
Proof.
  unfold decodePath, split_slash.
  now rewrite split_from_app_slash, filter_app.
Qed.

(** X13. The path [buildSponsorPath] builds for a known sponsor decodes to
    the sponsor's own decoded path followed by the sponsor's id, provided
    the id is non-empty and contains no '/'; the store is only read. For
    an unknown sponsor the path is empty. *)
Theorem buildSponsorPath_decodes_to_sponsor_chain :
  forall (st : Store) (sponsorId_ : string),
    (store_get st sponsorId_ = None ->
     buildSponsorPath sponsorId_ st = Ok "" st)
    /\ (forall sponsor,
           store_get st sponsorId_ = Some sponsor ->
           sponsorId_ <> "" -> noSlash sponsorId_ = true ->
           exists path,
             buildSponsorPath sponsorId_ st = Ok path st
             /\ decodePath path
                = decodePath (sponsorPath sponsor) ++ [sponsorId_]).
Proof.
  intros st s. unfold buildSponsorPath, bind, getPartner. split.
  - intros ->. reflexivity.
  - intros sponsor -> Hne Hns.
    destruct (String.eqb_spec (sponsorPath sponsor) "") as [E|E].
    + exists s. split; [reflexivity|]. rewrite E.
      now rewrite decodePath_single.
    + eexists. split; [reflexivity|].
      change ("/" ++ s)%string with (String "/" s).
      now rewrite decodePath_app_slash, (decodePath_single s).
Qed.

Lemma buildSponsorPath_decodes_to_sponsor_chain_witness :
  exists path,
    buildSponsorPath "C" ex_tree = Ok path ex_tree
    /\ decodePath path = ["R"; "C"].
Proof.
  destruct (buildSponsorPath_decodes_to_sponsor_chain ex_tree "C")
    as [_ H].
  destruct (H (row "C" (Some "R") "R" 2 active 1 1)) as (path & Hp & Hd).
  - reflexivity.
  - discriminate.
  - reflexivity.
  - exists path. split; [exact Hp|exact Hd].
Defined.

(** *** Reading the upline *)

Lemma store_get_id (st : Store) (k : string) (p : Partner) :
  store_get st k = Some p -> id p = k.
Proof.
  unfold store_get. intros H. apply find_some in H.
  now apply String.eqb_eq.
Qed.

Lemma resolve_ids (st : Store) (ids : list string) :
  map id (resolve st ids)
  = filter (fun i => match store_get st i with
                     | Some _ => true
                     | None => false
                     end) ids
  /\ Forall (fun a => store_get st (id a) = Some a) (resolve st ids).
Proof.
  induction ids as [|i ids [IH1 IH2]]; cbn [resolve flat_map filter].
  - split; [reflexivity|constructor].
  - fold (resolve st ids).
    destruct (store_get st i) as [p|] eqn:E; cbn [app map].
    + split.
      * rewrite IH1. f_equal. now apply store_get_id in E.
      * constructor; [|exact IH2].
        rewrite (store_get_id _ _ _ E). exact E.
    + split; assumption.
Qed.

(** X14. [getUplineHierarchy] only reads the store and returns the known
    partners named on the partner's path in reverse path order: the ids of
    the result are the path's ids that resolve to a partner, last path
    element first, and each result is the stored record of its id. An
    unknown partner, or one with an empty path, has an empty upline. *)
Theorem getUplineHierarchy_is_reversed_known_path :
  forall (st : Store) (partnerId : string),
    exists upline,
      getUplineHierarchy partnerId st = Ok upline st
      /\ Forall (fun a => store_get st (id a) = Some a) upline
      /\ map id upline
         = rev (filter (fun i => match store_get st i with
                                 | Some _ => true
                                 | None => false
                                 end)
                       (match store_get st partnerId with
                        | Some p => decodePath (sponsorPath p)
                        | None => []
                        end)).
Proof.
  intros st partnerId.
  destruct (store_get st partnerId) as [p|] eqn:Hp.
  - destruct (String.eqb_spec (sponsorPath p) "") as [E|E].
    + exists []. unfold getUplineHierarchy, bind, getPartner.
      rewrite Hp, E. cbn. repeat split. constructor.
    + exists (rev (resolve st (decodePath (sponsorPath p)))).
      split; [now apply getUplineHierarchy_reversed|].
      destruct (resolve_ids st (decodePath (sponsorPath p))) as [H1 H2].
      split.
      * apply Forall_rev. exact H2.
      * rewrite map_rev. now rewrite H1.
  - exists []. unfold getUplineHierarchy, bind, getPartner. rewrite Hp.
    cbn. repeat split. constructor.
Qed.

(** *** Reading the downline *)

Lemma byLevelThenJoinDate_le (a b : Partner) :
  (byLevelThenJoinDate a b <=? 0) = true <-> levelThenJoinDate a b.
Proof.
  unfold byLevelThenJoinDate, levelThenJoinDate. rewrite Z.leb_le.
  destruct (Z.eqb_spec (level a) (level b)); cbn [negb]; lia.
Qed.

Lemma levelThenJoinDate_trans (a b c : Partner) :
  levelThenJoinDate a b -> levelThenJoinDate b c -> levelThenJoinDate a c.
Proof. unfold levelThenJoinDate. lia. Qed.

Lemma levelThenJoinDate_total (a b : Partner) :
  ~ levelThenJoinDate a b -> levelThenJoinDate b a.
Proof. unfold levelThenJoinDate. lia. Qed.

Lemma insertBy_perm {A} (cmp : A -> A -> Z) (x : A) (l : list A) :
  Permutation (insertBy cmp x l) (x :: l).
Proof.
  induction l as [|y l IH]; cbn [insertBy]; [reflexivity|].
  destruct (cmp x y <=? 0); [reflexivity|].
  rewrite IH. apply perm_swap.
Qed.

Lemma sortBy_perm {A} (cmp : A -> A -> Z) (l : list A) :
  Permutation (sortBy cmp l) l.
Proof.
  unfold sortBy. induction l as [|x l IH]; cbn [fold_right]; [reflexivity|].
  rewrite insertBy_perm. now constructor.
Qed.

Lemma insertBy_sorted (x : Partner) (l : list Partner) :
  StronglySorted levelThenJoinDate l ->
  StronglySorted levelThenJoinDate (insertBy byLevelThenJoinDate x l).
Proof.
  induction l as [|y l IH]; intros Hs; cbn [insertBy].
  - constructor; constructor.
  - inversion Hs as [|? ? Hs' Hy]; subst.
    destruct (byLevelThenJoinDate x y <=? 0) eqn:E.
    + apply byLevelThenJoinDate_le in E.
      constructor; [exact Hs|]. constructor; [exact E|].
      eapply Forall_impl; [|exact Hy].
      intros z Hz. eapply levelThenJoinDate_trans; eauto.
    + constructor; [apply IH, Hs'|].
      assert (Hyx : levelThenJoinDate y x).
      { apply levelThenJoinDate_total. intros H.
        apply byLevelThenJoinDate_le in H. congruence. }
      apply Forall_forall. intros z Hz.
      apply (Permutation_in _ (insertBy_perm byLevelThenJoinDate x l)) in Hz.
      destruct Hz as [<-|Hz]; [exact Hyx|].
      rewrite Forall_forall in Hy. now apply Hy.
Qed.

Lemma sortBy_sorted (l : list Partner) :
  StronglySorted levelThenJoinDate (sortBy byLevelThenJoinDate l).
Proof.
  unfold sortBy. induction l as [|x l IH]; cbn [fold_right].
  - constructor.
  - now apply insertBy_sorted.
Qed.

(** X15. [getDownlineHierarchy] only reads the store. For a known partner
    it returns a rearrangement of exactly the rows, other than the
    partner's own, whose path string contains the partner's id, whose
    level is at most [maxLevels] below the partner's and, if [activeOnly],
    whose status is active; the result is sorted by level and, within a
    level, by join date. For an unknown partner it returns nothing. *)
Theorem getDownlineHierarchy_sorted_selection :
  forall (st : Store) (partnerId : string) (maxLevels : Z) (activeOnly : bool),
    exists downline,
      getDownlineHierarchy partnerId maxLevels activeOnly st = Ok downline st
      /\ StronglySorted levelThenJoinDate downline
      /\ match store_get st partnerId with
         | None => downline = []
         | Some partner =>
             exists selected : Partner -> bool,
               Permutation downline (filter selected st)
               /\ forall p,
                    selected p = true
                    <-> id p <> partnerId
                        /\ includes (sponsorPath p) partnerId = true
                        /\ level p - level partner <= maxLevels
                        /\ (activeOnly = true -> status p = active)
         end.
Proof.
  intros st partnerId maxLevels activeOnly.
  unfold getDownlineHierarchy, bind, getPartner, getAllPartners, ret.
  destruct (store_get st partnerId) as [partner|].
  - eexists. split; [reflexivity|]. split; [apply sortBy_sorted|].
    eexists. split; [apply sortBy_perm|].
    intros p. cbn beta.
    rewrite !andb_true_iff, negb_true_iff, Z.leb_le, orb_true_iff.
    destruct (String.eqb_spec (id p) partnerId) as [E|E].
    + split; [intros [[_ H] _]; discriminate|intros [H _]; contradiction].
    + destruct activeOnly; cbn [negb].
      * destruct (status p); cbn [Status_eqb]; intuition congruence.
      * intuition congruence.
  - exists []. repeat split. constructor.
Qed.

(** *** Downline counters along the sponsor chain *)

Lemma sameLinks_update (st : Store) (k : string) (u : PartialPartner) :
  u_sponsorId u = None -> sameLinks st (store_update st k u).
Proof.
  intros Hu q. rewrite store_get_update.
  destruct (String.eqb q k); [|reflexivity].
  destruct (store_get st q) as [p|]; [|reflexivity].
  cbn. now rewrite Hu.
Qed.

Lemma updateUplineTotalDownline_chain (delta : Z) (l : list string) :
  forall (st : Store) (o : option string) (fuel : nat),
    Chain st o l -> (List.length l < fuel)%nat ->
    exists st',
      match truthy_str o with
      | Some up => updateUplineTotalDownline fuel up delta
      | None => ret tt
      end st = Ok tt st'
      /\ (forall a, In a l ->
                    store_get st' a
                    = option_map (bumpTotalDownline delta) (store_get st a))
      /\ (forall q, ~ In q l -> store_get st' q = store_get st q).
Proof.
  induction l as [|s l IH]; intros st o fuel Hc Hfuel.
  - destruct fuel as [|fuel]; [cbn in Hfuel; lia|].
    exists st. split.
    + inversion Hc as [o' Ho | o' s Ho Hs |]; subst; rewrite Ho;
        [reflexivity|].
      cbn [updateUplineTotalDownline]. unfold bind, getPartner.
      now rewrite Hs.
    + split; [intros a []|reflexivity].
  - destruct fuel as [|fuel]; [cbn in Hfuel; lia|].
    pose proof (Chain_NoDup _ _ _ Hc) as Hnd.
    inversion Hc as [| | o' s' sp l' Ho Hs Hc']; subst.
    inversion Hnd as [|? ? Hnotin Hnd']; subst.
    set (st1 := store_update st s
                  (setTotalDownline (Z.max 0 (totalDownline sp + delta)))).
    assert (Hc1 : Chain st1 (sponsorId sp) l).
    { apply (Chain_sameLinks st); [exact Hc'|].
      now apply sameLinks_update. }
    destruct (IH st1 (sponsorId sp) fuel Hc1) as (st' & Hrun & Hin & Hout).
    { cbn in Hfuel. lia. }
    exists st'. split.
    + rewrite Ho. cbn [updateUplineTotalDownline].
      unfold bind at 1. unfold getPartner at 1. rewrite Hs.
      unfold bind at 1. unfold updatePartner at 1. fold st1.
      destruct (truthy_str (sponsorId sp)) eqn:Hup.
      * destruct fuel as [|fuel']; [cbn in Hfuel; exact Hrun|exact Hrun].
      * exact Hrun.
    + split.
      * intros a [<-|Ha].
        -- rewrite (Hout s Hnotin). unfold st1. rewrite store_get_update.
           now rewrite String.eqb_refl, Hs.
        -- rewrite (Hin a Ha). unfold st1. rewrite store_get_update.
           destruct (String.eqb_spec a s) as [->|]; [contradiction|reflexivity].
      * intros q Hq. rewrite Hout by (intros H; apply Hq; now right).
        unfold st1. rewrite store_get_update.
        destruct (String.eqb_spec q s) as [->|]; [|reflexivity].
        exfalso. apply Hq. now left.
Qed.

(** The effect of [updateSponsorDownlineCounts] along a sponsor chain that
    ends. *)
Lemma updateSponsorDownlineCounts_chain :
  forall (st : Store) (fuel : nat) (sponsorId_ : string) (sponsor : Partner)
         (delta : Z) (ancestors : list string),
    store_get st sponsorId_ = Some sponsor ->
    Chain st (sponsorId sponsor) ancestors ->
    (List.length ancestors < fuel)%nat ->
    exists st',
      updateSponsorDownlineCounts fuel sponsorId_ delta st = Ok tt st'
      /\ store_get st' sponsorId_ = Some (bumpCounts delta sponsor)
      /\ (forall a, In a ancestors ->
                    store_get st' a
                    = option_map (bumpTotalDownline delta) (store_get st a))
      /\ (forall q, q <> sponsorId_ -> ~ In q ancestors ->
                    store_get st' q = store_get st q).
Proof.
  intros st fuel s sponsor delta ancestors Hs Hc Hfuel.
  pose proof (Chain_not_on_own_chain st s sponsor ancestors Hs Hc) as Hnotin.
  set (st1 := store_update st s
                (setCounts (Z.max 0 (directReferrals sponsor + delta))
                           (Z.max 0 (totalDownline sponsor + delta)))).
  assert (Hc1 : Chain st1 (sponsorId sponsor) ancestors).
  { apply (Chain_sameLinks st); [exact Hc|]. now apply sameLinks_update. }
  destruct (updateUplineTotalDownline_chain delta ancestors st1
              (sponsorId sponsor) fuel Hc1 Hfuel)
    as (st' & Hrun & Hin & Hout).
  exists st'. split; [|split; [|split]].
  - unfold updateSponsorDownlineCounts. unfold bind at 1.
    unfold getPartner at 1. rewrite Hs.
    unfold bind at 1. unfold updatePartner at 1. exact Hrun.
  - rewrite (Hout s Hnotin). unfold st1. rewrite store_get_update.
    now rewrite String.eqb_refl, Hs.
  - intros a Ha. rewrite (Hin a Ha). unfold st1. rewrite store_get_update.
    destruct (String.eqb_spec a s) as [->|]; [contradiction|reflexivity].
  - intros q Hq Hnq. rewrite (Hout q Hnq). unfold st1.
    rewrite store_get_update.
    destruct (String.eqb_spec q s) as [->|]; [contradiction|reflexivity].
Qed.

(** X16. Along a sponsor chain that ends (at a root or at a dangling
    reference), [updateSponsorDownlineCounts] with a budget longer than the
    chain returns and has added [delta] to the direct-referral and
    total-downline counters of the sponsor and to the total-downline
    counter of each of the sponsor's ancestors, every counter clamped at
    zero from below; no other field and no other partner changes. *)
Theorem updateSponsorDownlineCounts_along_chain :
  forall (st : Store) (fuel : nat) (sponsorId_ : string) (sponsor : Partner)
         (delta : Z) (ancestors : list string),
    store_get st sponsorId_ = Some sponsor ->
    Chain st (sponsorId sponsor) ancestors ->
    (List.length ancestors < fuel)%nat ->
    exists st',
      updateSponsorDownlineCounts fuel sponsorId_ delta st = Ok tt st'
      /\ store_get st' sponsorId_ = Some (bumpCounts delta sponsor)
      /\ (forall a, In a ancestors ->
                    store_get st' a
                    = option_map (bumpTotalDownline delta) (store_get st a))
      /\ (forall q, q <> sponsorId_ -> ~ In q ancestors ->
                    store_get st' q = store_get st q).
Proof. exact updateSponsorDownlineCounts_chain. Qed.

Lemma updateSponsorDownlineCounts_along_chain_witness :
  exists st',
    updateSponsorDownlineCounts 2 "C" (-3) ex_tree = Ok tt st'
    /\ option_map (fun p => (directReferrals p, totalDownline p))
                  (store_get st' "C") = Some (0, 0)
    /\ option_map totalDownline (store_get st' "R") = Some 0.
Proof.
  destruct (updateSponsorDownlineCounts_along_chain
              ex_tree 2 "C" (row "C" (Some "R") "R" 2 active 1 1) (-3) ["R"])
    as (st' & Hrun & Hs & Hin & _).
  - reflexivity.
  - apply (chain_step ex_tree _ "R" (row "R" None "" 1 active 1 2));
      [reflexivity|reflexivity|].
    apply chain_root. reflexivity.
  - cbn. lia.
  - exists st'. split; [exact Hrun|].
    rewrite Hs, (Hin "R") by (left; reflexivity).
    split; reflexivity.
Defined.

(** *** Deactivating a root *)

Lemma forEach_updates {A} (key : A -> string) (u : PartialPartner)
      (xs : list A) :
  forall st,
    forEach xs (fun x => updatePartner (key x) u) st
    = Ok tt (fold_left (fun s x => store_update s (key x) u) xs st).
Proof.
  induction xs as [|x xs IH]; intros st; cbn [forEach fold_left];
    [reflexivity|].
  unfold bind at 1. unfold updatePartner at 1. apply IH.
Qed.

Lemma store_get_updates {A} (key : A -> string) (u : PartialPartner)
      (xs : list A) :
  (forall p, spread (spread p u) u = spread p u) ->
  forall st q,
    store_get (fold_left (fun s x => store_update s (key x) u) xs st) q
    = if existsb (fun x => String.eqb q (key x)) xs
      then option_map (fun p => spread p u) (store_get st q)
      else store_get st q.
Proof.
  intros Hidem. induction xs as [|x xs IH]; intros st q;
    cbn [fold_left existsb]; [reflexivity|].
  rewrite IH, store_get_update.
  destruct (String.eqb q (key x)); cbn [orb].
  - destruct (existsb _ xs); [|reflexivity].
    destruct (store_get st q) as [p|]; [|reflexivity].
    cbn [option_map]. now rewrite Hidem.
  - reflexivity.
Qed.

Lemma store_children_update (st : Store) (k : string) (u : PartialPartner)
      (partnerId : string) :
  u_sponsorId u = None ->
  store_children (store_update st k u) partnerId
  = map (fun p => if String.eqb (id p) k then spread p u else p)
        (store_children st partnerId).
Proof.
  intros Hu. unfold store_children, store_update.
  induction st as [|a st IH]; [reflexivity|]. cbn [map filter].
  assert (E : sponsorId (if String.eqb (id a) k then spread a u else a)
              = sponsorId a).
  { destruct (String.eqb (id a) k); [|reflexivity]. cbn. now rewrite Hu. }
  rewrite E.
  destruct (match sponsorId a with
            | Some s => String.eqb s partnerId
            | None => false
            end); cbn [map]; now rewrite IH.
Qed.

Lemma existsb_key_In {A} (key : A -> string) (q : string) (xs : list A) :
  existsb (fun x => String.eqb q (key x)) xs = true <-> In q (map key xs).
Proof.
  rewrite existsb_exists, in_map_iff. split.
  - intros (x & Hx & E). apply String.eqb_eq in E. exists x. auto.
  - intros (x & E & Hx). exists x. split; [exact Hx|].
    apply String.eqb_eq. auto.
Qed.

Lemma store_get_present (st : Store) (c : Partner) :
  In c st -> exists r, store_get st (id c) = Some r.
Proof.
  intros H. unfold store_get.
  destruct (find (fun p => String.eqb (id p) (id c)) st) as [r|] eqn:E;
    [now exists r|].
  exfalso. apply (find_none _ _ E) in H. now rewrite String.eqb_refl in H.
Qed.

(** *** Deactivating without redistribution *)

(** X9. Deactivating a partner without redistribution leaves the downline
    in place: in every outcome no row changes sponsor, path or level, so
    the direct referrals stay attached to the partner now inactive. For a
    partner without sponsor the call returns, whatever the budget, with
    exactly the partner's own row rewritten (status inactive, reason and
    date added to the metadata). Under a sponsor whose chain ends, with a
    budget longer than that chain, it returns with, besides, the
    sponsor's direct-referral and total-downline counters and each
    ancestor's total-downline counter lowered by one, not below zero, and
    every other row as it was. *)
Theorem deactivatePartner_without_redistribution :
  forall (maxLevels : Z) (fuel : nat) (now : Date) (st : Store)
         (partnerId reason : string) (partner : Partner),
    store_get st partnerId = Some partner ->
    let marked :=
      setInactive (metaSet "deactivationDate" (MIsoDate now)
                     (metaSet "deactivationReason" (MString reason)
                              (metadata partner))) in
    let o := deactivatePartner maxLevels fuel now partnerId reason false st in
    map placement (finalStore o) = map placement st
    /\ (truthy_str (sponsorId partner) = None ->
        o = Ok tt (store_update st partnerId marked))
    /\ (forall (s : string) (sponsor : Partner) (ancestors : list string),
           truthy_str (sponsorId partner) = Some s ->
           store_get st s = Some sponsor ->
           Chain st (sponsorId sponsor) ancestors ->
           (List.length ancestors < fuel)%nat ->
           exists st',
             o = Ok tt st'
             /\ store_get st' partnerId = Some (spread partner marked)
             /\ store_get st' s = Some (bumpCounts (-1) sponsor)
             /\ (forall a, In a ancestors ->
                           store_get st' a
                           = option_map (bumpTotalDownline (-1))
                                        (store_get st a))
             /\ (forall q, q <> partnerId -> q <> s -> ~ In q ancestors ->
                           store_get st' q = store_get st q)).
Proof.
  intros maxLevels fuel now st partnerId reason partner Hp. cbn zeta.
  set (marked := setInactive (metaSet "deactivationDate" (MIsoDate now)
                                (metaSet "deactivationReason" (MString reason)
                                         (metadata partner)))).
  set (st1 := store_update st partnerId marked).
  assert (Hrun : deactivatePartner maxLevels fuel now partnerId reason false st
                 = match truthy_str (sponsorId partner) with
                   | Some s => updateSponsorDownlineCounts fuel s (-1) st1
                   | None => Ok tt st1
                   end).
  { unfold deactivatePartner. unfold bind at 1. unfold getPartner at 1.
    rewrite Hp. unfold bind at 1. unfold updatePartner at 1.
    unfold bind at 1. unfold ret at 1.
    destruct (truthy_str (sponsorId partner)); reflexivity. }
  split; [|split].
  - rewrite Hrun.
    assert (H1 : map placement st1 = map placement st).
    { apply (store_update_unchanged placement). intros p _. reflexivity. }
    destruct (truthy_str (sponsorId partner)) as [s|]; [|exact H1].
    rewrite <- H1.
    apply (keeps_updateSponsorDownlineCounts placement);
      intros; intros p _; reflexivity.
  - intros Hroot. rewrite Hrun, Hroot. reflexivity.
  - intros s sponsor ancestors Hs Hsp Hc Hfuel. rewrite Hrun, Hs.
    assert (Hchain : Chain st (sponsorId partner) (s :: ancestors))
      by (apply (chain_step st _ s sponsor); assumption).
    pose proof (Chain_not_on_own_chain st partnerId partner _ Hp Hchain)
      as Hnot.
    assert (Hne : s <> partnerId) by (intros E; apply Hnot; now left).
    assert (Hna : ~ In partnerId ancestors)
      by (intros H; apply Hnot; now right).
    assert (Hsame : forall q, q <> partnerId ->
                              store_get st1 q = store_get st q).
    { intros q Hq. unfold st1. rewrite store_get_update.
      destruct (String.eqb_spec q partnerId); [contradiction|reflexivity]. }
    assert (Hsp1 : store_get st1 s = Some sponsor)
      by (rewrite (Hsame s Hne); exact Hsp).
    assert (Hc1 : Chain st1 (sponsorId sponsor) ancestors).
    { apply (Chain_sameLinks st); [exact Hc|].
      now apply sameLinks_update. }
    destruct (updateSponsorDownlineCounts_chain st1 fuel s sponsor (-1)
                ancestors Hsp1 Hc1 Hfuel)
      as (st' & Hupd & Hs' & Hin & Hout).
    exists st'. split; [exact Hupd|]. split; [|split; [exact Hs'|split]].
    + rewrite Hout; [|intros E; apply Hne; now symmetry|exact Hna].
      unfold st1. rewrite store_get_update, String.eqb_refl, Hp. reflexivity.
    + intros a Ha. rewrite (Hin a Ha). rewrite Hsame; [reflexivity|].
      intros E. apply Hna. now rewrite <- E.
    + intros q Hq1 Hq2 Hq3. rewrite (Hout q Hq2 Hq3). now apply Hsame.
Qed.

Lemma deactivatePartner_without_redistribution_witness :
  map placement
      (finalStore (deactivatePartner 10 10%nat ex_date "C" "left" false
                                     ex_tree))
  = map placement ex_tree
  /\ exists st',
       deactivatePartner 10 10%nat ex_date "C" "left" false ex_tree
       = Ok tt st'
       /\ store_get st' "R"
          = Some (bumpCounts (-1) (row "R" None "" 1 active 1 2)).
Proof.
  destruct (deactivatePartner_without_redistribution
              10 10%nat ex_date ex_tree "C" "left"
              (row "C" (Some "R") "R" 2 active 1 1) eq_refl)
    as (Hplace & _ & Hsponsored).
  split; [exact Hplace|].
  destruct (Hsponsored "R" (row "R" None "" 1 active 1 2) [])
    as (st' & Hrun & _ & HR & _).
  - reflexivity.
  - reflexivity.
  - apply chain_root. reflexivity.
  - cbn. lia.
  - exists st'. split; [exact Hrun|exact HR].
Defined.

(** X17. Deactivating, with redistribution, a known partner who has no
    sponsor always returns, whatever the budget: every direct referral of
    the partner becomes a root (no sponsor, empty path, level 1), the
    partner's own record is the stored one marked inactive with the reason
    and date added to its metadata, and the record of everybody else is
    as it was - deeper descendants included. *)
Theorem deactivatePartner_root_makes_children_roots :
  forall (maxLevels : Z) (fuel : nat) (now : Date) (st : Store)
         (partnerId reason : string) (partner : Partner),
    store_get st partnerId = Some partner ->
    truthy_str (sponsorId partner) = None ->
    exists st',
      deactivatePartner maxLevels fuel now partnerId reason true st
      = Ok tt st'
      /\ (forall child,
             In child (store_children st partnerId) ->
             exists r,
               store_get st' (id child) = Some r
               /\ sponsorId r = None /\ sponsorPath r = "" /\ level r = 1)
      /\ (forall q,
             ~ In q (map id (store_children st partnerId)) ->
             store_get st' q
             = if String.eqb q partnerId
               then Some (spread partner
                            (setInactive
                               (metaSet "deactivationDate" (MIsoDate now)
                                  (metaSet "deactivationReason" (MString reason)
                                           (metadata partner)))))
               else store_get st q).
Proof.
  intros maxLevels fuel now st partnerId reason partner Hp Hroot.
  set (u1 := setInactive
               (metaSet "deactivationDate" (MIsoDate now)
                  (metaSet "deactivationReason" (MString reason)
                           (metadata partner)))).
  set (st1 := store_update st partnerId u1).
  set (u2 := setSponsor None "" 1).
  assert (Hidem : forall p, spread (spread p u2) u2 = spread p u2)
    by (intros p; reflexivity).
  assert (Hkids : map id (store_children st1 partnerId)
                  = map id (store_children st partnerId)).
  { unfold st1. rewrite store_children_update by reflexivity.
    rewrite map_map. apply map_ext. intros p.
    destruct (String.eqb (id p) partnerId); reflexivity. }
  set (st' := fold_left (fun s x => store_update s (id x) u2)
                        (store_children st1 partnerId) st1).
  assert (Hget : forall q,
             store_get st' q
             = if existsb (fun x => String.eqb q (id x))
                          (store_children st1 partnerId)
               then option_map (fun p => spread p u2) (store_get st1 q)
               else store_get st1 q).
  { intros q. unfold st'. now apply store_get_updates. }
  exists st'. split; [|split].
  - unfold deactivatePartner. unfold bind at 1. unfold getPartner at 1.
    rewrite Hp, Hroot. unfold bind at 1. unfold updatePartner at 1.
    fold u1. fold st1. unfold bind at 1. unfold bind at 1.
    unfold getDirectDownline at 1. fold u2.
    rewrite (forEach_updates id u2). reflexivity.
  - intros child Hchild.
    assert (Hin : In child st).
    { unfold store_children in Hchild. apply filter_In in Hchild. tauto. }
    assert (Hex : existsb (fun x => String.eqb (id child) (id x))
                          (store_children st1 partnerId) = true).
    { apply existsb_key_In. rewrite Hkids. now apply in_map. }
    rewrite Hget, Hex.
    destruct (store_get_present st child Hin) as [r Hr].
    unfold st1. rewrite store_get_update, Hr.
    destruct (String.eqb (id child) partnerId); cbn [option_map];
      eexists; (split; [reflexivity|]); repeat split; reflexivity.
  - intros q Hq.
    assert (Hex : existsb (fun x => String.eqb q (id x))
                          (store_children st1 partnerId) = false).
    { destruct (existsb _ _) eqn:E; [|reflexivity].
      apply existsb_key_In in E. rewrite Hkids in E. contradiction. }
    rewrite Hget, Hex. unfold st1. rewrite store_get_update.
    destruct (String.eqb_spec q partnerId) as [->|]; [|reflexivity].
    now rewrite Hp.
Qed.

Lemma deactivatePartner_root_makes_children_roots_witness :
  exists st',
    deactivatePartner 10 0%nat ex_date "R" "inactive account" true ex_tree
    = Ok tt st'
    /\ store_get st' "G" = store_get ex_tree "G".
Proof.
  destruct (deactivatePartner_root_makes_children_roots
              10 0%nat ex_date ex_tree "R" "inactive account"
              (row "R" None "" 1 active 1 2))
    as (st' & Hrun & _ & Hrest).
  - reflexivity.
  - reflexivity.
  - exists st'. split; [exact Hrun|].
    rewrite (Hrest "G"); [reflexivity|].
    cbn. intros [H|[]]. discriminate H.
Defined.

(** *** Edge behaviour of [updatePartnerMetrics] *)

(** X18. [updatePartnerMetrics] fails with [PartnerNotFound], store
    untouched, for an unknown partner. For a known partner whose update
    carries no team volume, or the team volume the partner already has, it
    returns the merged record at once (whatever the budget) and leaves the
    store exactly as it was. In every case and outcome the only stored
    field it can change is [teamVolume]. *)
Theorem updatePartnerMetrics_without_volume_change :
  forall (st : Store) (fuel : nat) (now : Date) (partnerId : string)
         (metrics : PartialPartner),
    (store_get st partnerId = None ->
     updatePartnerMetrics fuel now partnerId metrics st
     = Throw PartnerNotFound st)
    /\ (forall partner,
           store_get st partnerId = Some partner ->
           u_teamVolume metrics = None
           \/ (exists v, u_teamVolume metrics = Some v
                         /\ (v == teamVolume partner)%Q) ->
           updatePartnerMetrics fuel now partnerId metrics st
           = Ok (spread (spread partner metrics) (setUpdatedAt now)) st)
    /\ map (fun p => spread p (setTeamVolume 0))
           (finalStore (updatePartnerMetrics fuel now partnerId metrics st))
       = map (fun p => spread p (setTeamVolume 0)) st.
Proof.
  intros st fuel now partnerId metrics. split; [|split].
  - intros H. unfold updatePartnerMetrics, bind, getPartner. now rewrite H.
  - intros partner Hp Hm. unfold updatePartnerMetrics.
    unfold bind at 1. unfold getPartner at 1. rewrite Hp.
    destruct Hm as [-> | (v & -> & Hv)]; [reflexivity|].
    apply Qeq_bool_iff in Hv. rewrite Hv. reflexivity.
  - apply (keeps_updatePartnerMetrics (fun p => spread p (setTeamVolume 0))).
    intros k v p _. reflexivity.
Qed.

Lemma updatePartnerMetrics_without_volume_change_witness :
  updatePartnerMetrics 0 ex_date "G" (setCounts 4 9) ex_tree
  = Ok (spread (spread (row "G" (Some "C") "R/C" 3 active 0 0) (setCounts 4 9))
               (setUpdatedAt ex_date)) ex_tree.
Proof.
  apply (updatePartnerMetrics_without_volume_change
           ex_tree 0 ex_date "G" (setCounts 4 9)).
  - reflexivity.
  - left. reflexivity.
Defined.

(** *** The cycle check of [validateHierarchy] *)

Lemma arr_includes_In (l : list string) (x : string) :
  arr_includes l x = true <-> In x l.
Proof.
  unfold arr_includes. rewrite existsb_exists. split.
  - intros (y & Hy & E). apply String.eqb_eq in E. now subst.
  - intros H. exists x. split; [exact H|apply String.eqb_refl].
Qed.

Lemma store_get_In (st : Store) (k : string) (p : Partner) :
  store_get st k = Some p -> In p st.
Proof. unfold store_get. intros H. now apply find_some in H. Qed.

(** The walk ends within as many iterations as there are ids to visit. *)
Lemma circularWalk_terminates (st : Store) (partner : Partner) :
  forall (fuel : nat) (visited : list string) (current : Partner),
    NoDup visited ->
    incl visited (id partner :: map id st) ->
    In (id current) (id partner :: map id st) ->
    (S (List.length st) - List.length visited < fuel)%nat ->
    exists b, circularWalk fuel partner visited current st = Ok b st.
Proof.
  induction fuel as [|fuel IH]; intros visited current Hnd Hincl Hcur Hfuel;
    [lia|].
  cbn [circularWalk].
  destruct (truthy_str (sponsorId current)) as [s|]; [|now exists false].
  destruct (arr_includes visited (id current)) eqn:Hv; [now exists false|].
  unfold bind, getPartner.
  destruct (store_get st s) as [sponsor|] eqn:Hs; [|now exists false].
  destruct (String.eqb (id sponsor) (id partner)); [now exists true|].
  assert (Hnew : ~ In (id current) visited).
  { intros H. apply arr_includes_In in H. congruence. }
  assert (Hnd' : NoDup (id current :: visited)) by now constructor.
  assert (Hincl' : incl (id current :: visited) (id partner :: map id st)).
  { intros x [<-|Hx]; [exact Hcur|now apply Hincl]. }
  apply IH; [exact Hnd'|exact Hincl'| |].
  - right. apply in_map. eapply store_get_In; eauto.
  - pose proof (NoDup_incl_length Hnd' Hincl') as Hlen.
    cbn [List.length] in *. rewrite length_map in Hlen. lia.
Qed.

Lemma circularWalk_reads (st st' : Store) (partner : Partner) (b : bool) :
  forall (fuel : nat) (visited : list string) (current : Partner),
    circularWalk fuel partner visited current st = Ok b st' -> st' = st.
Proof.
  induction fuel as [|fuel IH]; intros visited current; cbn [circularWalk];
    [discriminate|].
  destruct (truthy_str (sponsorId current)) as [s|];
    [|intros H; now injection H].
  destruct (arr_includes visited (id current)); [intros H; now injection H|].
  unfold bind, getPartner.
  destruct (store_get st s) as [sponsor|]; [|intros H; now injection H].
  destruct (String.eqb (id sponsor) (id partner));
    [intros H; now injection H|apply IH].
Qed.

(** An answer [true] is a sponsor chain that comes back to the partner's
    id. *)
Lemma circularWalk_true (st st' : Store) (partner : Partner) :
  forall (fuel : nat) (visited : list string) (current : Partner),
    circularWalk fuel partner visited current st = Ok true st' ->
    exists q, Reaches st current q /\ id q = id partner.
Proof.
  induction fuel as [|fuel IH]; intros visited current; cbn [circularWalk];
    [discriminate|].
  destruct (truthy_str (sponsorId current)) as [s|] eqn:Hs; [|discriminate].
  destruct (arr_includes visited (id current)); [discriminate|].
  unfold bind, getPartner.
  destruct (store_get st s) as [sponsor|] eqn:Hg; [|discriminate].
  destruct (String.eqb_spec (id sponsor) (id partner)) as [E|E].
  - intros _. exists sponsor. split; [|exact E].
    eapply reaches_sponsor; eauto.
  - intros H. destruct (IH _ _ H) as (q & Hq & Hid).
    exists q. split; [|exact Hid]. eapply reaches_further; eauto.
Qed.

(** Partners closed under the sponsor step, none reached with the
    partner's id: nothing reachable from them has the partner's id. *)
Lemma closed_reach (st : Store) (idp : string) (P : Partner -> Prop) :
  (forall r s r', P r -> truthy_str (sponsorId r) = Some s ->
                  store_get st s = Some r' -> id r' <> idp /\ P r') ->
  forall a q, P a -> Reaches st a q -> id q <> idp.
Proof.
  intros Hclosed a q Ha Hr. revert Ha.
  induction Hr as [a s b Hs Hg | a s b c Hs Hg _ IH]; intros Ha.
  - now destruct (Hclosed a s b Ha Hs Hg).
  - apply IH. now destruct (Hclosed a s b Ha Hs Hg).
Qed.

(** An answer [false] means no sponsor chain comes back to the partner's
    id. [done] lists the partners the walk has left behind. *)
Lemma circularWalk_false (st : Store) (partner : Partner) :
  forall (fuel : nat) (done : list Partner) (current : Partner) (st' : Store),
    circularWalk fuel partner (map id done) current st = Ok false st' ->
    (done = [] /\ current = partner)
    \/ (In partner done /\ id current <> id partner
        /\ store_get st (id current) = Some current) ->
    Forall (fun r => r = partner
                     \/ (id r <> id partner /\ store_get st (id r) = Some r))
           done ->
    (forall r s r', In r done -> truthy_str (sponsorId r) = Some s ->
                    store_get st s = Some r' ->
                    id r' <> id partner /\ (In r' done \/ r' = current)) ->
    forall q, Reaches st partner q -> id q <> id partner.
Proof.
  induction fuel as [|fuel IH]; intros done current st' Hrun Hstate Hdone Hcl;
    cbn [circularWalk] in Hrun; [discriminate|].
  assert (Hpartner : In partner done \/ partner = current).
  { destruct Hstate as [[_ ->]|[H _]]; auto. }
  destruct (truthy_str (sponsorId current)) as [s|] eqn:Hs.
  2:{ intros q. apply (closed_reach st (id partner)
                         (fun r => In r done \/ r = current)).
      - intros r s r' [Hr| ->] Ht Hg; [|congruence].
        exact (Hcl r s r' Hr Ht Hg).
      - destruct Hpartner; auto. }
  destruct (arr_includes (map id done) (id current)) eqn:Hv.
  { apply arr_includes_In in Hv. apply in_map_iff in Hv.
    destruct Hv as (r & Hid & Hr).
    assert (Hcur : In current done).
    { destruct Hstate as [[-> _]|(_ & Hne & Hget)]; [destruct Hr|].
      rewrite Forall_forall in Hdone.
      destruct (Hdone r Hr) as [-> | [_ Hgr]]; [congruence|].
      rewrite Hid in Hgr. assert (r = current) by congruence. now subst. }
    intros q. apply (closed_reach st (id partner) (fun r => In r done)).
    - intros r0 s0 r' Hr0 Ht Hg.
      destruct (Hcl r0 s0 r' Hr0 Ht Hg) as [Hne [H| ->]]; auto.
    - destruct Hpartner as [H| ->]; auto. }
  unfold bind, getPartner in Hrun.
  destruct (store_get st s) as [sponsor|] eqn:Hg.
  2:{ intros q. apply (closed_reach st (id partner)
                         (fun r => In r done \/ r = current)).
      - intros r s0 r' [Hr| ->] Ht Hg0; [|congruence].
        exact (Hcl r s0 r' Hr Ht Hg0).
      - destruct Hpartner; auto. }
  destruct (String.eqb_spec (id sponsor) (id partner)) as [E|E];
    [discriminate|].
  apply (IH (current :: done) sponsor st' Hrun).
  - right. split; [destruct Hpartner as [H| ->]; [now right|now left]|].
    split; [exact E|]. rewrite (store_get_id _ _ _ Hg). exact Hg.
  - constructor; [|exact Hdone].
    destruct Hstate as [[_ ->]|(_ & Hne & Hget)]; auto.
  - intros r s0 r' [<-|Hr] Ht Hg0.
    + assert (s0 = s) by congruence. subst s0.
      assert (r' = sponsor) by congruence. subst r'. auto.
    + destruct (Hcl r s0 r' Hr Ht Hg0) as [Hne [H| ->]];
        (split; [exact Hne|left]); [now right|now left].
Qed.

(** X19. The cycle check of [validateHierarchy] always ends: with a budget
    of more than [|store| + 1] iterations, [hasCircularReference] returns,
    the store untouched, and it answers [true] exactly when following
    sponsor links from the partner, one or more times, leads to a stored
    partner with the partner's own id. *)
Theorem hasCircularReference_decides_cycles :
  forall (st : Store) (partner : Partner) (fuel : nat),
    (S (List.length st) < fuel)%nat ->
    exists b,
      hasCircularReference fuel partner st = Ok b st
      /\ (b = true <-> exists q, Reaches st partner q /\ id q = id partner).
Proof.
  intros st partner fuel Hfuel.
  destruct (circularWalk_terminates st partner fuel [] partner)
    as [b Hb]; [constructor|intros x []|now left|cbn; lia|].
  exists b. split; [exact Hb|]. split.
  - intros ->. exact (circularWalk_true st st partner fuel [] partner Hb).
  - intros (q & Hq & Hid). destruct b; [reflexivity|]. exfalso.
    apply (circularWalk_false st partner fuel [] partner st Hb) with (q := q);
      auto.
Qed.

Lemma hasCircularReference_decides_cycles_witness :
  exists b,
    hasCircularReference 4 (row "P" (Some "S") "P/S" 3 active 1 1)
                         ex_pair_moved
    = Ok b ex_pair_moved
    /\ (b = true <->
        exists q, Reaches ex_pair_moved
                          (row "P" (Some "S") "P/S" 3 active 1 1) q
                  /\ id q = "P").
Proof.
  apply (hasCircularReference_decides_cycles
           ex_pair_moved (row "P" (Some "S") "P/S" 3 active 1 1) 4).
  cbn. lia.
Defined.

(** *** [validateHierarchy] *)

Lemma sponsorErrors_spec (maxLevels : Z) (st : Store) (p : Partner) :
  exists es,
    sponsorErrors p st = Ok es st
    /\ (es = [] <-> match truthy_str (sponsorId p) with
                    | Some s => exists sponsor,
                                  store_get st s = Some sponsor
                                  /\ level sponsor < level p
                    | None => True
                    end).
Proof.
  unfold sponsorErrors.
  destruct (truthy_str (sponsorId p)) as [s|]; [|exists []; tauto].
  unfold bind, getPartner.
  destruct (store_get st s) as [sp|].
  - destruct (Z.leb_spec (level p) (level sp)).
    + eexists. split; [reflexivity|]. split; [discriminate|].
      intros (sp' & E & Hl). injection E as <-. lia.
    + exists []. split; [reflexivity|]. split; [|reflexivity].
      intros _. exists sp. split; [reflexivity|lia].
  - eexists. split; [reflexivity|]. split; [discriminate|].
    intros (sp' & E & _). discriminate.
Qed.

Lemma depthErrors_nil (maxLevels : Z) (p : Partner) :
  depthErrors maxLevels p = [] <-> level p <= maxLevels.
Proof.
  unfold depthErrors. destruct (Z.ltb_spec maxLevels (level p)).
  - split; [discriminate|lia].
  - split; [lia|reflexivity].
Qed.

Lemma pathWarnings_nil (p : Partner) :
  pathWarnings p = [] <-> pathCountOk p.
Proof.
  unfold pathWarnings, pathCountOk, pathLengthOk.
  destruct (String.eqb_spec (sponsorPath p) ""); [tauto|].
  destruct (Z.of_nat (List.length (decodePath (sponsorPath p)))
            =? level p - 1); cbn [negb].
  - tauto.
  - split; [discriminate|]. intros [H|H]; [contradiction|discriminate].
Qed.

Lemma hasCircularReference_spec (st : Store) (partner : Partner)
      (fuel : nat) :
  (S (List.length st) < fuel)%nat ->
  exists b, hasCircularReference fuel partner st = Ok b st
            /\ (b = true <-> returnsToSelf st partner).
Proof.
  intros Hfuel.
  destruct (circularWalk_terminates st partner fuel [] partner)
    as [b Hb]; [constructor|intros x []|now left|cbn; lia|].
  exists b. split; [exact Hb|]. split.
  - intros ->. exact (circularWalk_true st st partner fuel [] partner Hb).
  - intros (q & Hq & Hid). destruct b; [reflexivity|]. exfalso.
    apply (circularWalk_false st partner fuel [] partner st Hb) with (q := q);
      auto.
Qed.

Lemma validateLoop_spec (maxLevels : Z) (fuel : nat) (st : Store)
      (partners : list Partner) :
  (forall p, In p partners ->
             exists b, hasCircularReference fuel p st = Ok b st
                       /\ (b = true <-> returnsToSelf st p)) ->
  forall errs warns,
    exists es ws,
      validateLoop maxLevels fuel partners errs warns st
      = Ok (errs ++ es, warns ++ ws) st
      /\ (es = [] <-> Forall (fun p => wellPlaced maxLevels st p
                                       /\ ~ returnsToSelf st p) partners)
      /\ (ws = [] <-> Forall pathCountOk partners).
Proof.
  induction partners as [|p rest IH]; intros Hcirc errs warns;
    cbn [validateLoop].
  - exists [], []. rewrite !app_nil_r. split; [reflexivity|].
    split; split; auto.
  - destruct (sponsorErrors_spec maxLevels st p) as (es1 & Hes1 & Hes1nil).
    destruct (Hcirc p (or_introl eq_refl)) as (b & Hb & Hbtrue).
    unfold bind at 1. rewrite Hes1. unfold bind at 1. rewrite Hb.
    destruct (IH (fun q Hq => Hcirc q (or_intror Hq))
                 (errs ++ es1 ++ depthErrors maxLevels p
                       ++ (if b then [CircularReference (partnerCode p)]
                           else []))
                 (warns ++ pathWarnings p))
      as (es & ws & Hrun & Hes & Hws).
    exists ((es1 ++ depthErrors maxLevels p
                 ++ (if b then [CircularReference (partnerCode p)] else []))
            ++ es), (pathWarnings p ++ ws).
    split; [rewrite Hrun, <- !app_assoc; reflexivity|]. split.
    + rewrite Forall_cons_iff, <- Hes. unfold wellPlaced.
      rewrite <- Hes1nil, <- depthErrors_nil, <- Hbtrue.
      split.
      * intros H. apply app_eq_nil in H. destruct H as [H1 ->].
        apply app_eq_nil in H1. destruct H1 as [-> H1].
        apply app_eq_nil in H1. destruct H1 as [-> H1].
        destruct b; [discriminate|]. repeat split; auto; discriminate.
      * intros [[[-> ->] Hnb] ->]. destruct b; [exfalso; auto|reflexivity].
    + rewrite Forall_cons_iff, <- Hws, <- pathWarnings_nil. split.
      * intros H. apply app_eq_nil in H. tauto.
      * intros [-> ->]. reflexivity.
Qed.

(** X20. With a budget of more than [|store| + 1] iterations for the cycle
    check, [validateHierarchy] returns without touching the store. It
    reports the hierarchy valid (no error) exactly when every partner's
    level is within [maxHierarchyLevels], every partner with a sponsor has
    a stored sponsor at a strictly smaller level, and no partner's sponsor
    chain comes back to its own id; it reports no warning exactly when
    every non-empty path has [level - 1] elements. *)
Theorem validateHierarchy_valid_iff :
  forall (maxLevels : Z) (st : Store) (fuel : nat),
    (S (List.length st) < fuel)%nat ->
    exists r,
      validateHierarchy maxLevels fuel st = Ok r st
      /\ (isValid r = true <-> errors r = [])
      /\ (isValid r = true
          <-> Forall (fun p => wellPlaced maxLevels st p
                               /\ ~ returnsToSelf st p) st)
      /\ (warnings r = [] <-> Forall pathCountOk st).
Proof.
  intros maxLevels st fuel Hfuel.
  destruct (validateLoop_spec maxLevels fuel st st) with (errs := @nil ValidationError)
                                                         (warns := @nil ValidationWarning)
    as (es & ws & Hrun & Hes & Hws).
  { intros p _. now apply hasCircularReference_spec. }
  eexists. split.
  - unfold validateHierarchy. unfold bind at 1. unfold getAllPartners at 1.
    unfold bind at 1. rewrite Hrun. reflexivity.
  - cbn [isValid errors warnings fst snd app]. rewrite <- Hes, <- Hws.
    assert (Hv : match es with [] => true | _ => false end = true <-> es = []).
    { destruct es; split; congruence. }
    tauto.
Qed.

Lemma validateHierarchy_valid_iff_witness :
  exists r,
    validateHierarchy 10 5 ex_tree = Ok r ex_tree
    /\ (isValid r = true <-> errors r = [])
    /\ (isValid r = true
        <-> Forall (fun p => wellPlaced 10 ex_tree p
                             /\ ~ returnsToSelf ex_tree p) ex_tree)
    /\ (warnings r = [] <-> Forall pathCountOk ex_tree).
Proof.
  apply (validateHierarchy_valid_iff 10 ex_tree 5). cbn. lia.
Defined.

Lemma NoDup_map_injective {A B} (f : A -> B) (l : list A) (a b : A) :
  NoDup (map f l) -> In a l -> In b l -> f a = f b -> a = b.
Proof.
  induction l as [|x l IH]; intros Hnd Ha Hb E; [destruct Ha|].
  cbn [map] in Hnd. inversion Hnd as [|? ? Hx Hnd']; subst.
  destruct Ha as [->|Ha], Hb as [->|Hb]; auto.
  - exfalso. apply Hx. rewrite E. now apply in_map.
  - exfalso. apply Hx. rewrite <- E. now apply in_map.
Qed.

Lemma reaches_level (maxLevels : Z) (st : Store) (a b : Partner) :
  Forall (wellPlaced maxLevels st) st ->
  In a st -> Reaches st a b -> level b < level a /\ In b st.
Proof.
  intros Hwp Ha Hr. revert Ha.
  induction Hr as [a s b Hs Hg | a s b c Hs Hg _ IH]; intros Ha.
  - rewrite Forall_forall in Hwp. destruct (Hwp a Ha) as [_ H].
    rewrite Hs in H. destruct H as (sp & Hsp & Hl).
    assert (sp = b) by congruence. subst sp.
    split; [exact Hl|]. eapply store_get_In; eauto.
  - pose proof Hwp as Hwp'. rewrite Forall_forall in Hwp'.
    destruct (Hwp' a Ha) as [_ H].
    rewrite Hs in H. destruct H as (sp & Hsp & Hl).
    assert (sp = b) by congruence. subst sp.
    destruct IH as [Hcb Hc]; [eapply store_get_In; eauto|].
    split; [lia|exact Hc].
Qed.

(** X21. In a store with unique partner ids in which every partner's
    level is within [maxHierarchyLevels] and every partner with a sponsor
    has a stored sponsor at a strictly smaller level, no sponsor chain
    comes back to the partner it started from, and [validateHierarchy]
    (with a budget of more than [|store| + 1] iterations) reports the
    hierarchy valid, with no error. *)
Theorem validateHierarchy_accepts_well_placed :
  forall (maxLevels : Z) (st : Store) (fuel : nat),
    (S (List.length st) < fuel)%nat ->
    NoDup (map id st) ->
    Forall (wellPlaced maxLevels st) st ->
    Forall (fun p => ~ returnsToSelf st p) st
    /\ exists r,
         validateHierarchy maxLevels fuel st = Ok r st
         /\ isValid r = true /\ errors r = [].
Proof.
  intros maxLevels st fuel Hfuel Hnd Hwp.
  assert (Hacyclic : Forall (fun p => ~ returnsToSelf st p) st).
  { apply Forall_forall. intros p Hp (q & Hq & Hid).
    destruct (reaches_level maxLevels st p q Hwp Hp Hq) as [Hl Hqin].
    assert (q = p) by (eapply NoDup_map_injective; eauto). subst q. lia. }
  split; [exact Hacyclic|].
  destruct (validateLoop_spec maxLevels fuel st st)
    with (errs := @nil ValidationError) (warns := @nil ValidationWarning)
    as (es & ws & Hrun & Hes & _).
  { intros p _. now apply hasCircularReference_spec. }
  assert (Hnil : es = []).
  { apply Hes. rewrite Forall_forall in *. intros p Hp. split; auto. }
  subst es. eexists. split.
  - unfold validateHierarchy. unfold bind at 1. unfold getAllPartners at 1.
    unfold bind at 1. rewrite Hrun. reflexivity.
  - split; reflexivity.
Qed.

Lemma validateHierarchy_accepts_well_placed_witness :
  exists r,
    validateHierarchy 10 5 ex_tree = Ok r ex_tree
    /\ isValid r = true /\ errors r = [].
Proof.
  apply (validateHierarchy_accepts_well_placed 10 ex_tree 5).
  - cbn. lia.
  - repeat constructor; cbn; intuition discriminate.
  - repeat constructor; cbn; try lia.
    + eexists. split; [reflexivity|]. cbn. lia.
    + eexists. split; [reflexivity|]. cbn. lia.
Defined.

(** *** Adding a partner *)

Lemma keeps_addPartner {X} (f : Partner -> X) (maxLevels : Z)
      (autoActivation : bool) (now : Date) (newId newCode : string)
      (fuel : nat) (data : PartnerData) (sponsorId_ : option string) :
  (forall k n, harmless f k (setTotalDownline n)) ->
  (forall k a b, harmless f k (setCounts a b)) ->
  keeps f (addPartner maxLevels autoActivation now newId newCode fuel data
                      sponsorId_).
Proof.
  intros H1 H2. unfold addPartner. apply keeps_bind.
  - destruct (truthy_str sponsorId_); [|apply keeps_ret].
    apply keeps_bind; [apply keeps_getPartner|].
    intros [sp|]; [|apply keeps_ret].
    destruct (negb _); apply keeps_ret.
  - intros [failure|]; [apply keeps_ret|].
    apply keeps_bind.
    { destruct (truthy_str sponsorId_); [|apply keeps_ret].
      apply keeps_bind; [|intros; apply keeps_ret].
      unfold getPartnerLevel. apply keeps_bind; [apply keeps_getPartner|].
      intros; apply keeps_ret. }
    intros l. apply keeps_bind.
    { destruct (truthy_str sponsorId_);
        [apply keeps_buildSponsorPath|apply keeps_ret]. }
    intros path. destruct (maxLevels <? l); [apply keeps_ret|].
    apply keeps_bind; [|intros; apply keeps_ret].
    destruct (truthy_str sponsorId_);
      [now apply keeps_updateSponsorDownlineCounts|apply keeps_ret].
Qed.

(** X22. [addPartner] checks before it writes. When it fails, the store is
    exactly as it was and the failure tells why: the sponsor named is
    unknown, or is not active, or the new partner's level - one more than
    the sponsor's, or 1 without sponsor - would exceed
    [maxHierarchyLevels]. In no outcome is a row added to the store (the
    new partner is returned, not stored), and no stored field other than
    the two downline counters changes. *)
Theorem addPartner_validates_before_writing :
  forall (maxLevels : Z) (autoActivation : bool) (now : Date)
         (newId newCode : string) (fuel : nat) (data : PartnerData)
         (sponsorId_ : option string) (st : Store),
    let o := addPartner maxLevels autoActivation now newId newCode fuel data
                        sponsorId_ st in
    (forall failure st',
        o = Ok (inl failure) st' ->
        st' = st
        /\ match failure with
           | InvalidSponsorIdFailure =>
               exists s, truthy_str sponsorId_ = Some s
                         /\ store_get st s = None
           | SponsorNotActive =>
               exists s sponsor,
                 truthy_str sponsorId_ = Some s
                 /\ store_get st s = Some sponsor
                 /\ status sponsor <> active
           | MaximumLevelExceeded =>
               match truthy_str sponsorId_ with
               | Some s => exists sponsor,
                             store_get st s = Some sponsor
                             /\ status sponsor = active
                             /\ maxLevels < level sponsor + 1
               | None => maxLevels < 1
               end
           end)
    /\ map id (finalStore o) = map id st
    /\ map (fun p => spread p (setCounts 0 0)) (finalStore o)
       = map (fun p => spread p (setCounts 0 0)) st.
Proof.
  intros maxLevels autoActivation now newId newCode fuel data sponsorId_ st.
  cbn zeta. split; [|split].
  - intros failure st'. unfold addPartner.
    destruct (truthy_str sponsorId_) as [s|] eqn:Hs.
    + unfold bind at 1. unfold bind at 1. unfold getPartner at 1.
      destruct (store_get st s) as [sp|] eqn:Hg.
      2:{ intros H. injection H as <- <-. split; [reflexivity|].
          exists s. auto. }
      destruct (Status_eqb (status sp) active) eqn:Ha; cbn [negb].
      2:{ intros H. injection H as <- <-. split; [reflexivity|].
          exists s, sp. repeat split; auto. intros E. rewrite E in Ha.
          discriminate. }
      unfold ret at 1. unfold bind at 1. unfold bind at 1.
      unfold getPartnerLevel, bind at 1. unfold getPartner at 1.
      rewrite Hg. unfold ret at 1. unfold ret at 1. unfold bind at 1.
      destruct (buildSponsorPath_reads s st) as [path Hpath]. rewrite Hpath.
      destruct (maxLevels <? level sp + 1) eqn:Hl.
      * intros H. injection H as <- <-. split; [reflexivity|].
        exists sp. repeat split; auto.
        -- destruct (status sp); try discriminate. reflexivity.
        -- now apply Z.ltb_lt.
      * unfold bind.
        destruct (updateSponsorDownlineCounts fuel s 1 st); discriminate.
    + cbn. destruct (maxLevels <? 1) eqn:Hl.
      * intros H. injection H as <- <-. split; [reflexivity|].
        now apply Z.ltb_lt.
      * discriminate.
  - apply (keeps_addPartner id); intros; intros p _; reflexivity.
  - apply (keeps_addPartner (fun p => spread p (setCounts 0 0)));
      intros; intros p _; reflexivity.
Qed.

Lemma addPartner_validates_before_writing_witness :
  exists st',
    addPartner 10 true ex_date "new" "MLMnew" 5
               (mkPartnerData None (Some "u1") None None None None
                              (setCounts 0 0))
               (Some "S") ex_pair
    = Ok (inl SponsorNotActive) st'
    /\ st' = ex_pair.
Proof.
  destruct (addPartner_validates_before_writing
              10 true ex_date "new" "MLMnew" 5
              (mkPartnerData None (Some "u1") None None None None
                             (setCounts 0 0))
              (Some "S") ex_pair) as [H _].
  exists ex_pair. split; [vm_compute; reflexivity|].
  refine (proj1 (H SponsorNotActive ex_pair _)). vm_compute. reflexivity.
Defined.

Lemma truthy_str_nonempty (o : option string) (s : string) :
  truthy_str o = Some s -> s <> "".
Proof.
  destruct o as [[|c t]|]; cbn; intros H; try discriminate.
  injection H as <-. discriminate.
Qed.

(** X23. Adding a partner succeeds when no sponsor is named and
    [maxHierarchyLevels] is at least 1: the store is untouched and the
    record returned is the fresh root record (level 1, empty path) with
    the caller's data spread over it. It succeeds under a known, active
    sponsor whose level is below [maxHierarchyLevels] and whose sponsor
    chain ends, given a budget longer than that chain: the record
    returned is the fresh record at the sponsor's level plus one, with a
    path that decodes to the sponsor's decoded path followed by the
    sponsor's id (for an id without '/'), and in the store the sponsor's
    direct-referral and total-downline counters and each ancestor's
    total-downline counter have grown by one, nothing else. *)
Theorem addPartner_success :
  forall (maxLevels : Z) (autoActivation : bool) (now : Date)
         (newId newCode : string) (fuel : nat) (data : PartnerData)
         (sponsorId_ : option string) (st : Store),
    (truthy_str sponsorId_ = None -> 1 <= maxLevels ->
     addPartner maxLevels autoActivation now newId newCode fuel data
                sponsorId_ st
     = Ok (inr (spreadData (freshPartner autoActivation now newId newCode
                                         data sponsorId_ "" 1) data)) st)
    /\ (forall s sponsor ancestors,
           truthy_str sponsorId_ = Some s ->
           store_get st s = Some sponsor ->
           status sponsor = active ->
           level sponsor + 1 <= maxLevels ->
           Chain st (sponsorId sponsor) ancestors ->
           (List.length ancestors < fuel)%nat ->
           exists path st',
             addPartner maxLevels autoActivation now newId newCode fuel data
                        sponsorId_ st
             = Ok (inr (spreadData
                          (freshPartner autoActivation now newId newCode data
                                        sponsorId_ path (level sponsor + 1))
                          data)) st'
             /\ (noSlash s = true ->
                 decodePath path = decodePath (sponsorPath sponsor) ++ [s])
             /\ store_get st' s = Some (bumpCounts 1 sponsor)
             /\ (forall a, In a ancestors ->
                           store_get st' a
                           = option_map (bumpTotalDownline 1) (store_get st a))
             /\ (forall q, q <> s -> ~ In q ancestors ->
                           store_get st' q = store_get st q)).
Proof.
  intros maxLevels autoActivation now newId newCode fuel data sponsorId_ st.
  split.
  - intros Hs Hmax. unfold addPartner. rewrite Hs. cbn.
    destruct (Z.ltb_spec maxLevels 1); [lia|reflexivity].
  - intros s sponsor ancestors Hs Hg Hact Hlvl Hc Hfuel.
    destruct (updateSponsorDownlineCounts_chain st fuel s sponsor 1 ancestors
                Hg Hc Hfuel) as (st' & Hrun & Hsp & Hin & Hout).
    exists (if String.eqb (sponsorPath sponsor) "" then s
            else (sponsorPath sponsor ++ "/" ++ s)%string), st'.
    split; [|split; [|repeat split; assumption]].
    + unfold addPartner. rewrite Hs.
      unfold bind at 1. unfold bind at 1. unfold getPartner at 1.
      rewrite Hg, Hact. cbn [Status_eqb negb].
      unfold ret at 1. unfold bind at 1. unfold bind at 1.
      unfold getPartnerLevel, bind at 1. unfold getPartner at 1.
      rewrite Hg. unfold ret at 1. unfold ret at 1. unfold bind at 1.
      unfold buildSponsorPath, bind at 1. unfold getPartner at 1.
      rewrite Hg.
      destruct (Z.ltb_spec maxLevels (level sponsor + 1)); [lia|].
      destruct (String.eqb (sponsorPath sponsor) ""); unfold ret at 1;
        unfold bind; rewrite Hrun; reflexivity.
    + intros Hns. pose proof (truthy_str_nonempty _ _ Hs) as Hne.
      destruct (String.eqb_spec (sponsorPath sponsor) "") as [E|E].
      * rewrite E. now rewrite decodePath_single.
      * change ("/" ++ s)%string with (String "/" s).
        now rewrite decodePath_app_slash, (decodePath_single s).
Qed.

Lemma addPartner_success_witness :
  exists path st',
    addPartner 10 true ex_date "new" "MLMnew" 5
               (mkPartnerData None (Some "u1") None None None None
                              (setCounts 0 0))
               (Some "C") ex_tree
    = Ok (inr (spreadData
                 (freshPartner true ex_date "new" "MLMnew"
                    (mkPartnerData None (Some "u1") None None None None
                                   (setCounts 0 0))
                    (Some "C") path 3)
                 (mkPartnerData None (Some "u1") None None None None
                                (setCounts 0 0)))) st'
    /\ decodePath path = ["R"; "C"]
    /\ option_map totalDownline (store_get st' "R") = Some 3.
Proof.
  destruct (addPartner_success
              10 true ex_date "new" "MLMnew" 5
              (mkPartnerData None (Some "u1") None None None None
                             (setCounts 0 0))
              (Some "C") ex_tree) as [_ H].
  destruct (H "C" (row "C" (Some "R") "R" 2 active 1 1) ["R"])
    as (path & st' & Hrun & Hpath & _ & Hin & _).
  - reflexivity.
  - reflexivity.
  - reflexivity.
  - cbn. lia.
  - apply (chain_step ex_tree _ "R" (row "R" None "" 1 active 1 2));
      [reflexivity|reflexivity|].
    apply chain_root. reflexivity.
  - cbn. lia.
  - exists path, st'. split; [exact Hrun|]. split.
    + rewrite Hpath; reflexivity.
    + rewrite (Hin "R") by (left; reflexivity). reflexivity.
Defined.

(** *** The hierarchy as a tree *)

Lemma grown_nil (st : Store) (includeInactive : bool) (bound : nat)
      (visited : list string) :
  grown st includeInactive bound visited [].
Proof.
  unfold grown, idsOf. cbn. rewrite app_nil_r. repeat split; auto.
Qed.

Lemma idsOf_app (a1 a2 : list PartnerHierarchyNode) :
  idsOf (a1 ++ a2) = idsOf a1 ++ idsOf a2.
Proof. unfold idsOf. now rewrite flat_map_app, map_app. Qed.

Lemma grown_app (st : Store) (includeInactive : bool) (bound : nat)
      (visited : list string) (a1 a2 : list PartnerHierarchyNode) :
  grown st includeInactive bound visited a1 ->
  grown st includeInactive bound (visited ++ idsOf a1) a2 ->
  grown st includeInactive bound visited (a1 ++ a2).
Proof.
  intros (L1 & F1 & A1 & N1) (L2 & F2 & A2 & N2). unfold grown.
  rewrite idsOf_app, flat_map_app, app_assoc.
  split; [apply Forall_app; auto|].
  split; [apply Forall_app; auto|].
  split; [intros H; apply Forall_app; auto|auto].
Qed.

Section Tree.

Variable st : Store.
Variable maxDepth : Z.
Variable includeInactive : bool.

Lemma childrenLoop_grows
      (recur : Partner -> list PartnerHierarchyNode -> list string
               -> M (list PartnerHierarchyNode * list string))
      (parentId : string) (bound : nat) :
  (forall c kids visited,
      In c st ->
      exists added,
        recur c kids visited st
        = Ok (kids ++ added, visited ++ idsOf added) st
        /\ (added = [] \/ exists below, added = [nodeOf c below])
        /\ grown st includeInactive bound visited added) ->
  forall downline kids visited,
    (forall c, In c downline -> In c st /\ sponsorId c = Some parentId) ->
    exists added,
      childrenLoop recur downline kids visited st
      = Ok (kids ++ added, visited ++ idsOf added) st
      /\ Forall (fun c => node_sponsorId c = Some parentId) added
      /\ grown st includeInactive bound visited added.
Proof.
  intros Hrec. induction downline as [|c rest IH]; intros kids visited Hc.
  - exists []. cbn. unfold idsOf. cbn. rewrite !app_nil_r.
    split; [reflexivity|]. split; [constructor|apply grown_nil].
  - cbn [childrenLoop]. unfold bind.
    destruct (Hrec c kids visited) as (a1 & E1 & Hshape & G1);
      [apply Hc; now left|].
    rewrite E1. cbn [fst snd].
    destruct (IH (kids ++ a1) (visited ++ idsOf a1)) as (a2 & E2 & S2 & G2);
      [intros c' Hc'; apply Hc; now right|].
    fold (childrenLoop recur). rewrite E2.
    exists (a1 ++ a2). rewrite idsOf_app, !app_assoc.
    split; [reflexivity|]. split; [|now apply grown_app].
    apply Forall_app. split; [|exact S2].
    destruct Hshape as [->|[below ->]]; constructor; [|constructor].
    cbn [node_sponsorId nodeOf]. apply Hc. now left.
Qed.

Lemma buildHierarchyRecursive_grows :
  forall (fuel : nat) (partner : Partner)
         (hierarchy : list PartnerHierarchyNode) (visited : list string)
         (currentDepth : Z),
    (Z.to_nat (maxDepth - currentDepth) < fuel)%nat ->
    In partner st ->
    exists added,
      buildHierarchyRecursive fuel partner hierarchy visited currentDepth
                              maxDepth includeInactive st
      = Ok (hierarchy ++ added, visited ++ idsOf added) st
      /\ ((added = []
           /\ (maxDepth <= currentDepth \/ In (id partner) visited
               \/ (includeInactive = false /\ status partner <> active)))
          \/ (exists below, added = [nodeOf partner below]
              /\ currentDepth < maxDepth /\ ~ In (id partner) visited
              /\ (includeInactive = false -> status partner = active)))
      /\ grown st includeInactive (Z.to_nat (maxDepth - currentDepth))
               visited added.
Proof.
  induction fuel as [|fuel IH]; intros partner hierarchy visited cd Hfuel Hin;
    [lia|].
  cbn [buildHierarchyRecursive].
  assert (Hstop : forall reason : Prop,
             reason ->
             (reason -> maxDepth <= cd \/ In (id partner) visited
                        \/ (includeInactive = false
                            /\ status partner <> active)) ->
             exists added,
               ret (hierarchy, visited) st
               = Ok (hierarchy ++ added, visited ++ idsOf added) st
               /\ ((added = []
                    /\ (maxDepth <= cd \/ In (id partner) visited
                        \/ (includeInactive = false
                            /\ status partner <> active)))
                   \/ (exists below, added = [nodeOf partner below]
                       /\ cd < maxDepth /\ ~ In (id partner) visited
                       /\ (includeInactive = false
                           -> status partner = active)))
               /\ grown st includeInactive (Z.to_nat (maxDepth - cd))
                        visited added).
  { intros reason Hr Himp. exists []. unfold idsOf. cbn.
    rewrite !app_nil_r. split; [reflexivity|].
    split; [left; split; auto|apply grown_nil]. }
  destruct (cd >=? maxDepth) eqn:E1; cbn [orb].
  { apply (Hstop (maxDepth <= cd)); [|auto].
    rewrite Z.geb_leb in E1. now apply Z.leb_le. }
  destruct (arr_includes visited (id partner)) eqn:E2.
  { apply (Hstop (In (id partner) visited)); [|auto].
    now apply arr_includes_In. }
  destruct (negb includeInactive
            && negb (Status_eqb (status partner) active)) eqn:E3.
  { apply andb_prop in E3. destruct E3 as [Ea Eb].
    apply (Hstop (includeInactive = false /\ status partner <> active));
      [|auto].
    split; [now destruct includeInactive|].
    intros Hs. rewrite Hs in Eb. discriminate Eb. }
  clear Hstop.
  rewrite Z.geb_leb in E1. apply Z.leb_gt in E1.
  assert (Hnew : ~ In (id partner) visited).
  { intros H. apply arr_includes_In in H. congruence. }
  assert (Hact : includeInactive = false -> status partner = active).
  { intros ->. cbn in E3. destruct (status partner); try discriminate E3.
    reflexivity. }
  unfold bind at 1. unfold getDirectDownline. unfold bind.
  destruct (childrenLoop_grows
              (fun child kids visited0 =>
                 buildHierarchyRecursive fuel child kids visited0 (cd + 1)
                                         maxDepth includeInactive)
              (id partner) (Z.to_nat (maxDepth - (cd + 1))))
    with (downline := store_children st (id partner))
         (kids := @nil PartnerHierarchyNode)
         (visited := visited ++ [id partner])
    as (below & E & Hsp & (L & F & A & N)).
  { intros c kids v Hc.
    destruct (IH c kids v (cd + 1)) as (added & Ea & Hshape & G);
      [lia|exact Hc|].
    exists added. split; [exact Ea|]. split; [|exact G].
    destruct Hshape as [[-> _]|(b & -> & _)]; [now left|right; now exists b]. }
  { intros c Hc. unfold store_children in Hc. apply filter_In in Hc.
    destruct Hc as [Hc Hs]. split; [exact Hc|].
    destruct (sponsorId c) as [s|]; [|discriminate Hs].
    apply String.eqb_eq in Hs. now subst. }
  rewrite E. cbn [fst snd app]. unfold ret.
  exists [nodeOf partner below].
  assert (Hids : idsOf [nodeOf partner below] = id partner :: idsOf below).
  { unfold idsOf. cbn. now rewrite app_nil_r. }
  rewrite Hids. split; [now rewrite <- app_assoc|].
  split; [right; exists below; auto|].
  unfold grown. rewrite Hids. split; [|split; [|split]].
  - constructor; [|constructor]. cbn [levelsOf nodeOf].
    assert (list_max (map levelsOf below)
            <= Z.to_nat (maxDepth - (cd + 1)))%nat.
    { apply list_max_le. apply Forall_map. exact L. }
    lia.
  - cbn [flat_map nodesOf nodeOf]. rewrite app_nil_r.
    constructor; [|exact F]. split.
    + exists partner. split; [exact Hin|reflexivity].
    + exact Hsp.
  - intros Hi. cbn [flat_map nodesOf nodeOf]. rewrite app_nil_r.
    constructor; [cbn; auto|auto].
  - intros Hnd.
    replace (visited ++ id partner :: idsOf below)
      with ((visited ++ [id partner]) ++ idsOf below)
      by now rewrite <- app_assoc.
    apply N. apply NoDup_app; [exact Hnd|repeat constructor; auto|].
    intros a Ha [<-|[]]. contradiction.
Qed.

End Tree.

(** X27. [getPartnerHierarchy] fails with [PartnerNotFound] when the
    partner is not in the store, and otherwise returns, without writing,
    an array that is empty when [maxDepth] is not positive or the partner
    is not active and inactive partners are not included, and else holds
    one tree rooted at the partner. The tree has at most [maxDepth]
    levels; its nodes carry distinct ids, each copies a row of the store
    and has only partners it sponsors as children; with inactive partners
    not included every node is active. *)
Theorem getPartnerHierarchy_builds_tree :
  forall (st : Store) (partnerId : string) (maxDepth : Z)
         (includeInactive : bool),
    (store_get st partnerId = None ->
     getPartnerHierarchy partnerId maxDepth includeInactive st
     = Throw PartnerNotFound st)
    /\ (forall partner,
           store_get st partnerId = Some partner ->
           exists nodes,
             getPartnerHierarchy partnerId maxDepth includeInactive st
             = Ok nodes st
             /\ (nodes = []
                 <-> maxDepth <= 0
                     \/ (includeInactive = false /\ status partner <> active))
             /\ (forall root,
                    In root nodes ->
                    nodes = [root]
                    /\ node_id root = partnerId
                    /\ Z.of_nat (levelsOf root) <= maxDepth
                    /\ NoDup (map node_id (nodesOf root))
                    /\ Forall (nodeFrom st) (nodesOf root)
                    /\ (includeInactive = false
                        -> Forall (fun n => node_status n = active)
                                  (nodesOf root)))).
Proof.
  intros st partnerId maxDepth includeInactive.
  unfold getPartnerHierarchy, bind, getPartner. split.
  - intros ->. reflexivity.
  - intros partner Hget. rewrite Hget.
    destruct (buildHierarchyRecursive_grows st maxDepth includeInactive
                (S (Z.to_nat maxDepth)) partner [] [] 0)
      as (added & E & Hshape & (L & F & A & N));
      [rewrite Z.sub_0_r; lia|now apply store_get_In in Hget|].
    rewrite E. cbn [fst app]. unfold ret. exists added.
    split; [reflexivity|].
    destruct Hshape as [[-> Hwhy]|(below & -> & Hd & _ & Hact)].
    + split; [|intros root []].
      split; [intros _|reflexivity].
      destruct Hwhy as [H|[[]|H]]; auto.
    + split.
      * split; [discriminate|].
        intros [H|[Hi Hs]]; [lia|]. now apply Hact in Hi.
      * intros root [<-|[]]. split; [reflexivity|].
        split; [cbn; now apply store_get_id in Hget|].
        unfold idsOf in N. cbn [flat_map] in *. rewrite app_nil_r in *.
        split; [|split; [|split]]; auto.
        -- inversion L as [|? ? Hl _]; subst. rewrite Z.sub_0_r in Hl. lia.
        -- apply (N (NoDup_nil _)).
Qed.

Lemma getPartnerHierarchy_builds_tree_witness :
  exists nodes,
    getPartnerHierarchy "R" default_maxDepth default_includeInactive ex_tree
    = Ok nodes ex_tree
    /\ (nodes = []
        <-> default_maxDepth <= 0
            \/ (default_includeInactive = false
                /\ status (row "R" None "" 1 active 1 2) <> active)).
Proof.
  destruct (getPartnerHierarchy_builds_tree ex_tree "R" default_maxDepth
              default_includeInactive) as [_ H].
  destruct (H (row "R" None "" 1 active 1 2)) as (nodes & E & Hempty & _);
    [vm_compute; reflexivity|].
  exists nodes. split; [exact E|exact Hempty].
Defined.

(** *** Statistics *)

Lemma fold_left_max_bounds (l : list Z) :
  forall a,
    a <= fold_left Z.max l a
    /\ Forall (fun x => x <= fold_left Z.max l a) l
    /\ (fold_left Z.max l a = a \/ In (fold_left Z.max l a) l).
Proof.
  induction l as [|x l IH]; intros a; cbn [fold_left].
  - split; [lia|]. split; [constructor|now left].
  - destruct (IH (Z.max a x)) as (Hge & Hall & Hin).
    split; [lia|]. split; [constructor; [lia|exact Hall]|].
    destruct Hin as [E|Hin]; [|right; now right].
    rewrite E. destruct (Z.max_spec a x) as [[_ ->]|[_ ->]];
      [right; now left|now left].
Qed.

Lemma maxLevel_greatest (ps : list Partner) (l : Z) :
  maxLevel ps = Some l ->
  Forall (fun p => level p <= l) ps /\ exists p, In p ps /\ level p = l.
Proof.
  destruct ps as [|p rest]; cbn [maxLevel]; [discriminate|].
  intros E. injection E as <-.
  destruct (fold_left_max_bounds (map level rest) (level p))
    as (Hge & Hall & Hin).
  split.
  - constructor; [exact Hge|].
    rewrite Forall_map in Hall. exact Hall.
  - destruct Hin as [E|Hin].
    + exists p. split; [now left|now rewrite E].
    + apply in_map_iff in Hin. destruct Hin as (q & Eq & Hq).
      exists q. split; [now right|exact Eq].
Qed.

(** Among the levels 1 to [n], a level is met once if it lies in that
    range and never otherwise. *)
Lemma level_met_once (x : Z) (n : nat) :
  fold_right Z.add 0
    (map (fun l => if x =? l then 1 else 0) (map Z.of_nat (seq 1 n)))
  = if (1 <=? x) && (x <=? Z.of_nat n) then 1 else 0.
Proof.
  induction n as [|n IH].
  - cbn. destruct (1 <=? x) eqn:E1, (x <=? 0) eqn:E2; cbn; auto. lia.
  - rewrite seq_S, !map_app. cbn [map Nat.add].
    assert (Hsum : forall a b,
               fold_right Z.add 0 (a ++ b)
               = fold_right Z.add 0 a + fold_right Z.add 0 b).
    { induction a as [|y a IHa]; intros b; cbn [app fold_right];
        [reflexivity|]. rewrite IHa. lia. }
    rewrite Hsum, IH. cbn [fold_right].
    destruct (Z.eqb_spec x (Z.of_nat (S n))),
      (Z.leb_spec 1 x), (Z.leb_spec x (Z.of_nat n)),
      (Z.leb_spec x (Z.of_nat (S n))); cbn [andb]; lia.
Qed.

Lemma counted_by_level (ps : list Partner) (n : nat) :
  Forall (fun p => level p <= Z.of_nat n) ps ->
  fold_right Z.add 0
    (map partnerCount (map (levelEntry ps) (map Z.of_nat (seq 1 n))))
  = Z.of_nat (List.length (filter (fun p => 1 <=? level p) ps)).
Proof.
  rewrite map_map. cbn [partnerCount levelEntry].
  induction ps as [|p ps IH]; intros Hall.
  - cbn [filter List.length]. induction (map Z.of_nat (seq 1 n)) as [|l ls IHl];
      cbn [map fold_right]; [reflexivity|]. rewrite IHl. reflexivity.
  - inversion Hall as [|? ? Hp Hps]; subst. specialize (IH Hps).
    assert (Hsplit :
              forall ls,
                fold_right Z.add 0
                  (map (fun l =>
                          Z.of_nat (List.length
                                      (filter (fun q => level q =? l)
                                              (p :: ps)))) ls)
                = fold_right Z.add 0
                    (map (fun l => if level p =? l then 1 else 0) ls)
                  + fold_right Z.add 0
                      (map (fun l =>
                              Z.of_nat (List.length
                                          (filter (fun q => level q =? l)
                                                  ps))) ls)).
    { induction ls as [|l ls IHl]; cbn [map fold_right]; [reflexivity|].
      rewrite IHl. cbn [filter].
      destruct (level p =? l); cbn [List.length]; lia. }
    rewrite Hsplit, IH, level_met_once. cbn [filter].
    destruct (Z.leb_spec 1 (level p)), (Z.leb_spec (level p) (Z.of_nat n));
      cbn [andb List.length]; lia.
Qed.

Lemma byPersonalVolumeDescending_le (a b : Partner) :
  (byPersonalVolumeDescending a b <=? 0) = true <-> volumeDescending a b.
Proof.
  unfold byPersonalVolumeDescending, volumeDescending. rewrite Z.leb_le.
  destruct (personalVolume a) as [na da], (personalVolume b) as [nb db].
  unfold Qle, Qminus, Qplus, Qopp. cbn [Qnum Qden].
  rewrite Z.sgn_nonpos. lia.
Qed.

Lemma sortBy_by_relation {A} (cmp : A -> A -> Z) (R : A -> A -> Prop) :
  (forall a b, (cmp a b <=? 0) = true <-> R a b) ->
  (forall a b c, R a b -> R b c -> R a c) ->
  (forall a b, R a b \/ R b a) ->
  forall l, StronglySorted R (sortBy cmp l).
Proof.
  intros Hcmp Htrans Htotal. unfold sortBy.
  induction l as [|x l IH]; cbn [fold_right]; [constructor|].
  revert IH. generalize (fold_right (insertBy cmp) [] l). clear l.
  induction l as [|y l IHl]; intros Hs; cbn [insertBy].
  - constructor; constructor.
  - inversion Hs as [|? ? Hs' Hy]; subst.
    destruct (cmp x y <=? 0) eqn:E.
    + apply Hcmp in E. constructor; [exact Hs|].
      constructor; [exact E|].
      eapply Forall_impl; [|exact Hy]. intros z Hz. now apply Htrans with y.
    + assert (Hyx : R y x).
      { destruct (Htotal x y) as [H|H]; [|exact H].
        apply Hcmp in H. congruence. }
      constructor; [apply IHl, Hs'|].
      assert (Hperm := insertBy_perm cmp x l).
      apply Forall_forall. intros z Hz.
      apply (Permutation_in _ Hperm) in Hz. destruct Hz as [<-|Hz];
        [exact Hyx|]. rewrite Forall_forall in Hy. now apply Hy.
Qed.

Lemma firstn_subset {A} (n : nat) (l : list A) (x : A) :
  In x (firstn n l) -> In x l.
Proof.
  intros H. rewrite <- (firstn_skipn n l). apply in_or_app. now left.
Qed.

Lemma sorted_prefix_dominates {A} (R : A -> A -> Prop) (n : nat) (l : list A) :
  StronglySorted R l ->
  StronglySorted R (firstn n l)
  /\ forall x, In x l -> In x (firstn n l) \/ Forall (fun t => R t x) (firstn n l).
Proof.
  revert n. induction l as [|y l IH]; intros n Hs.
  - rewrite firstn_nil. split; [constructor|intros x []].
  - inversion Hs as [|? ? Hs' Hy]; subst. destruct n as [|n].
    + cbn [firstn]. split; [constructor|]. intros x _. right. constructor.
    + cbn [firstn]. destruct (IH n Hs') as [Hsorted Hdom]. split.
      * constructor; [exact Hsorted|]. rewrite Forall_forall in *.
        intros z Hz. apply Hy. now apply firstn_subset in Hz.
      * intros x [<-|Hx]; [left; now left|].
        destruct (Hdom x Hx) as [H|H]; [left; now right|right].
        constructor; [|exact H]. rewrite Forall_forall in Hy. now apply Hy.
Qed.

(** X29. [calculateHierarchyStats] only reads the store and never fails.
    Of the partners it reads (all of them, or the downline of the root
    given): the active ones are counted among the total; [levels] is the
    greatest level met, left at minus infinity when there is no partner;
    the distribution has one entry for each level from 1 to [levels], in
    order, each with an average volume that times its count is its total
    volume, and together the entries count exactly the partners of level
    1 or more; the top performers are at most ten active partners, in
    descending order of personal volume, and no active partner left out
    has more personal volume than one of them. *)
Theorem calculateHierarchyStats_counts :
  forall (st : Store) (rootPartnerId : option string),
  exists allPartners,
    match truthy_str rootPartnerId with
    | Some root => getDownlineHierarchy root 99 false st
    | None => getAllPartners st
    end = Ok allPartners st
    /\ calculateHierarchyStats rootPartnerId st = Ok (statsOf allPartners) st
    /\ totalPartners (statsOf allPartners) = Z.of_nat (List.length allPartners)
    /\ 0 <= activePartners (statsOf allPartners)
       <= totalPartners (statsOf allPartners)
    /\ (levels (statsOf allPartners) = None <-> allPartners = [])
    /\ (forall l,
           levels (statsOf allPartners) = Some l ->
           Forall (fun p => level p <= l) allPartners
           /\ exists p, In p allPartners /\ level p = l)
    /\ map vd_level (volumeDistribution (statsOf allPartners))
       = levelsFromOne (levels (statsOf allPartners))
    /\ Forall (fun d => (averageVolume d * inject_Z (partnerCount d)
                         == totalVolume d)%Q)
              (volumeDistribution (statsOf allPartners))
    /\ countedByLevel (statsOf allPartners)
       = Z.of_nat (List.length (filter (fun p => 1 <=? level p) allPartners))
    /\ (List.length (topPerformers (statsOf allPartners)) <= 10)%nat
    /\ Forall (fun p => In p allPartners /\ status p = active)
              (topPerformers (statsOf allPartners))
    /\ StronglySorted volumeDescending (topPerformers (statsOf allPartners))
    /\ (forall p,
           In p allPartners -> status p = active ->
           In p (topPerformers (statsOf allPartners))
           \/ Forall (fun t => (personalVolume p <= personalVolume t)%Q)
                     (topPerformers (statsOf allPartners))).
Proof.
  intros st root.
  assert (Hread : exists allPartners,
             match truthy_str root with
             | Some r => getDownlineHierarchy r 99 false st
             | None => getAllPartners st
             end = Ok allPartners st).
  { destruct (truthy_str root) as [r|].
    - apply getDownlineHierarchy_reads.
    - exists st. reflexivity. }
  destruct Hread as [ps Hps]. exists ps.
  split; [exact Hps|].
  split.
  { unfold calculateHierarchyStats, bind.
    destruct (truthy_str root); rewrite Hps; reflexivity. }
  clear Hps.
  assert (Hsorted :
            StronglySorted volumeDescending
              (sortBy byPersonalVolumeDescending
                      (filter (fun p => Status_eqb (status p) active) ps))).
  { apply sortBy_by_relation.
    - apply byPersonalVolumeDescending_le.
    - unfold volumeDescending. intros a b c H1 H2.
      now apply Qle_trans with (personalVolume b).
    - unfold volumeDescending. intros a b.
      destruct (Qlt_le_dec (personalVolume a) (personalVolume b)) as [H|H];
        [right; now apply Qlt_le_weak|now left]. }
  assert (Hperm := sortBy_perm byPersonalVolumeDescending
                     (filter (fun p => Status_eqb (status p) active) ps)).
  destruct (sorted_prefix_dominates volumeDescending 10 _ Hsorted)
    as [Htop Hdom].
  cbn [statsOf totalPartners activePartners levels volumeDistribution
       topPerformers].
  split; [reflexivity|].
  split.
  { split; [lia|]. apply inj_le. apply filter_length_le. }
  split.
  { destruct ps; cbn [maxLevel]; split; congruence. }
  split; [apply maxLevel_greatest|].
  split.
  { rewrite map_map. cbn [vd_level levelEntry]. apply map_id. }
  split.
  { apply Forall_forall. intros d Hd. apply in_map_iff in Hd.
    destruct Hd as (l & <- & _). cbn [levelEntry averageVolume partnerCount
                                      totalVolume].
    destruct (filter (fun p => level p =? l) ps) as [|q qs].
    - cbn. reflexivity.
    - assert (H : (0 <? Z.of_nat (List.length (q :: qs))) = true)
        by (apply Z.ltb_lt; cbn [List.length]; lia).
      rewrite H. field.
      intros E. cbn [List.length] in E.
      assert (Hne : inject_Z (Z.of_nat (S (List.length qs))) == 0%Q -> False).
      { unfold Qeq. cbn. lia. }
      auto. }
  split.
  { unfold countedByLevel. cbn [statsOf volumeDistribution].
    destruct (maxLevel ps) as [l|] eqn:El; cbn [levelsFromOne].
    - apply counted_by_level.
      destruct (maxLevel_greatest ps l El) as [Hall _].
      eapply Forall_impl; [|exact Hall]. intros p Hp. cbn beta in Hp. lia.
    - destruct ps; [reflexivity|discriminate El]. }
  split; [apply firstn_le_length|].
  split.
  { apply Forall_forall. intros p Hp. apply firstn_subset in Hp.
    apply (Permutation_in _ Hperm) in Hp. apply filter_In in Hp.
    destruct Hp as [Hin Hs]. split; [exact Hin|].
    destruct (status p); try discriminate Hs. reflexivity. }
  split; [exact Htop|].
  intros p Hin Hact.
  apply Hdom. apply (Permutation_in _ (Permutation_sym Hperm)).
  apply filter_In. split; [exact Hin|]. now rewrite Hact.
Qed.

Lemma calculateHierarchyStats_counts_witness :
  exists allPartners,
    getAllPartners ex_forest = Ok allPartners ex_forest
    /\ calculateHierarchyStats None ex_forest
       = Ok (statsOf allPartners) ex_forest
    /\ countedByLevel (statsOf allPartners) = 4.
Proof.
  destruct (calculateHierarchyStats_counts ex_forest None)
    as (allPartners & Hread & Hstats & _ & _ & _ & _ & _ & _ & Hcount & _).
  exists allPartners. split; [exact Hread|]. split; [exact Hstats|].
  rewrite Hcount. cbn in Hread. injection Hread as <-. reflexivity.
Defined.

End HierarchySpec.

(** ** Fraud detection engine: referral velocity *)

Module FraudSpec.

Import JS JSFacts Fraud.
Local Open Scope string_scope.
Local Open Scope list_scope.
Local Open Scope Q_scope.

Example historical_averages :
  historicalDailyAverage ex_reading ex_partner_five_a_week == binary64 (5 # 7)
  /\ historicalDailyAverage ex_reading ex_partner_one_a_day == 1
  /\ calculateNormalReferralVelocity ex_reading ex_partner_five_a_week == 1
  /\ historicalDailyAverage ex_reading ex_partner_eight_fifths_a_day < 8 # 5.
Proof. repeat split; vm_compute; reflexivity. Qed.


(** *** Thresholds in double precision *)

Lemma Math_max_ge_l (a b : Q) : a <= Math_max a b.
Proof.
  unfold Math_max. destruct (Qle_bool a b) eqn:E; [|apply Qle_refl].
  now apply Qle_bool_iff.
Qed.

Lemma normal_velocity_at_least_one (now : Date) (partner : PartnerData) :
  1 <= calculateNormalReferralVelocity now partner.
Proof. apply Math_max_ge_l. Qed.

(** A count of array elements is a whole number below [2^53]. *)
Lemma dailyVelocity_count (now : Date) (referrals : list Referral) :
  (Z.of_nat (List.length referrals) < 2 ^ 32)%Z ->
  exists n : Z,
    (0 <= n < 2 ^ 53)%Z /\ dailyVelocity now referrals = inject_Z n.
Proof.
  intros H. exists (Z.of_nat (List.length (recentReferrals now referrals))).
  split; [|reflexivity].
  pose proof (filter_length_le
                (fun r => (getTime now - createdAt r <? msPerDay)%Z)
                referrals) as Hle.
  unfold recentReferrals. lia.
Qed.

(** A rounded product below a representable whole number was below it
    before rounding. *)
Lemma rounded_below (x : Q) (n : Z) :
  0 <= x -> (0 <= n < 2 ^ 53)%Z -> binary64 x < inject_Z n -> x < inject_Z n.
Proof.
  intros Hx Hn H. apply Qnot_le_lt. intros Hle.
  apply (Qlt_not_le _ _ H). rewrite <- (binary64_integer n Hn).
  apply binary64_mono; [|exact Hle].
  change 0 with (inject_Z 0). rewrite <- Zle_Qle. lia.
Qed.

(** A product of at least 1 rounds to less than anything that exceeds it
    by a relative [2^-52]. *)
Lemma rounded_above (x y : Q) :
  1 <= x -> x * (1 + 2 ^ (-52)) < y -> binary64 x < y.
Proof.
  intros Hx H. destruct (binary64_error x) as [_ Hu]; [lra|].
  eapply Qle_lt_trans; [exact Hu|].
  assert (E52 : 2 ^ (-52) == 2 * 2 ^ (-53)) by reflexivity.
  assert (Htiny : 2 ^ (-1075) <= 2 ^ (-53))
    by (apply pow2_mono; lia).
  assert (P : 0 < 2 ^ (-53)) by apply pow2_pos.
  assert (Hx53 : 1 * 2 ^ (-53) <= x * 2 ^ (-53))
    by (apply Qmult_le_compat_r; lra).
  rewrite E52 in H. lra.
Qed.

(** At least a whole number before rounding, at least that number
    after. *)
Lemma rounded_at_least (x : Q) (n : Z) :
  (0 <= n < 2 ^ 53)%Z -> inject_Z n <= x -> inject_Z n <= binary64 x.
Proof.
  intros Hn H. rewrite <- (binary64_integer n Hn).
  apply binary64_mono; [|exact H].
  change 0 with (inject_Z 0). rewrite <- Zle_Qle. lia.
Qed.

(** The two threshold tests of the detector, [dailyVelocity >
    normalVelocity * k] for [k] 5 and 10, against the exact product. *)
Lemma threshold_test (nv dv : Q) (k n : Z) :
  1 <= nv -> (1 <= k < 2 ^ 53)%Z -> (0 <= n < 2 ^ 53)%Z ->
  dv = inject_Z n ->
  (num_mul nv (inject_Z k) < dv -> inject_Z k * nv < dv)
  /\ (inject_Z k * nv * (1 + 2 ^ (-52)) < dv -> num_mul nv (inject_Z k) < dv)
  /\ (num_mul nv (inject_Z k) < dv -> inject_Z k <= num_div dv nv).
Proof.
  intros Hnv Hk Hn ->. unfold num_mul, num_div.
  assert (Hk1 : 1 <= inject_Z k).
  { change 1 with (inject_Z 1). rewrite <- Zle_Qle. lia. }
  assert (Hprod : 1 <= nv * inject_Z k) by nra.
  assert (Hexact : binary64 (nv * inject_Z k) < inject_Z n ->
                   inject_Z k * nv < inject_Z n).
  { intros H. rewrite Qmult_comm. apply (rounded_below _ n); [lra|exact Hn|].
    exact H. }
  split; [exact Hexact|]. split.
  - intros H. apply rounded_above; [exact Hprod|].
    setoid_replace (nv * inject_Z k) with (inject_Z k * nv) by ring. exact H.
  - intros H. apply Hexact in H.
    apply rounded_at_least; [lia|].
    apply Qle_shift_div_l; [lra|]. now apply Qlt_le_weak.
Qed.



(** *** Bounds on a velocity alert *)

(** X24. The normal velocity is never below 1, so a partner with at most
    five referrals in the trailing 24 hours never raises a velocity alert;
    the detector raises at most one alert, and an alert it raises is for
    the analysed partner, reports a velocity ratio of at least 5 and a
    risk score of at least 0.5 and at most 1 - exactly 1 when the
    severity is critical - and carries one evidence item, or two when the
    distinct source addresses are fewer than the computed product of the
    number of referrals and 0.3. *)
Theorem referral_velocity_alert_bounds :
  forall (now : Date) (alertId : string) (partner : PartnerData)
         (referrals : list Referral),
    (Z.of_nat (List.length referrals) < 2 ^ 32)%Z ->
    let alerts := detectReferralVelocityAnomalies now alertId partner
                                                  referrals in
    (dailyVelocity now referrals <= 5 -> alerts = [])
    /\ (List.length alerts <= 1)%nat
    /\ Forall (fun a =>
                 partnerId a = id partner
                 /\ 5 <= velocityRatio a
                 /\ 1 # 2 <= riskScore a /\ riskScore a <= 1
                 /\ (severity a = critical -> riskScore a == 1)
                 /\ List.length (evidence a)
                    = (if Qlt_bool
                            (uniqueIpCount (recentReferrals now referrals))
                            (num_mul (dailyVelocity now referrals)
                                     (binary64 (3 # 10)))
                       then 2 else 1)%nat)
              alerts.
Proof.
  intros now alertId partner referrals Hlen. cbn zeta.
  destruct (dailyVelocity_count now referrals Hlen) as (n & Hn & Hdv).
  unfold detectReferralVelocityAnomalies.
  set (dv := dailyVelocity now referrals) in *.
  set (nv := calculateNormalReferralVelocity now partner).
  assert (Hnv : 1 <= nv) by apply normal_velocity_at_least_one.
  destruct (threshold_test nv dv 5 n Hnv) as (H5a & _ & H5c);
    [lia|exact Hn|exact Hdv|].
  destruct (threshold_test nv dv 10 n Hnv) as (_ & _ & H10c);
    [lia|exact Hn|exact Hdv|].
  change (inject_Z 5) with 5 in *. change (inject_Z 10) with 10 in *.
  destruct (Qlt_bool (num_mul nv 5) dv) eqn:E5.
  2:{ split; [reflexivity|]. split; [cbn; lia|constructor]. }
  apply Qlt_bool_iff in E5.
  assert (Hratio : 5 <= num_div dv nv) by exact (H5c E5).
  assert (Hhalf : 1 # 2 <= num_div (num_div dv nv) 10).
  { assert (E : binary64 (1 # 2) == 1 # 2) by (vm_compute; reflexivity).
    rewrite <- E. apply binary64_mono; [discriminate|].
    apply Qle_shift_div_l; [reflexivity|]. lra. }
  split; [|split; [cbn; lia|]].
  - intros Hle. exfalso. apply H5a in E5. nra.
  - constructor; [|constructor].
    cbn [partnerId velocityRatio riskScore severity evidence].
    split; [reflexivity|]. split; [exact Hratio|]. split; [|split; [|split]].
    + unfold Math_min.
      destruct (Qle_bool (num_div (num_div dv nv) 10) 1);
        [exact Hhalf|discriminate].
    + apply CommissionSpec.Math_min_le_r.
    + destruct (Qlt_bool (num_mul nv 10) dv) eqn:E10; [|discriminate].
      intros _. apply Qlt_bool_iff in E10. apply H10c in E10.
      assert (H1 : 1 <= num_div (num_div dv nv) 10).
      { change 1 with (inject_Z 1) at 1.
        apply rounded_at_least; [lia|]. change (inject_Z 1) with 1.
        apply Qle_shift_div_l; [reflexivity|]. lra. }
      unfold Math_min.
      destruct (Qle_bool (num_div (num_div dv nv) 10) 1) eqn:E;
        [|reflexivity].
      apply Qle_bool_iff in E. now apply Qle_antisym.
    + destruct (Qlt_bool _ _); reflexivity.
Qed.

Lemma referral_velocity_alert_bounds_witness :
  detectReferralVelocityAnomalies ex_reading "alert_1" ex_partner_one_a_day
                                  (referralsInLastMinutes 5) = [].
Proof.
  apply (referral_velocity_alert_bounds ex_reading "alert_1"
           ex_partner_one_a_day (referralsInLastMinutes 5)).
  - vm_compute. reflexivity.
  - vm_compute. discriminate.
Defined.

(** *** Filtering alerts through the thresholds *)

(** X25. [applyFraudThresholds] keeps exactly the alerts whose type has
    no configured threshold or whose risk score is at least the threshold
    found for their type; among several thresholds of one type only the
    first configured counts. Filtering twice changes
    nothing more, and with no threshold configured every alert is kept. *)
Theorem applyFraudThresholds_keeps_at_or_above_first_threshold :
  forall (fraudThresholds : list FraudThreshold) (alerts : list FraudAlert),
    let kept := applyFraudThresholds fraudThresholds alerts in
    applyFraudThresholds fraudThresholds kept = kept
    /\ applyFraudThresholds [] alerts = alerts
    /\ (forall a,
           In a kept
           <-> In a alerts
               /\ ((forall t, In t fraudThresholds -> metric t <> alertType a)
                   \/ exists before t after,
                        fraudThresholds = before ++ t :: after
                        /\ Forall (fun t' => metric t' <> alertType a) before
                        /\ metric t = alertType a
                        /\ threshold t <= riskScore a)).
Proof.
  intros ths alerts. cbn zeta. unfold applyFraudThresholds. split; [|split].
  - set (f := fun alert => match findThreshold ths alert with
                           | Some t => Qle_bool (threshold t) (riskScore alert)
                           | None => true
                           end).
    induction alerts as [|a l IH]; cbn [filter]; [reflexivity|].
    destruct (f a) eqn:E; [|exact IH]. cbn [filter]. now rewrite E, IH.
  - induction alerts as [|a l IH]; cbn [filter findThreshold find];
      [reflexivity|now f_equal].
  - intros a. rewrite filter_In. unfold findThreshold.
    assert (Hfind :
              (find (fun t => String.eqb (metric t) (alertType a)) ths = None
               /\ forall t, In t ths -> metric t <> alertType a)
              \/ exists before t after,
                   find (fun t => String.eqb (metric t) (alertType a)) ths
                   = Some t
                   /\ ths = before ++ t :: after
                   /\ Forall (fun t' => metric t' <> alertType a) before
                   /\ metric t = alertType a).
    { induction ths as [|t ths IH]; cbn [find].
      - left. split; [reflexivity|intros t []].
      - destruct (String.eqb_spec (metric t) (alertType a)) as [E|E].
        + right. exists [], t, ths. repeat split; auto.
        + destruct IH as [[Hn Hall]|(b & t0 & af & Hf & -> & Hb & Ht)].
          * left. split; [exact Hn|]. intros t' [<-|Ht']; auto.
          * right. exists (t :: b), t0, af. repeat split; auto. }
    destruct Hfind as [[Hn Hall]|(b & t & af & Hf & Hths & Hb & Ht)].
    + rewrite Hn. split; [intros [H _]; split; auto|intros [H _]; auto].
    + rewrite Hf. split.
      * intros [Hin Hle]. split; [exact Hin|]. right.
        exists b, t, af. repeat split; auto. now apply Qle_bool_iff.
      * intros [Hin [Hnone|(b' & t' & af' & Hths' & Hb' & Ht' & Hle)]].
        -- exfalso. apply (Hnone t); [|exact Ht].
           rewrite Hths. apply in_elt.
        -- split; [exact Hin|]. apply Qle_bool_iff.
           assert (t' = t); [|now subst].
           assert (Hf' : find (fun t => String.eqb (metric t) (alertType a)) ths
                         = Some t').
           { rewrite Hths'. clear - Hb' Ht'.
             induction b' as [|x b' IH]; cbn [app find].
             - now rewrite Ht', String.eqb_refl.
             - inversion Hb' as [|? ? Hx Hb'']; subst.
               destruct (String.eqb_spec (metric x) (alertType a));
                 [contradiction|now apply IH]. }
           congruence.
Qed.

Lemma applyFraudThresholds_keeps_at_or_above_first_threshold_witness :
  Forall (fun a =>
            In a (applyFraudThresholds ex_thresholds
                    (detectReferralVelocityAnomalies ex_reading "alert_1"
                       ex_partner_five_a_week (referralsInLastMinutes 47))))
         (detectReferralVelocityAnomalies ex_reading "alert_1"
            ex_partner_five_a_week (referralsInLastMinutes 47)).
Proof.
  apply Forall_forall. intros a Hin.
  pose proof (applyFraudThresholds_keeps_at_or_above_first_threshold
                ex_thresholds
                (detectReferralVelocityAnomalies ex_reading "alert_1"
                   ex_partner_five_a_week (referralsInLastMinutes 47)))
    as H.
  cbv zeta in H. destruct H as (_ & _ & H).
  refine (proj2 (H a) _). clear H.
  split; [exact Hin|]. right.
  exists [], (mkThreshold "referral_velocity" (9 # 10) 24 "suspend" high),
    [mkThreshold "referral_velocity" (1 # 10) 24 "flag" low].
  vm_compute in Hin. destruct Hin as [<-|[]].
  split; [reflexivity|]. split; [constructor|].
  split; [reflexivity|]. vm_compute. discriminate.
Defined.

(** *** Similarity of two partner records *)

Lemma fieldMatches_sym (partner1 partner2 : IdentityRecord) (field : string) :
  fieldMatches partner1 partner2 field = fieldMatches partner2 partner1 field.
Proof.
  unfold fieldMatches.
  destruct (fieldValue partner1 field), (fieldValue partner2 field); auto.
  apply String.eqb_sym.
Qed.

Lemma similarityLoop_filter (partner1 partner2 : IdentityRecord) :
  forall (fields : list string) (matches total : Z) (matching : list string),
    similarityLoop partner1 partner2 fields matches total matching
    = ((matches
        + Z.of_nat (List.length (filter (fieldMatches partner1 partner2) fields)))%Z,
       (total + Z.of_nat (List.length fields))%Z,
       matching ++ filter (fieldMatches partner1 partner2) fields).
Proof.
  induction fields as [|f rest IH]; intros m t acc.
  - cbn. now rewrite !Z.add_0_r, app_nil_r.
  - cbn [similarityLoop filter].
    assert (E : fieldMatches partner1 partner2 f
                = match fieldValue partner1 f, fieldValue partner2 f with
                  | Some value1, Some value2 => String.eqb value1 value2
                  | _, _ => false
                  end) by reflexivity.
    destruct (fieldValue partner1 f) as [v1|], (fieldValue partner2 f) as [v2|];
      try destruct (String.eqb v1 v2);
      rewrite E, IH; cbn [List.length]; rewrite <- ?app_assoc; cbn [app];
      (apply f_equal2; [apply f_equal2; lia|reflexivity]).
Qed.

Lemma calculatePartnerSimilarity_filter (partner1 partner2 : IdentityRecord) :
  calculatePartnerSimilarity partner1 partner2
  = {| score :=
         inject_Z (Z.of_nat (List.length
                     (filter (fieldMatches partner1 partner2) fieldsToCheck)))
         / inject_Z 6;
       matchingFields := filter (fieldMatches partner1 partner2) fieldsToCheck |}.
Proof.
  unfold calculatePartnerSimilarity. rewrite similarityLoop_filter.
  reflexivity.
Qed.

(** X26. [calculatePartnerSimilarity] does not depend on the order of its
    two arguments. Its matching fields are the fields of the fixed list of
    six on which both records carry the same non-empty value, in the order
    of that list; the score is their number divided by six, so it lies
    between 0 and 1, and it exceeds the 0.8 used to link accounts exactly
    when at least five of the six fields match. *)
Theorem calculatePartnerSimilarity_symmetric_sixths :
  forall (partner1 partner2 : IdentityRecord),
    let result := calculatePartnerSimilarity partner1 partner2 in
    calculatePartnerSimilarity partner2 partner1 = result
    /\ matchingFields result
       = filter (fieldMatches partner1 partner2) fieldsToCheck
    /\ (forall field,
           In field (matchingFields result)
           <-> In field fieldsToCheck
               /\ exists value, fieldValue partner1 field = Some value
                                /\ fieldValue partner2 field = Some value)
    /\ score result
       == inject_Z (Z.of_nat (List.length (matchingFields result))) / 6
    /\ 0 <= score result <= 1
    /\ (8 # 10 < score result
        <-> (5 <= List.length (matchingFields result))%nat).
Proof.
  intros p1 p2. cbn zeta. rewrite !calculatePartnerSimilarity_filter.
  cbn [score matchingFields].
  split; [|split; [reflexivity|split; [|split; [reflexivity|]]]].
  - f_equal.
    + do 4 f_equal. apply filter_ext. intros f. apply fieldMatches_sym.
    + apply filter_ext. intros f. apply fieldMatches_sym.
  - intros f. rewrite filter_In. unfold fieldMatches.
    split; intros [Hin H]; (split; [exact Hin|]).
    + destruct (fieldValue p1 f) as [v1|], (fieldValue p2 f) as [v2|];
        try discriminate.
      apply String.eqb_eq in H. subst. now exists v2.
    + destruct H as (v & -> & ->). apply String.eqb_refl.
  - unfold fieldsToCheck. cbn [filter].
    destruct (fieldMatches p1 p2 "email"), (fieldMatches p1 p2 "phone"),
      (fieldMatches p1 p2 "address"), (fieldMatches p1 p2 "bankAccount"),
      (fieldMatches p1 p2 "ipAddress"), (fieldMatches p1 p2 "userAgent");
      cbn [List.length];
      (split; [split; [discriminate|discriminate]|]);
      (split; [intros H; first [lia | discriminate H]
              | intros H; first [reflexivity | lia]]).
Qed.

Lemma calculatePartnerSimilarity_symmetric_sixths_witness :
  score (calculatePartnerSimilarity (ex_identity "agent-a")
                                    (ex_identity "agent-b")) == 5 # 6
  /\ 8 # 10 < score (calculatePartnerSimilarity (ex_identity "agent-a")
                                                (ex_identity "agent-b")).
Proof.
  destruct (calculatePartnerSimilarity_symmetric_sixths
              (ex_identity "agent-a") (ex_identity "agent-b"))
    as (_ & _ & _ & Hs & _ & Hlink).
  split.
  - rewrite Hs. vm_compute. reflexivity.
  - apply Hlink. vm_compute. lia.
Defined.

End FraudSpec.
